(** * Document question-answering pipeline: ingestion, knowledge graph, answers

    A shallow embedding of [src/src/ingest.py], [src/src/kg.py],
    [src/src/vector_store.py] and [src/src/rag_chain.py].

    Python text is modelled by [string]: a character is a code point below
    256 (Latin-1), and the builtin string methods used by the sources
    ([strip], [splitlines], [split], [lower], [isdigit], [in]) follow
    CPython's behaviour on those code points.

    Python floats are IEEE 754 binary64 numbers, computed with the
    standard library's specification of floating-point arithmetic.

    Effects (capability calls, sleeps, prints, graph and vector-store
    traffic, the progress callback, exceptions) are threaded through an
    explicit world by a small state-and-exception monad. *)

From Stdlib Require Import List String Ascii Bool Arith ZArith Lia.
From Stdlib Require Import SpecFloat DecimalString DecimalNat FinFun.
Import ListNotations.
Set Warnings "-abstract-large-number".
Open Scope string_scope.
Open Scope nat_scope.

(* ================================================================== *)
(** ** Python string builtins on Latin-1 text *)
(* ================================================================== *)

Module Text.

Definition code (c : ascii) : nat := nat_of_ascii c.

(** [str.isspace] on one character: TAB..CR, FS..US, SPACE, NEL, NBSP. *)
Definition isspace (c : ascii) : bool :=
  let n := code c in
  ((9 <=? n) && (n <=? 13)) || ((28 <=? n) && (n <=? 32))
  || (n =? 133) || (n =? 160).

(** Line boundaries of [str.splitlines]: LF, VT, FF, CR, FS, GS, RS, NEL
    (CR LF counts as one boundary, see [splitlines_go]). *)
Definition is_linebreak (c : ascii) : bool :=
  let n := code c in
  ((10 <=? n) && (n <=? 13)) || ((28 <=? n) && (n <=? 30)) || (n =? 133).

Definition is_empty (s : string) : bool :=
  match s with EmptyString => true | String _ _ => false end.

(** Truthiness of a Python string. *)
Definition truthy (s : string) : bool := negb (is_empty s).

Fixpoint lstrip (s : string) : string :=
  match s with
  | EmptyString => EmptyString
  | String c s' => if isspace c then lstrip s' else s
  end.

Fixpoint rstrip (s : string) : string :=
  match s with
  | EmptyString => EmptyString
  | String c s' =>
      match rstrip s' with
      | EmptyString => if isspace c then EmptyString else String c EmptyString
      | String d r => String c (String d r)
      end
  end.

(** [s.strip()] *)
Definition strip (s : string) : string := rstrip (lstrip s).

(** [s.split(sep)] for a one-character separator: never the empty list. *)
Fixpoint split (sep : ascii) (s : string) : list string :=
  match s with
  | EmptyString => [EmptyString]
  | String c s' =>
      if Ascii.eqb c sep then EmptyString :: split sep s'
      else match split sep s' with
           | [] => [String c EmptyString]
           | f :: fs => String c f :: fs
           end
  end.

(** [s.splitlines()]; [skip_lf] is set right after a CR, whose following
    LF belongs to the same boundary. *)
Fixpoint splitlines_go (skip_lf : bool) (s : string) : list string :=
  match s with
  | EmptyString => []
  | String c s' =>
      if skip_lf && Ascii.eqb c "010"%char then splitlines_go false s'
      else if is_linebreak c
           then EmptyString :: splitlines_go (Ascii.eqb c "013"%char) s'
           else match splitlines_go false s' with
                | [] => [String c EmptyString]
                | l :: ls => String c l :: ls
                end
  end.

Definition splitlines (s : string) : list string := splitlines_go false s.

(** [pat in s] *)
Fixpoint contains (pat s : string) : bool :=
  String.prefix pat s
  || match s with
     | EmptyString => false
     | String _ s' => contains pat s'
     end.

(** [str.lower] on one character: A-Z, and the Latin-1 capitals
    U+00C0..U+00DE except the multiplication sign U+00D7. *)
Definition lower_char (c : ascii) : ascii :=
  let n := code c in
  if ((65 <=? n) && (n <=? 90))
     || ((192 <=? n) && (n <=? 222) && negb (n =? 215))
  then ascii_of_nat (n + 32) else c.

Fixpoint lower (s : string) : string :=
  match s with
  | EmptyString => EmptyString
  | String c s' => String (lower_char c) (lower s')
  end.

(** [sep.join(parts)] *)
Fixpoint join (sep : string) (parts : list string) : string :=
  match parts with
  | [] => EmptyString
  | [x] => x
  | x :: rest => x ++ sep ++ join sep rest
  end.

(** One character of [str.isdigit]: 0-9 and the superscripts
    U+00B2, U+00B3, U+00B9. *)
Definition isdigit_char (c : ascii) : bool :=
  let n := code c in
  ((48 <=? n) && (n <=? 57)) || (n =? 178) || (n =? 179) || (n =? 185).

Definition is_decimal_char (c : ascii) : bool :=
  let n := code c in (48 <=? n) && (n <=? 57).

Fixpoint all_chars (f : ascii -> bool) (s : string) : bool :=
  match s with
  | EmptyString => true
  | String c s' => f c && all_chars f s'
  end.

(** [s.isdigit()]: non-empty and every character a digit. *)
Definition isdigit (s : string) : bool := truthy s && all_chars isdigit_char s.

Fixpoint int_go (acc : nat) (s : string) : nat :=
  match s with
  | EmptyString => acc
  | String c s' => int_go (10 * acc + (code c - 48)) s'
  end.

(** [sys.int_max_str_digits]: the most digits [int] converts, as the
    interpreter sets it by default. *)
Definition int_max_str_digits : nat := 4300.

(** [int(s)] for a string that passed [isdigit]: the superscript digits
    are digits for [isdigit] but [int] rejects them with [ValueError], as
    it does a string of more than [int_max_str_digits] digits. *)
Definition int_of_digits (s : string) : option nat :=
  if all_chars is_decimal_char s && (String.length s <=? int_max_str_digits)
  then Some (int_go 0 s)
  else None.

(** [str(n)] for a natural number. *)
Definition str_of_nat (n : nat) : string :=
  NilEmpty.string_of_uint (Nat.to_uint n).

(** Helpers for stating how [split] meets [strip]: a character put in
    front of the first field, a function applied to the first or to the
    last field. *)
Definition cons_head (c : ascii) (fs : list string) : list string :=
  match fs with
  | [] => [String c EmptyString]
  | f :: fs' => String c f :: fs'
  end.

Definition map_head (g : string -> string) (fs : list string) : list string :=
  match fs with
  | [] => []
  | f :: fs' => g f :: fs'
  end.

Fixpoint map_last (g : string -> string) (fs : list string) : list string :=
  match fs with
  | [] => []
  | [f] => [g f]
  | f :: fs' => f :: map_last g fs'
  end.

End Text.

(* ================================================================== *)
(** ** Python floats *)
(* ================================================================== *)

(** A [float] is a binary64 number: 53 bits of mantissa, the infinities
    at exponent 1024, every operation rounded to nearest, ties to even. *)
Module Float.

Definition float : Type := spec_float.
Definition prec : Z := 53.
Definition emax : Z := 1024.

Definition add : float -> float -> float := SFadd prec emax.
Definition mul : float -> float -> float := SFmul prec emax.
Definition div : float -> float -> float := SFdiv prec emax.

(** [a < b] and [a <= b] *)
Definition ltb : float -> float -> bool := SFltb.
Definition leb : float -> float -> bool := SFleb.

(** The conversion of an [int] that is not negative, as it happens when
    an [int] meets a [float] in an operation. *)
Definition of_nat (n : nat) : float :=
  binary_normalize prec emax (Z.of_nat n) 0 false.

(** [a / b] for two [int]s that are not negative.  Below 2^53, which the
    length of a text is, both convert exactly and the quotient is rounded
    once, as Python rounds it. *)
Definition truediv (a b : nat) : float := div (of_nat a) (of_nat b).

(** [min(a, b)]: the second argument if it is smaller, else the first. *)
Definition min (a b : float) : float := if ltb b a then b else a.

(** The literals [0.0], [1.0], [0.1], [0.2] and [0.4]: the binary64
    number nearest to the decimal. *)
Definition f0_0 : float := S754_zero false.
Definition f1_0 : float := Eval vm_compute in of_nat 1.
Definition f0_1 : float := Eval vm_compute in truediv 1 10.
Definition f0_2 : float := Eval vm_compute in truediv 2 10.
Definition f0_4 : float := Eval vm_compute in truediv 4 10.

End Float.

(* ================================================================== *)
(** ** Data, the world, and the effect monad *)
(* ================================================================== *)

Definition bytes := list Byte.byte.

(** A subject-predicate-object dictionary [{"s": .., "p": .., "o": ..}]. *)
Record triple := mkTriple { t_s : string; t_p : string; t_o : string }.

(** A LangChain [Document]: [page_content] plus the metadata keys the
    sources read or write; an absent key is [None]. *)
Record Document := mkDocument {
  page_content : string;
  meta_source : option string;
  meta_page : option nat;
  meta_doc_id : option string;
  meta_image_path : option string;
  meta_type : option string
}.

(** A relationship of the graph store:
    [(s:Entity {name})-[:RELATES_TO {predicate, doc_id}]->(o:Entity {name})]. *)
Record edge := mkEdge {
  e_s : string; e_p : string; e_o : string; e_doc_id : string
}.

Inductive llm_client := Llm | LlmVision | LlmDeterministic.

(** The two instruction texts [_process_pdf_page] sends with an image. *)
Inductive vision_prompt := TranscribePage | DescribeImage.

(** What the program puts into a capability request.  The fixed
    instruction text of each template is not part of the model; the
    interpolated values are. *)
Inductive request :=
| ReqVision (prompt_text : vision_prompt) (img_bytes : bytes)
| ReqTriples (text : string)
| ReqEntities (query : string)
| ReqRelevance (query : string) (triples_text : string)
| ReqAnswer (question history context kg_context answer_lang : string).

(** The Cypher statements of [kg.py], with their parameters. *)
Inductive cypher :=
| CyReturn1
| CyMerge (triples : list triple) (doc_id : string)
| CyMatch (doc_id : option string) (entities : list string).

(** The [print] calls of the modelled functions, with the interpolated
    values. *)
Inductive msg :=
| MsgRateLimit (wait_time : nat)
| MsgErrorAnalyzing (e : string)
| MsgScanned (page : nat)
| MsgProcessing (file_name : string) (total_pages : nat) (deep_ocr : bool)
| MsgProcessingPages (first last : nat)
| MsgSkippingPage (page : nat) (e : string)
| MsgUploadedBatch (batch chunks : nat)
| MsgAddedBatch (batch chunks : nat)
| MsgConnected
| MsgCouldNotConnect (e : string)
| MsgKgDisabled
| MsgKgRateLimit (wait_time : nat)
| MsgErrorExtracting (attempt max_retries : nat) (e : string)
| MsgFailedAfter (max_retries : nat)
| MsgNeo4jSkipping
| MsgBuildingKg (sampled total : nat)
| MsgNoTriples
| MsgUploadedKgBatch (batch triples : nat)
| MsgErrorEntities (e : string)
| MsgErrorFiltering (e : string)
| MsgNeo4jEmpty
| MsgEntities (entities : list string)
| MsgNoEntities
| MsgNoMatching (entities : list string)
| MsgFoundCandidates (n : nat)
| MsgFallbackTop10
| MsgFoundRelevant (n total : nat).

(** Everything the program does to the outside, in order. *)
Inductive event :=
| EvPrint (m : msg)
| EvSleep (seconds : nat)
| EvInvoke (client : llm_client) (req : request)
| EvOpen
| EvClose
| EvWriteFile (path : string) (data : bytes)
| EvProgress (current_page total_pages : nat)
| EvSplit (docs : list Document)
| EvPGVector
| EvAddDocuments (batch : list Document)
| EvDriver
| EvRun (q : cypher).

Inductive driver := Neo4jDriver.

(** The outcome of one capability call: the response content, or an
    exception with its [str(e)]. *)
Inductive outcome := Ok (content : string) | Err (e : string).

(** The outside world as the program meets it.  External calls are
    numbered in the order the program makes them ([calls] of the world):
    [llm_reply k] answers call [k] when it is a capability invocation,
    [fault k] makes call [k] raise when it is any other external call.
    [split_documents] is the text splitter of [ingest_pdf]. *)
Record Env := mkEnv {
  llm_reply : nat -> outcome;
  fault : nat -> option string;
  split_documents : list Document -> list Document
}.

Record World := mkWorld {
  trace : list event;          (* oldest first *)
  calls : nat;                 (* external calls made so far *)
  kg_driver : option driver;   (* the module global [kg._driver] *)
  graph : list edge;           (* relationships held by the graph store *)
  open_handles : nat           (* document handles opened and not closed *)
}.

Inductive result (A : Type) :=
| Ret (a : A)
| Raise (e : string).
Arguments Ret {A} a.
Arguments Raise {A} e.

Definition M (A : Type) : Type := World -> result A * World.

Definition ret {A} (a : A) : M A := fun w => (Ret a, w).

Definition raise {A} (e : string) : M A := fun w => (Raise e, w).

Definition bind {A B} (m : M A) (k : A -> M B) : M B :=
  fun w => match m w with
           | (Ret a, w') => k a w'
           | (Raise e, w') => (Raise e, w')
           end.

(** [try: m  except Exception as e: h e] *)
Definition try_catch {A} (m : M A) (h : string -> M A) : M A :=
  fun w => match m w with
           | (Ret a, w') => (Ret a, w')
           | (Raise e, w') => h e w'
           end.

Declare Scope monad_scope.
Delimit Scope monad_scope with monad.
Notation "x <- m ;; k" := (bind m (fun x => k))
  (at level 61, m at next level, right associativity) : monad_scope.
Notation "m ;; k" := (bind m (fun _ => k))
  (at level 61, right associativity) : monad_scope.
Open Scope monad_scope.

Definition log (ev : event) : M unit :=
  fun w => (Ret tt, mkWorld (trace w ++ [ev]) (calls w) (kg_driver w)
                            (graph w) (open_handles w)).

Definition tick : M nat :=
  fun w => (Ret (calls w), mkWorld (trace w) (S (calls w)) (kg_driver w)
                                   (graph w) (open_handles w)).

Definition get_kg_driver : M (option driver) := fun w => (Ret (kg_driver w), w).

Definition set_kg_driver (d : option driver) : M unit :=
  fun w => (Ret tt, mkWorld (trace w) (calls w) d (graph w) (open_handles w)).

Definition get_graph : M (list edge) := fun w => (Ret (graph w), w).

Definition set_graph (g : list edge) : M unit :=
  fun w => (Ret tt, mkWorld (trace w) (calls w) (kg_driver w) g (open_handles w)).

Definition set_open_handles (f : nat -> nat) : M unit :=
  fun w => (Ret tt, mkWorld (trace w) (calls w) (kg_driver w) (graph w)
                            (f (open_handles w))).

Definition print (m : msg) : M unit := log (EvPrint m).

(** [time.sleep(seconds)] *)
Definition sleep (seconds : nat) : M unit := log (EvSleep seconds).

(** The result of a loop body: leave the function with a value, or go on
    with the next iteration. *)
Inductive flow (A : Type) :=
| Return (a : A)
| Continue.
Arguments Return {A} a.
Arguments Continue {A}.

Section Program.

Variable env : Env.

(** [client.invoke(...)] followed by reading [response.content]. *)
Definition invoke (client : llm_client) (req : request) : M string :=
  log (EvInvoke client req) ;;
  k <- tick ;;
  match llm_reply env k with
  | Ok content => ret content
  | Err e => raise e
  end.

(** An external call other than a capability invocation. *)
Definition external (ev : event) : M unit :=
  log ev ;;
  k <- tick ;;
  match fault env k with
  | Some e => raise e
  | None => ret tt
  end.

End Program.

(** [range(start, stop, step)] for [step > 0]. *)
Definition range_step (start stop step : nat) : list nat :=
  map (fun k => start + k * step) (seq 0 ((stop - start + (step - 1)) / step)).

(** [xs[i : i + n]] *)
Definition slice {A} (xs : list A) (i n : nat) : list A := firstn n (skipn i xs).

(** [xs[::2]] *)
Fixpoint every_second {A} (xs : list A) : list A :=
  match xs with
  | [] => []
  | x :: rest =>
      x :: match rest with
           | [] => []
           | _ :: rest' => every_second rest'
           end
  end.

(* ================================================================== *)
(** ** [src/src/kg.py] *)
(* ================================================================== *)

Module Kg.
Section WithEnv.

Variable env : Env.

(** [get_driver]: connect on first use and keep the driver in the
    global; a failed connection leaves the global [None]. *)
Definition get_driver : M (option driver) :=
  d <- get_kg_driver ;;
  match d with
  | None =>
      try_catch
        (external env EvDriver ;;
         set_kg_driver (Some Neo4jDriver) ;;
         external env (EvRun CyReturn1) ;;
         print MsgConnected)
        (fun e =>
           print (MsgCouldNotConnect e) ;;
           print MsgKgDisabled ;;
           set_kg_driver None)
  | Some _ => ret tt
  end ;;
  get_kg_driver.

Definition max_retries : nat := 12.

(** ["429" in err_str or "rate_limit" in err_str] for
    [err_str = str(e).lower()]. *)
Definition is_rate_limit (e : string) : bool :=
  let err_str := Text.lower e in
  Text.contains "429" err_str || Text.contains "rate_limit" err_str.

(** The body of [for line in content.splitlines()] in
    [extract_triples_from_text], with [triples] the list built so far. *)
Fixpoint parse_lines (lines : list string) (triples : list triple)
  : list triple :=
  match lines with
  | [] => triples
  | line :: rest =>
      let line := Text.strip line in
      if Text.is_empty line || negb (Text.contains "|" line)
      then parse_lines rest triples
      else
        let parts := map Text.strip (Text.split "|" line) in
        if negb (List.length parts =? 3) then parse_lines rest triples
        else
          match parts with
          | [s; p; o] =>
              if Text.truthy s && Text.truthy p && Text.truthy o
              then parse_lines rest (triples ++ [mkTriple s p o])
              else parse_lines rest triples
          | _ => parse_lines rest triples
          end
  end.

(** What [extract_triples_from_text] makes of a response whose
    [content] is [raw]. *)
Definition parse_response (raw : string) : list triple :=
  let content := Text.strip raw in
  parse_lines (Text.splitlines content) [].

(** One iteration of [for attempt in range(max_retries)]. *)
Definition extract_attempt (text : string) (attempt : nat)
  : M (flow (list triple)) :=
  try_catch
    (response <- invoke env Llm (ReqTriples text) ;;
     ret (Return (parse_response response)))
    (fun e =>
       if is_rate_limit e && (attempt <? max_retries - 1)
       then
         let wait_time := 2 ^ attempt + 2 in
         print (MsgKgRateLimit wait_time) ;;
         sleep wait_time ;;
         ret Continue
       else
         print (MsgErrorExtracting (attempt + 1) max_retries e) ;;
         (if attempt =? max_retries - 1
          then print (MsgFailedAfter max_retries)
          else ret tt) ;;
         ret (Return [])).

Fixpoint extract_loop (text : string) (attempts : list nat)
  : M (list triple) :=
  match attempts with
  | [] => ret []
  | attempt :: rest =>
      r <- extract_attempt text attempt ;;
      match r with
      | Return triples => ret triples
      | Continue => extract_loop text rest
      end
  end.

Definition extract_triples_from_text (text : string) : M (list triple) :=
  if negb (Text.truthy (Text.strip text)) then ret []
  else extract_loop text (seq 0 max_retries).

(** [MERGE] of one triple: the relationship is created unless one with
    the same end points, predicate and document id exists. *)
Definition edge_eqb (a b : edge) : bool :=
  String.eqb (e_s a) (e_s b) && String.eqb (e_p a) (e_p b)
  && String.eqb (e_o a) (e_o b) && String.eqb (e_doc_id a) (e_doc_id b).

Definition merge_edge (g : list edge) (t : triple) (doc_id : string)
  : list edge :=
  let e := mkEdge (t_s t) (t_p t) (t_o t) doc_id in
  if existsb (edge_eqb e) g then g else g ++ [e].

Definition merge_batch (g : list edge) (batch : list triple)
  (doc_id : string) : list edge :=
  fold_left (fun g t => merge_edge g t doc_id) batch g.

(** [session.run(cypher, triples=batch, doc_id=doc_id)] *)
Definition run_merge (batch : list triple) (doc_id : string) : M unit :=
  external env (EvRun (CyMerge batch doc_id)) ;;
  g <- get_graph ;;
  set_graph (merge_batch g batch doc_id).

Definition BATCH_SIZE : nat := 500.

(** [for ch in chunks_to_process] *)
Fixpoint collect_triples (chunks_to_process : list Document)
  (all_triples : list triple) : M (list triple) :=
  match chunks_to_process with
  | [] => ret all_triples
  | ch :: rest =>
      let text := page_content ch in
      if String.length text <? 100 then collect_triples rest all_triples
      else
        triples <- extract_triples_from_text text ;;
        sleep 1 ;;
        collect_triples rest (all_triples ++ triples)
  end.

(** [for i in range(0, len(all_triples), BATCH_SIZE)] *)
Fixpoint upload_batches (all_triples : list triple) (doc_id : string)
  (starts : list nat) : M unit :=
  match starts with
  | [] => ret tt
  | i :: rest =>
      let batch := slice all_triples i BATCH_SIZE in
      run_merge batch doc_id ;;
      print (MsgUploadedKgBatch (i / BATCH_SIZE + 1) (List.length batch)) ;;
      upload_batches all_triples doc_id rest
  end.

Definition upsert_kg_from_chunks (chunks : list Document) (doc_id : string)
  : M unit :=
  driver <- get_driver ;;
  match driver with
  | None => print MsgNeo4jSkipping
  | Some _ =>
      let chunks_to_process := every_second chunks in
      print (MsgBuildingKg (List.length chunks_to_process) (List.length chunks)) ;;
      all_triples <- collect_triples chunks_to_process [] ;;
      match all_triples with
      | [] => print MsgNoTriples
      | _ :: _ =>
          upload_batches all_triples doc_id
            (range_step 0 (List.length all_triples) BATCH_SIZE)
      end
  end.

(** [extract_entities_from_query] *)
Definition extract_entities_from_query (query : string) : M (list string) :=
  if negb (Text.truthy (Text.strip query)) then ret []
  else
    try_catch
      (response <- invoke env LlmDeterministic (ReqEntities query) ;;
       let content := Text.strip response in
       if negb (Text.truthy content) then ret []
       else
         let entities :=
           map Text.strip
               (filter (fun e => Text.truthy (Text.strip e))
                       (Text.split "|" content)) in
         ret entities)
      (fun e => print (MsgErrorEntities e) ;; ret []).

(** [triples_text += f"{i}: {t['s']} | {t['p']} | {t['o']}\n"] over
    [enumerate(triples)], counting from [i]. *)
Fixpoint format_triples (i : nat) (triples : list triple) : string :=
  match triples with
  | [] => EmptyString
  | t :: rest =>
      (Text.str_of_nat i ++ ": " ++ t_s t ++ " | " ++ t_p t ++ " | "
       ++ t_o t ++ String "010" EmptyString)
      ++ format_triples (S i) rest
  end.

(** The text of the [ValueError] of [int(part)]. *)
Definition int_error (part : string) : string :=
  if Text.all_chars Text.is_decimal_char part
  then "Exceeds the limit (4300 digits) for integer string conversion: "
       ++ "value has " ++ Text.str_of_nat (String.length part)
       ++ " digits; use sys.set_int_max_str_digits() to increase the limit"
  else "invalid literal for int() with base 10: '" ++ part ++ "'".

(** [for part in content.split(",")]: [int(part)] raises [ValueError]
    on a part that [isdigit] accepts and [int] does not. *)
Fixpoint parse_indices (parts : list string) (indices : list nat)
  : M (list nat) :=
  match parts with
  | [] => ret indices
  | part :: rest =>
      let part := Text.strip part in
      if Text.isdigit part then
        match Text.int_of_digits part with
        | Some n => parse_indices rest (indices ++ [n])
        | None => raise (int_error part)
        end
      else parse_indices rest indices
  end.

(** [[triples[i] for i in indices if i < len(triples)]] *)
Fixpoint select_indices (triples : list triple) (indices : list nat)
  : list triple :=
  match indices with
  | [] => []
  | i :: rest =>
      match nth_error triples i with
      | Some t => t :: select_indices triples rest
      | None => select_indices triples rest
      end
  end.

Definition filter_relevant_triples (query : string) (triples : list triple)
  : M (list triple) :=
  match triples with
  | [] => ret []
  | _ :: _ =>
      let triples_text := format_triples 0 triples in
      try_catch
        (response <- invoke env LlmDeterministic
                            (ReqRelevance query triples_text) ;;
         let content := Text.strip response in
         if Text.contains "NONE" content then ret []
         else
           indices <- parse_indices (Text.split "," content) [] ;;
           let filtered := select_indices triples indices in
           ret filtered)
        (fun e => print (MsgErrorFiltering e) ;; ret triples)
  end.

(** [any(e IN $entities WHERE toLower(name) CONTAINS toLower(e))] *)
Definition name_matches (entities : list string) (name : string) : bool :=
  existsb (fun e => Text.contains (Text.lower e) (Text.lower name)) entities.

(** The rows of the [MATCH ... RETURN s.name AS s, r.predicate AS p,
    o.name AS o LIMIT 50] statements, in the order the store holds the
    relationships. *)
Definition match_rows (g : list edge) (doc_id : option string)
  (entities : list string) : list triple :=
  firstn 50
    (map (fun e => mkTriple (e_s e) (e_p e) (e_o e))
       (filter
          (fun e =>
             match doc_id with
             | Some d => String.eqb (e_doc_id e) d
             | None => true
             end
             && (name_matches entities (e_s e)
                 || name_matches entities (e_o e)))
          g)).

(** [session.run(cypher, **params)] and [[r.data() for r in result]] *)
Definition run_match (doc_id : option string) (entities : list string)
  : M (list triple) :=
  external env (EvRun (CyMatch doc_id entities)) ;;
  g <- get_graph ;;
  ret (match_rows g doc_id entities).

(** [if doc_id:] on an [Optional[str]] *)
Definition doc_filter (doc_id : option string) : option string :=
  match doc_id with
  | Some d => if Text.truthy d then Some d else None
  | None => None
  end.

Definition query_kg_for_query (query : string) (doc_id : option string)
  : M (list triple) :=
  driver <- get_driver ;;
  match driver with
  | None => print MsgNeo4jEmpty ;; ret []
  | Some _ =>
      entities <- extract_entities_from_query query ;;
      print (MsgEntities entities) ;;
      match entities with
      | [] => print MsgNoEntities ;; ret []
      | _ :: _ =>
          rows <- run_match (doc_filter doc_id) entities ;;
          match rows with
          | [] => print (MsgNoMatching entities) ;; ret []
          | _ :: _ =>
              print (MsgFoundCandidates (List.length rows)) ;;
              relevant_rows <- filter_relevant_triples query rows ;;
              match relevant_rows with
              | [] => print MsgFallbackTop10 ;; ret (firstn 10 rows)
              | _ :: _ =>
                  print (MsgFoundRelevant (List.length relevant_rows)
                                          (List.length rows)) ;;
                  ret relevant_rows
              end
          end
      end
  end.

End WithEnv.
End Kg.

(* ================================================================== *)
(** ** [src/src/vector_store.py] *)
(* ================================================================== *)

Module VectorStore.
Section WithEnv.

Variable env : Env.

Definition batch_size : nat := 100.

(** [for i in range(0, len(chunks), batch_size)] *)
Fixpoint add_batches (chunks : list Document) (starts : list nat) : M unit :=
  match starts with
  | [] => ret tt
  | i :: rest =>
      let batch := slice chunks i batch_size in
      external env (EvAddDocuments batch) ;;
      print (MsgAddedBatch (i / batch_size + 1) (List.length batch)) ;;
      add_batches chunks rest
  end.

(** [add_chunks]; [get_vector_store()] builds the [PGVector] client. *)
Definition add_chunks (chunks : list Document) : M unit :=
  external env EvPGVector ;;
  add_batches chunks (range_step 0 (List.length chunks) batch_size).

End WithEnv.
End VectorStore.

(* ================================================================== *)
(** ** [src/src/ingest.py] *)
(* ================================================================== *)

(** What the PDF library hands out: a value, or an exception raised by the
    call that should have produced it. *)
Inductive fetched (A : Type) :=
| Fetched (a : A)
| Broken (e : string).
Arguments Fetched {A} a.
Arguments Broken {A} e.

(** [doc_pdf.extract_image(xref)]: the keys ["image"] and ["ext"]. *)
Record base_image := mkBaseImage { image : bytes; ext : string }.

(** A page: [get_text()], [get_pixmap().tobytes("png")],
    [get_images(full=True)] and, for each of its entries, what
    [extract_image] yields.  The text is there once the page is loaded;
    the rendering and the image calls may raise. *)
Record Page := mkPage {
  get_text : string;
  get_pixmap : fetched bytes;
  get_images : fetched (list (fetched base_image))
}.

(** An open document: what [load_page(i)] yields for each page index. *)
Definition pdf_document := list (fetched Page).

Module Ingest.
Section WithEnv.

Variable env : Env.

Definition STATIC_IMG_DIR : string := "static/images".

Definition max_retries : nat := 12.

Definition is_rate_limit (e : string) : bool :=
  let err_str := Text.lower e in
  Text.contains "429" err_str || Text.contains "rate_limit" err_str.

(** One iteration of [for attempt in range(max_retries)] in
    [_analyze_image_with_gpt]. *)
Definition analyze_attempt (img_bytes : bytes) (prompt_text : vision_prompt)
  (attempt : nat) : M (flow string) :=
  try_catch
    (response <- invoke env LlmVision (ReqVision prompt_text img_bytes) ;;
     ret (Return (Text.strip response)))
    (fun e =>
       if is_rate_limit e && (attempt <? max_retries - 1)
       then
         let wait_time := 2 ^ attempt + 2 in
         print (MsgRateLimit wait_time) ;;
         sleep wait_time ;;
         ret Continue
       else raise e).

(** The loop; running off its end leaves the function without a
    [return], i.e. with [None], which every caller treats like the empty
    string. *)
Fixpoint analyze_loop (img_bytes : bytes) (prompt_text : vision_prompt)
  (attempts : list nat) : M string :=
  match attempts with
  | [] => ret EmptyString
  | attempt :: rest =>
      r <- analyze_attempt img_bytes prompt_text attempt ;;
      match r with
      | Return description => ret description
      | Continue => analyze_loop img_bytes prompt_text rest
      end
  end.

Definition _analyze_image_with_gpt (img_bytes : bytes)
  (prompt_text : vision_prompt) : M string :=
  try_catch
    (analyze_loop img_bytes prompt_text (seq 0 max_retries))
    (fun e => print (MsgErrorAnalyzing e) ;; ret EmptyString).

Definition fetch {A} (x : fetched A) : M A :=
  match x with
  | Fetched a => ret a
  | Broken e => raise e
  end.

(** [doc_pdf.load_page(page_num)] *)
Definition load_page (doc_pdf : pdf_document) (page_num : nat) : M Page :=
  match nth_error doc_pdf page_num with
  | Some p => fetch p
  | None => raise "page not in document"
  end.

(** [os.path.join(STATIC_IMG_DIR, image_filename)] on a POSIX system. *)
Definition path_join (dir name : string) : string :=
  if String.prefix "/" name then name else dir ++ "/" ++ name.

(** [for img_index, img in enumerate(image_list)], counting from
    [img_index]; [open(image_path, "wb")] and the write are one external
    call, which may raise. *)
Fixpoint extract_images (images : list (fetched base_image))
  (img_index : nat) (page_num : nat) (doc_id file_name : string)
  (docs : list Document) : M (list Document) :=
  match images with
  | [] => ret docs
  | img :: rest =>
      base <- fetch img ;;
      let image_bytes := image base in
      if List.length image_bytes <? 10000
      then extract_images rest (S img_index) page_num doc_id file_name docs
      else
        let image_filename :=
          doc_id ++ "_p" ++ Text.str_of_nat (page_num + 1) ++ "_i"
          ++ Text.str_of_nat img_index ++ "." ++ ext base in
        let image_path := path_join STATIC_IMG_DIR image_filename in
        external env (EvWriteFile image_path image_bytes) ;;
        description <- _analyze_image_with_gpt image_bytes DescribeImage ;;
        let docs :=
          if Text.truthy description
          then (docs ++ [mkDocument ("Image Description: " ++ description)
                                    (Some file_name) (Some (page_num + 1))
                                    (Some doc_id) (Some image_path)
                                    (Some "image")])%list
          else docs in
        extract_images rest (S img_index) page_num doc_id file_name docs
  end.

Definition _process_pdf_page (doc_pdf : pdf_document) (page_num : nat)
  (doc_id file_name : string) (deep_ocr : bool) : M (list Document) :=
  page <- load_page doc_pdf page_num ;;
  let docs := [] in
  let text := get_text page in
  text <- (if (String.length (Text.strip text) <? 50) && deep_ocr
           then
             print (MsgScanned (page_num + 1)) ;;
             img_bytes <- fetch (get_pixmap page) ;;
             ocr_text <- _analyze_image_with_gpt img_bytes TranscribePage ;;
             ret (if Text.truthy ocr_text then ocr_text else text)
           else ret text) ;;
  let docs :=
    if Text.truthy (Text.strip text)
    then (docs ++ [mkDocument text (Some file_name) (Some (page_num + 1))
                              (Some doc_id) None (Some "text")])%list
    else docs in
  if deep_ocr
  then
    image_list <- fetch (get_images page) ;;
    extract_images image_list 0 page_num doc_id file_name docs
  else ret docs.

(** The caller's progress function. *)
Inductive callback := ProgressFn.

Definition BATCH_SIZE : nat := 50.

(** [fitz.open(stream=file_bytes, filetype="pdf")] *)
Definition fitz_open (file_bytes : fetched pdf_document) : M pdf_document :=
  doc_pdf <- fetch file_bytes ;;
  log EvOpen ;;
  set_open_handles S ;;
  ret doc_pdf.

(** [doc_pdf.close()] *)
Definition close : M unit :=
  log EvClose ;;
  set_open_handles pred.

(** The body of [for i in range(batch_start, batch_end)].
    [batch_docs.extend] mutates the list, so the extension stays when the
    callback raises later in the same [try]. *)
Definition ingest_page (doc_pdf : pdf_document) (total_pages : nat)
  (doc_id file_name : string) (deep_ocr : bool)
  (progress_callback : option callback) (i : nat)
  (batch_docs : list Document) : M (list Document) :=
  try_catch
    (page_docs <- _process_pdf_page doc_pdf i doc_id file_name deep_ocr ;;
     let batch_docs := (batch_docs ++ page_docs)%list in
     try_catch
       (match progress_callback with
        | Some _ => external env (EvProgress (i + 1) total_pages)
        | None => ret tt
        end ;;
        (if deep_ocr then sleep 3 else ret tt) ;;
        ret batch_docs)
       (fun e => print (MsgSkippingPage (i + 1) e) ;; ret batch_docs))
    (fun e => print (MsgSkippingPage (i + 1) e) ;; ret batch_docs).

Fixpoint ingest_pages (doc_pdf : pdf_document) (total_pages : nat)
  (doc_id file_name : string) (deep_ocr : bool)
  (progress_callback : option callback) (pages : list nat)
  (batch_docs : list Document) : M (list Document) :=
  match pages with
  | [] => ret batch_docs
  | i :: rest =>
      batch_docs <- ingest_page doc_pdf total_pages doc_id file_name
                                deep_ocr progress_callback i batch_docs ;;
      ingest_pages doc_pdf total_pages doc_id file_name deep_ocr
                   progress_callback rest batch_docs
  end.

(** The body of [for batch_start in range(0, total_pages, BATCH_SIZE)]. *)
Definition ingest_batch (doc_pdf : pdf_document) (total_pages : nat)
  (doc_id file_name : string) (deep_ocr : bool)
  (progress_callback : option callback) (batch_start : nat) : M unit :=
  let batch_end := Nat.min (batch_start + BATCH_SIZE) total_pages in
  print (MsgProcessingPages (batch_start + 1) batch_end) ;;
  batch_docs <- ingest_pages doc_pdf total_pages doc_id file_name deep_ocr
                  progress_callback
                  (seq batch_start (batch_end - batch_start)) [] ;;
  match batch_docs with
  | [] => ret tt
  | _ :: _ =>
      external env (EvSplit batch_docs) ;;
      let chunks := split_documents env batch_docs in
      VectorStore.add_chunks env chunks ;;
      Kg.upsert_kg_from_chunks env chunks doc_id ;;
      print (MsgUploadedBatch (batch_start / BATCH_SIZE + 1)
                              (List.length chunks))
  end.

Fixpoint ingest_batches (doc_pdf : pdf_document) (total_pages : nat)
  (doc_id file_name : string) (deep_ocr : bool)
  (progress_callback : option callback) (starts : list nat) : M unit :=
  match starts with
  | [] => ret tt
  | batch_start :: rest =>
      ingest_batch doc_pdf total_pages doc_id file_name deep_ocr
                   progress_callback batch_start ;;
      ingest_batches doc_pdf total_pages doc_id file_name deep_ocr
                     progress_callback rest
  end.

Definition ingest_pdf (file_bytes : fetched pdf_document)
  (file_name doc_id : string) (deep_ocr : bool)
  (progress_callback : option callback) : M string :=
  doc_pdf <- fitz_open file_bytes ;;
  let total_pages := List.length doc_pdf in
  print (MsgProcessing file_name total_pages deep_ocr) ;;
  ingest_batches doc_pdf total_pages doc_id file_name deep_ocr
                 progress_callback (range_step 0 total_pages BATCH_SIZE) ;;
  close ;;
  ret doc_id.

End WithEnv.
End Ingest.

(* ================================================================== *)
(** ** [src/src/rag_chain.py] *)
(* ================================================================== *)

(** The [kg_context] argument: a string or a list of triple
    dictionaries (a missing key reads as the empty string). *)
Inductive kg_input :=
| KgText (text : string)
| KgList (triples : list triple).

Module RagChain.
Section WithEnv.

Variable env : Env.

Definition format_docs (docs : list Document) : string :=
  let parts :=
    map (fun d =>
           let source_type :=
             match meta_type d with Some t => t | None => "text" end in
           let prefix :=
             match meta_page d with
             | Some page =>
                 "[page " ++ Text.str_of_nat page ++ " (" ++ source_type
                 ++ ")] "
             | None => EmptyString
             end in
           prefix ++ Text.strip (page_content d))
        docs in
  Text.join (String "010" (String "010" EmptyString)) parts.

(** [for triple in kg_context] *)
Fixpoint kg_lines (kg_context : list triple) (lines : list string)
  : list string :=
  match kg_context with
  | [] => lines
  | tr :: rest =>
      let s := t_s tr in
      let p := t_p tr in
      let o := t_o tr in
      if Text.truthy s && Text.truthy p && Text.truthy o
      then kg_lines rest
             (lines ++ [(s ++ " | " ++ p ++ " | " ++ o)%string])%list
      else kg_lines rest lines
  end.

Definition format_kg (kg_context : kg_input) : string :=
  match kg_context with
  | KgList triples => Text.join (String "010" EmptyString) (kg_lines triples [])
  | KgText text => text
  end.

Definition NO_INFORMATION : string :=
  "I don't have enough information from the book to answer this. "
  ++ "Please make sure you've uploaded and indexed a document first.".

Definition UNRELATED : string :=
  "The question doesn't seem to match the content in this document. "
  ++ "I can only answer questions about the uploaded book.".

Definition refusal_phrases : list string :=
  ["not related to"; "don't know based on"; "cannot answer";
   "not in the document"; "no information about"].

(** [any(phrase in lower_answer for phrase in [...])] *)
Definition is_refusal (answer : string) : bool :=
  let lower_answer := Text.lower answer in
  existsb (fun phrase => Text.contains phrase lower_answer) refusal_phrases.

(** [min(1.0, 0.4 + 0.1 * len(docs) + (len(context_str) / 5000))] *)
Definition score (docs : list Document) (context_str : string) : Float.float :=
  Float.min Float.f1_0
    (Float.add
       (Float.add Float.f0_4
                  (Float.mul Float.f0_1 (Float.of_nat (List.length docs))))
       (Float.truediv (String.length context_str) 5000)).

(** [image_paths.add(path)] on a set kept as a list without repeats. *)
Definition set_add (path : string) (paths : list string) : list string :=
  if existsb (String.eqb path) paths then paths else (paths ++ [path])%list.

(** [for d in docs] collecting [image_paths] *)
Fixpoint collect_image_paths (docs : list Document) (image_paths : list string)
  : list string :=
  match docs with
  | [] => image_paths
  | d :: rest =>
      match meta_type d with
      | Some t =>
          if String.eqb t "image" then
            match meta_image_path d with
            | Some path =>
                if Text.truthy path
                then collect_image_paths rest (set_add path image_paths)
                else collect_image_paths rest image_paths
            | None => collect_image_paths rest image_paths
            end
          else collect_image_paths rest image_paths
      | None => collect_image_paths rest image_paths
      end
  end.

(** [x or default] on strings *)
Definition or_default (x default : string) : string :=
  if Text.truthy x then x else default.

Definition generate_answer_with_validation (question history : string)
  (docs : list Document) (kg_context : kg_input) (answer_lang : string)
  : M (string * Float.float * list string) :=
  let context_str := format_docs docs in
  let kg_context_str := format_kg kg_context in
  if negb (Text.truthy (Text.strip context_str))
     && negb (Text.truthy (Text.strip kg_context_str))
  then ret (NO_INFORMATION, Float.f0_0, [])
  else if (String.length (Text.strip context_str) <? 50)
          && negb (Text.truthy (Text.strip kg_context_str))
  then ret (UNRELATED, Float.f0_1, [])
  else
    response <- invoke env Llm
                  (ReqAnswer question
                     (or_default history "(no previous conversation)")
                     context_str
                     (or_default kg_context_str "(no KG facts)")
                     answer_lang) ;;
    let answer := Text.strip response in
    let confidence :=
      if is_refusal answer then Float.f0_2 else score docs context_str in
    let image_paths := collect_image_paths docs [] in
    ret (answer, confidence, image_paths).

End WithEnv.
End RagChain.

(* ================================================================== *)
(** ** Definitions used to state the properties *)
(* ================================================================== *)

(** One line of model output read as the format
    [subject | predicate | object] asks: split at the pipes, exactly three
    fields, none of them empty after trimming. *)
Definition line_triples (line : string) : list triple :=
  match Text.split "|" line with
  | [a; b; c] =>
      if Text.truthy (Text.strip a) && Text.truthy (Text.strip b)
         && Text.truthy (Text.strip c)
      then [mkTriple (Text.strip a) (Text.strip b) (Text.strip c)]
      else []
  | _ => []
  end.

(** The events a computation adds to the trace. *)
Definition sleeps (tr : list event) : list nat :=
  flat_map (fun ev => match ev with EvSleep n => [n] | _ => [] end) tr.

Definition invocations (tr : list event) : list (llm_client * request) :=
  flat_map (fun ev => match ev with EvInvoke c r => [(c, r)] | _ => [] end) tr.

Definition prints (tr : list event) : list msg :=
  flat_map (fun ev => match ev with EvPrint m => [m] | _ => [] end) tr.

Definition progress_calls (tr : list event) : list (nat * nat) :=
  flat_map (fun ev => match ev with EvProgress c t => [(c, t)] | _ => [] end) tr.

Definition merges (tr : list event) : list (list triple * string) :=
  flat_map (fun ev => match ev with
                      | EvRun (CyMerge b d) => [(b, d)]
                      | _ => []
                      end) tr.

Definition graph_reads (tr : list event) : list cypher :=
  flat_map (fun ev => match ev with
                      | EvRun (CyMatch d es) => [CyMatch d es]
                      | _ => []
                      end) tr.

Definition run {A} (m : M A) (w : World) : result A := fst (m w).
Definition after {A} (m : M A) (w : World) : World := snd (m w).

(** The events [m] appends when run from [w]. *)
Definition emitted {A} (m : M A) (w : World) : list event :=
  skipn (List.length (trace w)) (trace (after m w)).

(** The world [w] after [k] more external calls that left [evs] in the
    trace and changed nothing else. *)
Definition extend (w : World) (evs : list event) (k : nat) : World :=
  mkWorld (trace w ++ evs) (k + calls w) (kg_driver w) (graph w)
          (open_handles w).

(** The [n] external calls starting with call number [k] are capability
    calls that raise an error carrying a rate-limit marker. *)
Definition throttled (env : Env) (k n : nat) : Prop :=
  forall i, i < n ->
    exists e, llm_reply env (k + i) = Err e /\ Kg.is_rate_limit e = true.

(** The delay before the retry that follows attempt number [attempt]. *)
Definition backoff (attempt : nat) : nat := 2 ^ attempt + 2.

(** What [n] throttled attempts, the first numbered [a], leave in the
    trace: the call [inv], the notice [say], and the wait. *)
Definition backoff_events (inv : event) (say : nat -> msg) (a n : nat)
  : list event :=
  flat_map (fun i => [inv; EvPrint (say (backoff i)); EvSleep (backoff i)])
           (seq a n).

(** Running [m] from [w] ends with [r], after the waits [waits] (in
    seconds, in order) and [attempts] capability invocations. *)
Definition outcome_is {A} (m : M A) (w : World) (r : result A)
  (waits : list nat) (attempts : nat) : Prop :=
  run m w = r
  /\ sleeps (emitted m w) = waits
  /\ List.length (invocations (emitted m w)) = attempts.

(** No external call other than a capability invocation fails. *)
Definition no_faults (env : Env) : Prop := forall k, fault env k = None.

(** A computation that only adds events accepted by [f] to the trace and
    leaves the count of open document handles alone; with
    [may_raise = false] it also always returns. *)
Definition behaves (f : event -> bool) (may_raise : bool) {A} (m : M A)
  : Prop :=
  forall w,
    (exists evs, trace (after m w) = (trace w ++ evs)%list
                 /\ forallb f evs = true)
    /\ open_handles (after m w) = open_handles w
    /\ (may_raise = false -> exists a, run m w = Ret a).

(** Prints and sleeps are accepted by [f]. *)
Definition allows_logging (f : event -> bool) : Prop :=
  (forall m, f (EvPrint m) = true) /\ (forall n, f (EvSleep n) = true).

(** The graph store cannot be reached from [w]: no driver is held yet and
    the connection attempt fails, either when the driver is created or at
    the [RETURN 1] round trip that follows. *)
Definition unreachable (env : Env) (w : World) : Prop :=
  kg_driver w = None
  /\ ((exists e, fault env (calls w) = Some e)
      \/ (fault env (calls w) = None
          /\ exists e, fault env (S (calls w)) = Some e)).

(** A chunk that [upsert_kg_from_chunks] does not skip for being short. *)
Definition long_enough (ch : Document) : bool :=
  negb (String.length (page_content ch) <? 100).

(** The chunks triples are extracted from: every second chunk, the short
    ones left out. *)
Definition picked (chunks : list Document) : list Document :=
  filter long_enough (every_second chunks).

(** Extraction from each text in turn, with the pause that follows each,
    the triples put together in order. *)
Fixpoint extract_each (env : Env) (texts : list string) : M (list triple) :=
  match texts with
  | [] => ret []
  | text :: rest =>
      triples <- Kg.extract_triples_from_text env text ;;
      sleep 1 ;;
      more <- extract_each env rest ;;
      ret (triples ++ more)%list
  end.

(** [xs] cut into consecutive batches of [n]. *)
Definition batches {A} (n : nat) (xs : list A) : list (list A) :=
  map (fun i => slice xs i n) (range_step 0 (List.length xs) n).

(** A computation that leaves the projection [proj] of the world alone. *)
Definition keeps {X} (proj : World -> X) {A} (m : M A) : Prop :=
  forall w, proj (after m w) = proj w.

(** Events that are not a write to the graph. *)
Definition not_merge (ev : event) : bool :=
  match ev with
  | EvRun (CyMerge _ _) => false
  | _ => true
  end.

(** Events that are not a capability invocation, except the triple
    extraction request for one of [texts]. *)
Definition only_extracting (texts : list string) (ev : event) : bool :=
  match ev with
  | EvInvoke Llm (ReqTriples t) => existsb (String.eqb t) texts
  | EvInvoke _ _ => false
  | _ => true
  end.

(** Events of the extraction and of the downstream steps: anything but a
    progress report and the opening or closing of the document handle. *)
Definition quiet_step (ev : event) : bool :=
  match ev with
  | EvProgress _ _ | EvOpen | EvClose => false
  | _ => true
  end.

(** Openings and closings of the document handle, in order. *)
Definition handle_events (tr : list event) : list event :=
  filter (fun ev => match ev with EvOpen | EvClose => true | _ => false end) tr.

Definition fetched_ok {A} (x : fetched A) : bool :=
  match x with Fetched _ => true | Broken _ => false end.

(** The document gives the extraction of a page what it asks for: the
    page loads and, under deep extraction, it can be rendered if its text
    is sparse, its images can be listed and each of them extracted. *)
Definition extractable (deep_ocr : bool) (p : fetched Page) : bool :=
  match p with
  | Broken _ => false
  | Fetched page =>
      if deep_ocr
      then (if String.length (Text.strip (get_text page)) <? 50
            then fetched_ok (get_pixmap page) else true)
           && match get_images page with
              | Fetched images => forallb fetched_ok images
              | Broken _ => false
              end
      else true
  end.

Definition page_ok (deep_ocr : bool) (doc_pdf : pdf_document) (i : nat) : bool :=
  match nth_error doc_pdf i with
  | Some p => extractable deep_ocr p
  | None => false
  end.

(** The progress reports due for the pages [pages]: one for each page
    whose extraction succeeds, with the page number and the page count. *)
Definition reports_for (deep_ocr : bool) (doc_pdf : pdf_document)
  (pages : list nat) : list (nat * nat) :=
  map (fun i => (i + 1, List.length doc_pdf))
      (filter (page_ok deep_ocr doc_pdf) pages).

(** A name as the graph is meant to hold it: not empty, and without
    white space at either end. *)
Definition trimmed (s : string) : Prop :=
  s <> EmptyString /\ Text.strip s = s.

Definition well_formed_triple (t : triple) : Prop :=
  trimmed (t_s t) /\ trimmed (t_p t) /\ trimmed (t_o t).

(** The row a relationship is returned as, and the relationship a triple
    is stored as for a document. *)
Definition row_of (e : edge) : triple := mkTriple (e_s e) (e_p e) (e_o e).

Definition edge_of (t : triple) (doc_id : string) : edge :=
  mkEdge (t_s t) (t_p t) (t_o t) doc_id.

(** The batches handed to [store.add_documents], in order. *)
Definition added_batches (tr : list event) : list (list Document) :=
  flat_map (fun ev => match ev with EvAddDocuments b => [b] | _ => [] end) tr.

(** The files opened for writing, in order. *)
Definition written_files (tr : list event) : list string :=
  flat_map (fun ev => match ev with EvWriteFile p _ => [p] | _ => [] end) tr.

(** Events that reach outside the process: capability calls, the
    splitter, the vector store, the graph store. *)
Definition is_outside_call (ev : event) : bool :=
  match ev with
  | EvInvoke _ _ | EvSplit _ | EvPGVector | EvAddDocuments _ | EvDriver
  | EvRun _ => true
  | _ => false
  end.

(** Events of an ingestion without deep extraction: no image file, and
    no capability call other than a triple extraction. *)
Definition shallow_step (ev : event) : bool :=
  match ev with
  | EvInvoke Llm (ReqTriples _) => true
  | EvInvoke _ _ | EvWriteFile _ _ => false
  | _ => true
  end.

(** A page that yields no content unit without deep extraction: it does
    not load, or its text is blank. *)
Definition yields_nothing (p : fetched Page) : bool :=
  match p with
  | Broken _ => true
  | Fetched page => negb (Text.truthy (Text.strip (get_text page)))
  end.

(** An embedded image below the size floor of [_process_pdf_page]. *)
Definition small_image (img : fetched base_image) : bool :=
  match img with
  | Fetched base => List.length (image base) <? 10000
  | Broken _ => false
  end.

(** A content unit of page [page_num] (counted from 0) as
    [_process_pdf_page] labels it: the file name, the page number counted
    from 1 and the document id, a content that is not empty, and either
    the type [text] without an image path or the type [image] with the
    path of one of the files [files]. *)
Definition unit_of_page (file_name doc_id : string) (page_num : nat)
  (files : list string) (d : Document) : Prop :=
  meta_source d = Some file_name
  /\ meta_page d = Some (page_num + 1)
  /\ meta_doc_id d = Some doc_id
  /\ page_content d <> EmptyString
  /\ ((meta_type d = Some "text" /\ meta_image_path d = None)
      \/ (meta_type d = Some "image"
          /\ exists path, meta_image_path d = Some path /\ In path files)).

(** Events of the calls that take a number in the count of calls:
    everything but prints, sleeps and the document handle. *)
Definition is_call (ev : event) : bool :=
  match ev with
  | EvPrint _ | EvSleep _ | EvOpen | EvClose => false
  | _ => true
  end.

Definition count_calls (evs : list event) : nat :=
  List.length (filter is_call evs).

(** The external calls among [evs] that failed, in order, when the first
    call of [evs] has the number [k].  A capability call takes a number
    but its failure is a reply, not a fault. *)
Fixpoint failed_calls (env : Env) (k : nat) (evs : list event) : list event :=
  match evs with
  | [] => []
  | ev :: rest =>
      match ev with
      | EvPrint _ | EvSleep _ | EvOpen | EvClose => failed_calls env k rest
      | EvInvoke _ _ => failed_calls env (S k) rest
      | _ =>
          match fault env k with
          | Some _ => ev :: failed_calls env (S k) rest
          | None => failed_calls env (S k) rest
          end
      end
  end.

(** Events of the calls that the outside world can make fail by a fault:
    the calls other than capability calls. *)
Definition is_external (ev : event) : bool :=
  match ev with
  | EvPrint _ | EvSleep _ | EvOpen | EvClose | EvInvoke _ _ => false
  | _ => true
  end.

(** None of the external calls among [evs] that failed is one that [bad]
    marks. *)
Definition tolerated (env : Env) (bad : event -> bool) (k : nat)
  (evs : list event) : bool :=
  forallb (fun ev => negb (bad ev)) (failed_calls env k evs).

(** The write of an image file. *)
Definition file_write (ev : event) : bool :=
  match ev with EvWriteFile _ _ => true | _ => false end.

(** The calls of an ingestion after the pages of a batch: the splitter,
    the vector store, the writes to the graph. *)
Definition downstream_call (ev : event) : bool :=
  match ev with
  | EvSplit _ | EvPGVector | EvAddDocuments _ | EvRun (CyMerge _ _) => true
  | _ => false
  end.

(** From [w] to [w1] the trace grew by [evs], the count of calls by the
    calls among them, and the count of open handles stayed. *)
Definition grows (w w1 : World) (evs : list event) : Prop :=
  trace w1 = (trace w ++ evs)%list
  /\ calls w1 = count_calls evs + calls w
  /\ open_handles w1 = open_handles w.

(** A computation none of whose failed external calls is one that [bad]
    marks; with [may_raise = false] it also always returns. *)
Definition contained (env : Env) (bad : event -> bool) (may_raise : bool)
  {A} (m : M A) : Prop :=
  forall w,
    exists evs,
      grows w (after m w) evs
      /\ tolerated env bad (calls w) evs = true
      /\ (may_raise = false -> exists a, run m w = Ret a).

(** A computation that returns unless an external call marked by [bad]
    fails, and that ends with the error of that call, as its last act,
    when one does. *)
Definition strict (env : Env) (bad : event -> bool) {A} (m : M A) : Prop :=
  forall w,
    exists evs,
      grows w (after m w) evs
      /\ match run m w with
         | Ret _ => tolerated env bad (calls w) evs = true
         | Raise e =>
             exists before ev,
               evs = (before ++ [ev])%list
               /\ bad ev = true
               /\ fault env (count_calls before + calls w) = Some e
               /\ tolerated env bad (calls w) before = true
         end.

(** [xs] is [ys] with some elements left out. *)
Inductive subsequence {A} : list A -> list A -> Prop :=
| subsequence_nil : subsequence [] []
| subsequence_skip xs y ys : subsequence xs ys -> subsequence xs (y :: ys)
| subsequence_keep x xs ys : subsequence xs ys -> subsequence (x :: xs) (x :: ys).

(** A float that is zero, positive or plus infinity. *)
Definition not_negative (x : Float.float) : bool :=
  match x with
  | S754_zero _ => true
  | S754_infinity s | S754_finite s _ _ => negb s
  | S754_nan => false
  end.

(** The reply the relevance filter is asked for: the chosen numbers,
    separated by a comma and a space. *)
Definition index_reply (indices : list nat) : string :=
  Text.join ", " (map Text.str_of_nat indices).

(** *** Sample worlds and environments *)

(** A fresh process: nothing done yet, no graph driver, an empty graph. *)
Definition fresh : World := mkWorld [] 0 None [] 0.

Definition no_split (docs : list Document) : list Document := docs.

(** The first three capability calls are throttled, every later one is
    answered with [content]. *)
Definition throttled_thrice (content : string) : Env :=
  mkEnv (fun k => if k <? 3
                  then Err "Error code: 429 - Rate limit reached"
                  else Ok content)
        (fun _ => None) no_split.

(** The graph store refuses connections; everything else works. *)
Definition graph_down : Env :=
  mkEnv (fun _ => Ok "x | y | z")
        (fun _ => Some "ServiceUnavailable: connection refused") no_split.

(** A process that already holds a graph driver, the store holding [g]. *)
Definition connected (g : list edge) : World :=
  mkWorld [] 0 (Some Neo4jDriver) g 0.

(** Every capability call answers [content]; nothing else fails. *)
Definition answering (content : string) : Env :=
  mkEnv (fun _ => Ok content) (fun _ => None) no_split.

(** A text of more than 100 characters, and chunks made of it. *)
Definition long_text : string :=
  "The dog is a domesticated descendant of the wolf. "
  ++ "It was the first species to be domesticated by humans, long ago.".

Definition text_chunk (text : string) : Document :=
  mkDocument text (Some "book.pdf") (Some 1) (Some "doc-1") None (Some "text").

(** Twelve relationships about dogs, all of document [doc-1]. *)
Definition dog_graph : list edge :=
  map (fun i => mkEdge "Dog" "likes" ("toy " ++ Text.str_of_nat i) "doc-1")
      (seq 0 12).

(** Capability replies in call order: the entity extraction answers
    [dog], the relevance filter does what [filter_reply] says. *)
Definition query_env (filter_reply : outcome) : Env :=
  mkEnv (fun k => if k =? 0 then Ok "dog | dogs" else filter_reply)
        (fun _ => None) no_split.

(** A retrieved document without page metadata and without text. *)
Definition blank_doc : Document :=
  mkDocument EmptyString None None None None None.

(** A page with plain text and no images, and a one-page document. *)
Definition plain_page (text : string) : fetched Page :=
  Fetched (mkPage text (Fetched []) (Fetched [])).

(** The vector store cannot be reached: the second external call of an
    ingestion, the construction of the store client, fails. *)
Definition vector_store_down : Env :=
  mkEnv (fun _ => Ok "dog | is-a | animal")
        (fun k => if k =? 1 then Some "could not connect to server" else None)
        no_split.

(** A two-page document whose second page cannot be loaded. *)
Definition second_page_broken : pdf_document :=
  [plain_page "Dogs bark."; Broken "cannot load page"].

(** The entity extraction answers; the graph read that follows fails. *)
Definition graph_read_fails : Env :=
  mkEnv (fun _ => Ok "dog")
        (fun k => if k =? 1 then Some "ServiceUnavailable" else None)
        no_split.

(** An image document of page 3 and a text document, as retrieved. *)
Definition image_chunk (path : string) : Document :=
  mkDocument "Image Description: a dog" (Some "book.pdf") (Some 3)
             (Some "doc-1") (Some path) (Some "image").

(** The progress callback raises when it is called first, as the first
    external call of an ingestion without deep extraction; everything
    else works. *)
Definition callback_raises : Env :=
  mkEnv (fun _ => Ok "dog | is-a | animal")
        (fun k => if k =? 0 then Some "callback failed" else None)
        no_split.

(** Every capability call fails with [e]. *)
Definition always_failing (e : string) : Env :=
  mkEnv (fun _ => Err e) (fun _ => None) no_split.

(* ================================================================== *)
(** * Properties *)
(* ================================================================== *)

(** ** Text *)

Section TextFacts.

Import Text.

Lemma lstrip_idem s : lstrip (lstrip s) = lstrip s.
Proof.
  induction s as [|c s IH]; simpl; auto.
  destruct (isspace c) eqn:E; auto. simpl. now rewrite E.
Qed.

Lemma rstrip_cons c s :
  rstrip (String c s)
  = match rstrip s with
    | EmptyString => if isspace c then EmptyString else String c EmptyString
    | String d r => String c (String d r)
    end.
Proof. reflexivity. Qed.

Lemma rstrip_idem s : rstrip (rstrip s) = rstrip s.
Proof.
  induction s as [|c s IH]; auto.
  rewrite rstrip_cons. destruct (rstrip s) as [|d r] eqn:E.
  - destruct (isspace c) eqn:Ec; auto. simpl. now rewrite Ec.
  - rewrite rstrip_cons, IH. reflexivity.
Qed.

Lemma lstrip_rstrip s : lstrip (rstrip s) = rstrip (lstrip s).
Proof.
  induction s as [|c s IH]; auto.
  rewrite rstrip_cons. simpl lstrip at 2.
  destruct (isspace c) eqn:Ec.
  - destruct (rstrip s) as [|d r] eqn:E.
    + rewrite <- IH. reflexivity.
    + rewrite <- IH. simpl. now rewrite Ec.
  - rewrite rstrip_cons.
    destruct (rstrip s) as [|d r] eqn:E; simpl; now rewrite Ec.
Qed.

Lemma strip_lstrip s : strip (lstrip s) = strip s.
Proof. unfold strip. now rewrite lstrip_idem. Qed.

Lemma strip_rstrip s : strip (rstrip s) = strip s.
Proof. unfold strip. now rewrite lstrip_rstrip, rstrip_idem. Qed.

Lemma strip_idem s : strip (strip s) = strip s.
Proof. unfold strip at 2. now rewrite strip_rstrip, strip_lstrip. Qed.

Lemma length_rstrip s : String.length (rstrip s) <= String.length s.
Proof.
  induction s as [|c s IH]; auto.
  rewrite rstrip_cons. destruct (rstrip s); [destruct (isspace c)|]; simpl in *; lia.
Qed.

Lemma length_lstrip s : String.length (lstrip s) <= String.length s.
Proof.
  induction s as [|c s IH]; auto. simpl.
  destruct (isspace c); simpl; lia.
Qed.

Lemma length_strip s : String.length (strip s) <= String.length s.
Proof.
  unfold strip. pose proof (length_rstrip (lstrip s)).
  pose proof (length_lstrip s). lia.
Qed.

Lemma split_cons sep c s :
  split sep (String c s)
  = if Ascii.eqb c sep then EmptyString :: split sep s
    else cons_head c (split sep s).
Proof. reflexivity. Qed.

Lemma split_nonempty sep s : split sep s <> [].
Proof.
  destruct s as [|c s]; simpl; [discriminate|].
  destruct (Ascii.eqb c sep); [discriminate|].
  destruct (split sep s); discriminate.
Qed.

Lemma split_single sep s f : split sep s = [f] -> f = s.
Proof.
  revert f; induction s as [|c s IH]; intros f H.
  - simpl in H. congruence.
  - rewrite split_cons in H. destruct (Ascii.eqb c sep).
    + pose proof (split_nonempty sep s). destruct (split sep s); congruence.
    + destruct (split sep s) as [|g gs] eqn:E.
      * now apply split_nonempty in E.
      * simpl in H. injection H as <- ->. f_equal. now apply IH.
Qed.

Lemma split_lstrip sep s :
  isspace sep = false ->
  split sep (lstrip s) = map_head lstrip (split sep s).
Proof.
  intros Hsep. induction s as [|c s IH]; auto.
  rewrite split_cons. simpl lstrip.
  destruct (isspace c) eqn:Ec.
  - destruct (Ascii.eqb_spec c sep) as [->|_]; [congruence|].
    rewrite IH. destruct (split sep s) as [|f fs] eqn:E.
    + now apply split_nonempty in E.
    + simpl. now rewrite Ec.
  - rewrite split_cons. destruct (Ascii.eqb c sep); auto.
    destruct (split sep s) as [|f fs] eqn:E; simpl; now rewrite Ec.
Qed.

Lemma map_last_cons_head g c fs :
  (forall f, fs = [f] -> g (String c f) = String c (g f)) ->
  fs <> [] ->
  map_last g (cons_head c fs) = cons_head c (map_last g fs).
Proof.
  intros H Hne. destruct fs as [|f [|f' fs']]; [congruence| |reflexivity].
  simpl. f_equal. now apply H.
Qed.

Lemma split_rstrip sep s :
  isspace sep = false ->
  split sep (rstrip s) = map_last rstrip (split sep s).
Proof.
  intros Hsep. induction s as [|c s IH]; auto.
  rewrite rstrip_cons, (split_cons sep c s).
  destruct (rstrip s) as [|d r] eqn:E.
  - (* everything after [c] is blank *)
    simpl in IH.
    destruct (split sep s) as [|f [|f' fs]] eqn:Es.
    + now apply split_nonempty in Es.
    + simpl in IH. injection IH as IH.
      destruct (isspace c) eqn:Ec.
      * destruct (Ascii.eqb_spec c sep) as [->|_]; [congruence|].
        simpl. now rewrite <- IH, Ec.
      * rewrite split_cons. destruct (Ascii.eqb c sep); simpl.
        -- now rewrite <- IH.
        -- now rewrite <- IH, Ec.
    + exfalso. change (map_last rstrip (f :: f' :: fs))
        with (f :: map_last rstrip (f' :: fs)) in IH.
      injection IH as _ IH. destruct fs; discriminate.
  - rewrite split_cons. rewrite IH.
    destruct (Ascii.eqb c sep).
    + destruct (split sep s) as [|f fs] eqn:Es; [now apply split_nonempty in Es|].
      reflexivity.
    + symmetry. apply map_last_cons_head; [|apply split_nonempty].
      intros f Hf. apply split_single in Hf. subst f.
      rewrite rstrip_cons, E. reflexivity.
Qed.

Lemma map_strip_map_head fs : map strip (map_head lstrip fs) = map strip fs.
Proof. destruct fs; simpl; auto. now rewrite strip_lstrip. Qed.

Lemma map_strip_map_last fs : map strip (map_last rstrip fs) = map strip fs.
Proof.
  induction fs as [|f fs IH]; auto.
  destruct fs as [|f' fs]; simpl.
  - now rewrite strip_rstrip.
  - f_equal. exact IH.
Qed.

(** Trimming a line first does not change its trimmed fields. *)
Lemma split_strip_fields sep s :
  isspace sep = false ->
  map strip (split sep (strip s)) = map strip (split sep s).
Proof.
  intros Hsep. unfold strip at 2.
  rewrite split_rstrip, map_strip_map_last by assumption.
  rewrite split_lstrip, map_strip_map_head by assumption.
  reflexivity.
Qed.

Lemma contains_split_single sep s :
  contains (String sep EmptyString) s = false ->
  split sep s = [s].
Proof.
  induction s as [|c s IH]; auto.
  intros H. simpl in H. rewrite split_cons.
  destruct (Ascii.eqb_spec c sep) as [->|Hne].
  - exfalso. destruct (ascii_dec sep sep); [|congruence].
    destruct s; simpl in H; discriminate.
  - apply orb_false_iff in H as [_ H]. now rewrite (IH H).
Qed.

End TextFacts.

(** ** The effect monad *)

Lemma run_after {A} (m : M A) w : m w = (run m w, after m w).
Proof. unfold run, after. now destruct (m w). Qed.

Lemma run_of_eq {A} (m : M A) w r w' : m w = (r, w') -> run m w = r.
Proof. intros H. unfold run. now rewrite H. Qed.

Lemma after_of_eq {A} (m : M A) w r w1 : m w = (r, w1) -> after m w = w1.
Proof. intros H. unfold after. now rewrite H. Qed.

Lemma bind_ret_step {A B} (m : M A) (k : A -> M B) w a w' :
  m w = (Ret a, w') -> bind m k w = k a w'.
Proof. intros H. unfold bind. now rewrite H. Qed.

Lemma bind_raise_step {A B} (m : M A) (k : A -> M B) w e w' :
  m w = (Raise e, w') -> bind m k w = (Raise e, w').
Proof. intros H. unfold bind. now rewrite H. Qed.

Lemma bind_assoc {A B C} (m : M A) (k : A -> M B) (k' : B -> M C) w :
  bind (bind m k) k' w = bind m (fun a => bind (k a) k') w.
Proof. unfold bind. now destruct (m w) as [[a|e] w1]. Qed.

Lemma bind_ext {A B} (m : M A) (k k' : A -> M B) w :
  (forall a w1, k a w1 = k' a w1) -> bind m k w = bind m k' w.
Proof. intros H. unfold bind. destruct (m w) as [[a|e] w1]; auto. Qed.

Lemma try_ret_step {A} (m : M A) h w a w' :
  m w = (Ret a, w') -> try_catch m h w = (Ret a, w').
Proof. intros H. unfold try_catch. now rewrite H. Qed.

Lemma try_raise_step {A} (m : M A) h w e w' :
  m w = (Raise e, w') -> try_catch m h w = h e w'.
Proof. intros H. unfold try_catch. now rewrite H. Qed.

(** ** Triple extraction: the line parser *)

Lemma parse_lines_spec lines acc :
  Kg.parse_lines lines acc = (acc ++ flat_map line_triples lines)%list.
Proof.
  revert acc. induction lines as [|line rest IH]; intros acc.
  - simpl. now rewrite app_nil_r.
  - cbn [Kg.parse_lines flat_map].
    assert (Hsp : Text.isspace "|" = false) by reflexivity.
    pose proof (Text_split_fields := split_strip_fields "|"%char line Hsp).
    destruct (Text.is_empty (Text.strip line)
              || negb (Text.contains "|" (Text.strip line))) eqn:Hpre.
    + (* no pipe in the trimmed line: a single field *)
      assert (Hone : Text.split "|" (Text.strip line) = [Text.strip line]).
      { apply orb_true_iff in Hpre as [He|Hc].
        - destruct (Text.strip line); [reflexivity|discriminate].
        - apply contains_split_single. now apply negb_true_iff in Hc. }
      rewrite Hone in Text_split_fields.
      assert (Hnil : line_triples line = []).
      { unfold line_triples.
        destruct (Text.split "|" line) as [|a [|b [|c [|d l]]]];
          try reflexivity; discriminate. }
      rewrite Hnil, IH. reflexivity.
    + rewrite Text_split_fields. unfold line_triples.
      destruct (Text.split "|" line) as [|a [|b [|c [|d l]]]];
        cbn [map List.length Nat.eqb negb]; rewrite ?IH; try reflexivity.
      destruct (Text.truthy (Text.strip a) && Text.truthy (Text.strip b)
                && Text.truthy (Text.strip c)).
      * now rewrite <- app_assoc.
      * reflexivity.
Qed.

(** ** Worlds and traces *)

Lemma extend_extend w evs1 k1 evs2 k2 :
  extend (extend w evs1 k1) evs2 k2 = extend w (evs1 ++ evs2) (k2 + k1).
Proof.
  unfold extend; simpl. f_equal.
  - now rewrite app_assoc.
  - lia.
Qed.

Lemma extend_nil w : extend w [] 0 = w.
Proof. destruct w; unfold extend; simpl. now rewrite app_nil_r. Qed.

Lemma skipn_length_app {A} (xs ys : list A) :
  skipn (List.length xs) (xs ++ ys) = ys.
Proof. induction xs; simpl; auto. Qed.

Lemma emitted_extend {A} (m : M A) w r evs k :
  m w = (r, extend w evs k) -> emitted m w = evs.
Proof.
  intros H. unfold emitted, after. rewrite H. simpl.
  apply skipn_length_app.
Qed.

Lemma sleeps_app a b : sleeps (a ++ b) = (sleeps a ++ sleeps b)%list.
Proof. unfold sleeps. apply flat_map_app. Qed.

Lemma invocations_app a b :
  invocations (a ++ b) = (invocations a ++ invocations b)%list.
Proof. unfold invocations. apply flat_map_app. Qed.

Lemma merges_app a b : merges (a ++ b) = (merges a ++ merges b)%list.
Proof. unfold merges. apply flat_map_app. Qed.

Lemma merges_cons_print m evs : merges (EvPrint m :: evs) = merges evs.
Proof. reflexivity. Qed.

Lemma prints_app a b : prints (a ++ b) = (prints a ++ prints b)%list.
Proof. unfold prints. apply flat_map_app. Qed.

Lemma progress_calls_app a b :
  progress_calls (a ++ b) = (progress_calls a ++ progress_calls b)%list.
Proof. unfold progress_calls. apply flat_map_app. Qed.

Lemma sleeps_backoff_events inv say a n :
  (forall s, inv <> EvSleep s) ->
  sleeps (backoff_events inv say a n) = map backoff (seq a n).
Proof.
  intros Hinv. unfold backoff_events. revert a.
  induction n as [|n IH]; intros a; simpl; auto.
  destruct inv; try (exfalso; eapply Hinv; reflexivity);
    simpl; f_equal; apply IH.
Qed.

Lemma invocations_backoff_events c r say a n :
  invocations (backoff_events (EvInvoke c r) say a n) = repeat (c, r) n.
Proof.
  unfold backoff_events. revert a.
  induction n as [|n IH]; intros a; simpl; auto. f_equal. apply IH.
Qed.

Lemma backoff_events_succ inv say a n :
  backoff_events inv say a (S n)
  = ([inv; EvPrint (say (backoff a)); EvSleep (backoff a)]
     ++ backoff_events inv say (S a) n)%list.
Proof. reflexivity. Qed.

Lemma throttled_tail env k n :
  throttled env k (S n) -> throttled env (S k) n.
Proof.
  intros H i Hi. destruct (H (S i)) as [e He]; [lia|].
  exists e. now replace (S k + i) with (k + S i) by lia.
Qed.

Lemma throttled_head env k n :
  throttled env k (S n) ->
  exists e, llm_reply env k = Err e /\ Kg.is_rate_limit e = true.
Proof.
  intros H. destruct (H 0) as [e He]; [lia|].
  exists e. now rewrite Nat.add_0_r in He.
Qed.

(** ** Primitive effects *)

Lemma log_run ev w : log ev w = (Ret tt, extend w [ev] 0).
Proof. reflexivity. Qed.

Lemma print_run m w : print m w = (Ret tt, extend w [EvPrint m] 0).
Proof. reflexivity. Qed.

Lemma sleep_run n w : sleep n w = (Ret tt, extend w [EvSleep n] 0).
Proof. reflexivity. Qed.

Lemma invoke_ok env c r w content :
  llm_reply env (calls w) = Ok content ->
  invoke env c r w = (Ret content, extend w [EvInvoke c r] 1).
Proof.
  intros H. cbv [invoke bind log tick]. cbn [calls]. now rewrite H.
Qed.

Lemma invoke_err env c r w e :
  llm_reply env (calls w) = Err e ->
  invoke env c r w = (Raise e, extend w [EvInvoke c r] 1).
Proof.
  intros H. cbv [invoke bind log tick]. cbn [calls]. now rewrite H.
Qed.

Lemma external_ok env ev w :
  fault env (calls w) = None ->
  external env ev w = (Ret tt, extend w [ev] 1).
Proof.
  intros H. cbv [external bind log tick]. cbn [calls]. now rewrite H.
Qed.

Lemma external_err env ev w e :
  fault env (calls w) = Some e ->
  external env ev w = (Raise e, extend w [ev] 1).
Proof.
  intros H. cbv [external bind log tick]. cbn [calls]. now rewrite H.
Qed.

(** ** Vision describer: the retry loop *)

Section VisionRetry.

Variable env : Env.
Variables (img : bytes) (prompt : vision_prompt).

Let inv := EvInvoke LlmVision (ReqVision prompt img).

Lemma analyze_attempt_ok a w content :
  llm_reply env (calls w) = Ok content ->
  Ingest.analyze_attempt env img prompt a w
  = (Ret (Return (Text.strip content)), extend w [inv] 1).
Proof.
  intros H. unfold Ingest.analyze_attempt.
  erewrite try_ret_step; [reflexivity|].
  erewrite bind_ret_step by (apply invoke_ok; eassumption).
  reflexivity.
Qed.

Lemma analyze_attempt_throttled a w e :
  llm_reply env (calls w) = Err e ->
  Ingest.is_rate_limit e = true ->
  a < 11 ->
  Ingest.analyze_attempt env img prompt a w
  = (Ret Continue,
     extend w [inv; EvPrint (MsgRateLimit (backoff a)); EvSleep (backoff a)] 1).
Proof.
  intros H Hrl Ha. unfold Ingest.analyze_attempt.
  erewrite try_raise_step
    by (erewrite bind_raise_step by (apply invoke_err; eassumption);
        reflexivity).
  rewrite Hrl. apply Nat.ltb_lt in Ha.
  change (Ingest.max_retries - 1) with 11. rewrite Ha. cbn [andb].
  erewrite bind_ret_step by apply print_run.
  erewrite bind_ret_step by apply sleep_run.
  unfold ret. now rewrite !extend_extend.
Qed.

Lemma analyze_attempt_error a w e :
  llm_reply env (calls w) = Err e ->
  Ingest.is_rate_limit e = false \/ 11 <= a ->
  Ingest.analyze_attempt env img prompt a w = (Raise e, extend w [inv] 1).
Proof.
  intros H Hor. unfold Ingest.analyze_attempt.
  erewrite try_raise_step
    by (erewrite bind_raise_step by (apply invoke_err; eassumption);
        reflexivity).
  assert (Hc : Ingest.is_rate_limit e && (a <? Ingest.max_retries - 1) = false).
  { destruct Hor as [-> | Ha]; auto.
    apply andb_false_iff. right. apply Nat.ltb_ge. exact Ha. }
  now rewrite Hc.
Qed.

Lemma analyze_loop_throttled n : forall a m w,
  throttled env (calls w) n ->
  a + n <= 11 ->
  Ingest.analyze_loop env img prompt (seq a (n + m)) w
  = Ingest.analyze_loop env img prompt (seq (a + n) m)
      (extend w (backoff_events inv MsgRateLimit a n) n).
Proof.
  induction n as [|n IH]; intros a m w Hth Ha.
  - simpl. now rewrite Nat.add_0_r, extend_nil.
  - destruct (throttled_head _ _ _ Hth) as [e [He Hrl]].
    cbn [Nat.add seq Ingest.analyze_loop].
    erewrite bind_ret_step
      by (apply (analyze_attempt_throttled a w e He Hrl); lia).
    cbv beta iota. rewrite IH.
    + rewrite extend_extend, backoff_events_succ.
      replace (S a + n) with (a + S n) by lia.
      now replace (n + 1) with (S n) by lia.
    + simpl. now apply throttled_tail.
    + lia.
Qed.

(** After [n] throttled attempts the next reply decides the call. *)
Lemma analyze_success n w content :
  throttled env (calls w) n ->
  n <= 11 ->
  llm_reply env (calls w + n) = Ok content ->
  Ingest._analyze_image_with_gpt env img prompt w
  = (Ret (Text.strip content),
     extend w (backoff_events inv MsgRateLimit 0 n ++ [inv]) (S n)).
Proof.
  intros Hth Hn Hok. unfold Ingest._analyze_image_with_gpt.
  erewrite try_ret_step; [reflexivity|].
  change Ingest.max_retries with 12.
  replace 12 with (n + S (11 - n)) by lia.
  rewrite (analyze_loop_throttled n 0 (S (11 - n)) w Hth) by lia.
  cbn [seq Ingest.analyze_loop].
  erewrite bind_ret_step.
  2:{ apply analyze_attempt_ok. cbn [extend calls].
      rewrite Nat.add_comm. exact Hok. }
  cbv beta iota. unfold ret. rewrite extend_extend.
  reflexivity.
Qed.

Lemma analyze_failure n w e :
  throttled env (calls w) n ->
  n <= 11 ->
  llm_reply env (calls w + n) = Err e ->
  Ingest.is_rate_limit e = false \/ n = 11 ->
  Ingest._analyze_image_with_gpt env img prompt w
  = (Ret EmptyString,
     extend w (backoff_events inv MsgRateLimit 0 n
               ++ [inv; EvPrint (MsgErrorAnalyzing e)]) (S n)).
Proof.
  intros Hth Hn Herr Hor. unfold Ingest._analyze_image_with_gpt.
  erewrite try_raise_step.
  2:{ change Ingest.max_retries with 12.
      replace 12 with (n + S (11 - n)) by lia.
      rewrite (analyze_loop_throttled n 0 (S (11 - n)) w Hth) by lia.
      cbn [seq Ingest.analyze_loop].
      erewrite bind_raise_step; [reflexivity|].
      apply analyze_attempt_error.
      - cbn [extend calls]. rewrite Nat.add_comm. exact Herr.
      - simpl. destruct Hor; [now left | right; lia]. }
  erewrite bind_ret_step by apply print_run.
  unfold ret. rewrite !extend_extend. reflexivity.
Qed.

End VisionRetry.

(** ** Triple extractor: the retry loop *)

Section TripleRetry.

Variable env : Env.
Variable text : string.

Let inv := EvInvoke Llm (ReqTriples text).

(** What a failed last attempt prints. *)
Let failure_prints (a : nat) (e : string) : list event :=
  EvPrint (MsgErrorExtracting (a + 1) 12 e)
  :: (if a =? 11 then [EvPrint (MsgFailedAfter 12)] else []).

Lemma extract_attempt_ok a w content :
  llm_reply env (calls w) = Ok content ->
  Kg.extract_attempt env text a w
  = (Ret (Return (Kg.parse_response content)), extend w [inv] 1).
Proof.
  intros H. unfold Kg.extract_attempt.
  erewrite try_ret_step; [reflexivity|].
  erewrite bind_ret_step by (apply invoke_ok; eassumption).
  reflexivity.
Qed.

Lemma extract_attempt_throttled a w e :
  llm_reply env (calls w) = Err e ->
  Kg.is_rate_limit e = true ->
  a < 11 ->
  Kg.extract_attempt env text a w
  = (Ret Continue,
     extend w [inv; EvPrint (MsgKgRateLimit (backoff a)); EvSleep (backoff a)] 1).
Proof.
  intros H Hrl Ha. unfold Kg.extract_attempt.
  erewrite try_raise_step
    by (erewrite bind_raise_step by (apply invoke_err; eassumption);
        reflexivity).
  rewrite Hrl. apply Nat.ltb_lt in Ha.
  change (Kg.max_retries - 1) with 11. rewrite Ha. cbn [andb].
  erewrite bind_ret_step by apply print_run.
  erewrite bind_ret_step by apply sleep_run.
  unfold ret. now rewrite !extend_extend.
Qed.

Lemma extract_attempt_error a w e :
  llm_reply env (calls w) = Err e ->
  Kg.is_rate_limit e = false \/ 11 <= a ->
  Kg.extract_attempt env text a w
  = (Ret (Return []), extend w (inv :: failure_prints a e) 1).
Proof.
  intros H Hor. unfold Kg.extract_attempt.
  erewrite try_raise_step
    by (erewrite bind_raise_step by (apply invoke_err; eassumption);
        reflexivity).
  assert (Hc : Kg.is_rate_limit e && (a <? Kg.max_retries - 1) = false).
  { destruct Hor as [-> | Ha]; auto.
    apply andb_false_iff. right. apply Nat.ltb_ge. exact Ha. }
  rewrite Hc.
  erewrite bind_ret_step by apply print_run.
  unfold failure_prints. change (Kg.max_retries - 1) with 11.
  change Kg.max_retries with 12.
  destruct (a =? 11).
  - erewrite bind_ret_step by apply print_run.
    unfold ret. now rewrite !extend_extend.
  - erewrite bind_ret_step by reflexivity.
    unfold ret. now rewrite !extend_extend.
Qed.

Lemma extract_loop_throttled n : forall a m w,
  throttled env (calls w) n ->
  a + n <= 11 ->
  Kg.extract_loop env text (seq a (n + m)) w
  = Kg.extract_loop env text (seq (a + n) m)
      (extend w (backoff_events inv MsgKgRateLimit a n) n).
Proof.
  induction n as [|n IH]; intros a m w Hth Ha.
  - simpl. now rewrite Nat.add_0_r, extend_nil.
  - destruct (throttled_head _ _ _ Hth) as [e [He Hrl]].
    cbn [Nat.add seq Kg.extract_loop].
    erewrite bind_ret_step
      by (apply (extract_attempt_throttled a w e He Hrl); lia).
    cbv beta iota. rewrite IH.
    + rewrite extend_extend, backoff_events_succ.
      replace (S a + n) with (a + S n) by lia.
      now replace (n + 1) with (S n) by lia.
    + simpl. now apply throttled_tail.
    + lia.
Qed.

Hypothesis text_not_blank : Text.truthy (Text.strip text) = true.

Lemma extract_success n w content :
  throttled env (calls w) n ->
  n <= 11 ->
  llm_reply env (calls w + n) = Ok content ->
  Kg.extract_triples_from_text env text w
  = (Ret (Kg.parse_response content),
     extend w (backoff_events inv MsgKgRateLimit 0 n ++ [inv]) (S n)).
Proof.
  intros Hth Hn Hok. unfold Kg.extract_triples_from_text.
  rewrite text_not_blank. cbn [negb].
  change Kg.max_retries with 12.
  replace 12 with (n + S (11 - n)) by lia.
  rewrite (extract_loop_throttled n 0 (S (11 - n)) w Hth) by lia.
  cbn [seq Kg.extract_loop].
  erewrite bind_ret_step.
  2:{ apply extract_attempt_ok. cbn [extend calls].
      rewrite Nat.add_comm. exact Hok. }
  cbv beta iota. unfold ret. rewrite extend_extend.
  reflexivity.
Qed.

Lemma extract_failure n w e :
  throttled env (calls w) n ->
  n <= 11 ->
  llm_reply env (calls w + n) = Err e ->
  Kg.is_rate_limit e = false \/ n = 11 ->
  Kg.extract_triples_from_text env text w
  = (Ret [],
     extend w (backoff_events inv MsgKgRateLimit 0 n
               ++ inv :: failure_prints n e) (S n)).
Proof.
  intros Hth Hn Herr Hor. unfold Kg.extract_triples_from_text.
  rewrite text_not_blank. cbn [negb].
  change Kg.max_retries with 12.
  replace 12 with (n + S (11 - n)) by lia.
  rewrite (extract_loop_throttled n 0 (S (11 - n)) w Hth) by lia.
  cbn [seq Kg.extract_loop].
  erewrite bind_ret_step.
  2:{ apply extract_attempt_error.
      - cbn [extend calls]. rewrite Nat.add_comm. exact Herr.
      - simpl. destruct Hor; [now left | right; lia]. }
  cbv beta iota. unfold ret. rewrite extend_extend.
  reflexivity.
Qed.

End TripleRetry.

(** Every sequence of replies starts with some number [n <= 11] of
    throttled ones, followed by a reply that ends the retrying. *)
Lemma first_decisive_reply env k :
  exists n, n <= 11 /\ throttled env k n
    /\ ((exists content, llm_reply env (k + n) = Ok content)
        \/ (exists e, llm_reply env (k + n) = Err e
                      /\ (Kg.is_rate_limit e = false \/ n = 11))).
Proof.
  assert (H : forall m, throttled env k m
              \/ exists n, n < m /\ throttled env k n
                   /\ ((exists content, llm_reply env (k + n) = Ok content)
                       \/ (exists e, llm_reply env (k + n) = Err e
                                     /\ Kg.is_rate_limit e = false))).
  { induction m as [|m [IH|IH]].
    - left. intros i Hi. lia.
    - destruct (llm_reply env (k + m)) as [c|e] eqn:E.
      + right. exists m. split; [lia|]. split; [exact IH|]. left. now exists c.
      + destruct (Kg.is_rate_limit e) eqn:Hrl.
        * left. intros i Hi. destruct (Nat.eq_dec i m) as [->|Hne].
          -- now exists e.
          -- apply IH. lia.
        * right. exists m. split; [lia|]. split; [exact IH|].
          right. now exists e.
    - right. destruct IH as [n [Hn Hrest]]. exists n. split; [lia|exact Hrest]. }
  destruct (H 11) as [Hall | [n [Hn [Hth Hdec]]]].
  - exists 11. split; [lia|]. split; [exact Hall|].
    destruct (llm_reply env (k + 11)) as [c|e] eqn:E.
    + left. now exists c.
    + right. exists e. auto.
  - exists n. split; [lia|]. split; [exact Hth|].
    destruct Hdec as [Hok | [e [He Hrl]]]; [now left|].
    right. exists e. auto.
Qed.

(** ** C3: the throttling retry policy *)

Lemma sleeps_after_backoff c r say n tail :
  sleeps tail = [] ->
  sleeps (backoff_events (EvInvoke c r) say 0 n ++ EvInvoke c r :: tail)
  = map backoff (seq 0 n).
Proof.
  intros Ht. rewrite sleeps_app, sleeps_backoff_events by discriminate.
  change (sleeps (EvInvoke c r :: tail)) with (sleeps tail).
  now rewrite Ht, app_nil_r.
Qed.

Lemma invocations_after_backoff c r say n tail :
  invocations tail = [] ->
  List.length
    (invocations (backoff_events (EvInvoke c r) say 0 n ++ EvInvoke c r :: tail))
  = n + 1.
Proof.
  intros Ht. rewrite invocations_app, invocations_backoff_events.
  change (invocations (EvInvoke c r :: tail)) with ((c, r) :: invocations tail).
  rewrite Ht, length_app, repeat_length. reflexivity.
Qed.

Lemma analyze_summary env img prompt w n r tail :
  Ingest._analyze_image_with_gpt env img prompt w
  = (r, extend w (backoff_events (EvInvoke LlmVision (ReqVision prompt img))
                                 MsgRateLimit 0 n
                  ++ EvInvoke LlmVision (ReqVision prompt img) :: tail) (S n)) ->
  sleeps tail = [] -> invocations tail = [] ->
  run (Ingest._analyze_image_with_gpt env img prompt) w = r
  /\ sleeps (emitted (Ingest._analyze_image_with_gpt env img prompt) w)
     = map backoff (seq 0 n)
  /\ List.length
       (invocations (emitted (Ingest._analyze_image_with_gpt env img prompt) w))
     = n + 1.
Proof.
  intros H Hs Hi. rewrite (emitted_extend _ _ _ _ _ H).
  split; [exact (run_of_eq _ _ _ _ H)|].
  split; [now apply sleeps_after_backoff | now apply invocations_after_backoff].
Qed.

Lemma extract_summary env text w n r tail :
  Kg.extract_triples_from_text env text w
  = (r, extend w (backoff_events (EvInvoke Llm (ReqTriples text))
                                 MsgKgRateLimit 0 n
                  ++ EvInvoke Llm (ReqTriples text) :: tail) (S n)) ->
  sleeps tail = [] -> invocations tail = [] ->
  run (Kg.extract_triples_from_text env text) w = r
  /\ sleeps (emitted (Kg.extract_triples_from_text env text) w)
     = map backoff (seq 0 n)
  /\ List.length
       (invocations (emitted (Kg.extract_triples_from_text env text) w))
     = n + 1.
Proof.
  intros H Hs Hi. rewrite (emitted_extend _ _ _ _ _ H).
  split; [exact (run_of_eq _ _ _ _ H)|].
  split; [now apply sleeps_after_backoff | now apply invocations_after_backoff].
Qed.

(** C3.  For the Vision Describer ([_analyze_image_with_gpt]) and the
    Triple Extractor ([extract_triples_from_text], on a text that is not
    blank): (a) when the first three attempts raise a rate-limit-marked
    error and the fourth succeeds, the call returns the successful result
    after exactly three waits, of 3, 4 and 6 seconds; (b) every call makes
    at most 12 attempts, and the wait after attempt number [attempt] is
    [2 ^ attempt + 2] seconds; when all 12 attempts are throttled the call
    gives the empty result after 11 waits; (c) an error without the
    rate-limit marker is not retried: the call ends with that attempt and
    gives the empty result. *)
Theorem throttling_retry_policy
  (env : Env) (w : World) (img : bytes) (prompt : vision_prompt)
  (text : string) :
  Text.truthy (Text.strip text) = true ->
  let describe := Ingest._analyze_image_with_gpt env img prompt in
  let extract := Kg.extract_triples_from_text env text in
  let waits n := map (fun attempt => 2 ^ attempt + 2) (seq 0 n) in
  (forall content,
      throttled env (calls w) 3 ->
      llm_reply env (calls w + 3) = Ok content ->
      outcome_is describe w (Ret (Text.strip content)) [3; 4; 6] 4
      /\ outcome_is extract w (Ret (Kg.parse_response content)) [3; 4; 6] 4)
  /\ (exists n r, n <= 11 /\ outcome_is describe w r (waits n) (n + 1))
  /\ (exists n r, n <= 11 /\ outcome_is extract w r (waits n) (n + 1))
  /\ (throttled env (calls w) 12 ->
      outcome_is describe w (Ret EmptyString) (waits 11) 12
      /\ outcome_is extract w (Ret []) (waits 11) 12)
  /\ (forall n e,
        n <= 11 ->
        throttled env (calls w) n ->
        llm_reply env (calls w + n) = Err e ->
        Kg.is_rate_limit e = false ->
        outcome_is describe w (Ret EmptyString) (waits n) (n + 1)
        /\ outcome_is extract w (Ret []) (waits n) (n + 1)).
Proof.
  intros Htext describe extract waits.
  assert (Hok : forall n content,
             n <= 11 -> throttled env (calls w) n ->
             llm_reply env (calls w + n) = Ok content ->
             outcome_is describe w (Ret (Text.strip content)) (waits n) (n + 1)
             /\ outcome_is extract w (Ret (Kg.parse_response content))
                           (waits n) (n + 1)).
  { intros n content Hn Hth Hc. split.
    - eapply analyze_summary with (tail := []);
        [apply analyze_success; eassumption | reflexivity | reflexivity].
    - eapply extract_summary with (tail := []);
        [apply extract_success; eassumption | reflexivity | reflexivity]. }
  assert (Hfail : forall n e,
             n <= 11 -> throttled env (calls w) n ->
             llm_reply env (calls w + n) = Err e ->
             Kg.is_rate_limit e = false \/ n = 11 ->
             outcome_is describe w (Ret EmptyString) (waits n) (n + 1)
             /\ outcome_is extract w (Ret []) (waits n) (n + 1)).
  { intros n e Hn Hth He Hor. split.
    - eapply analyze_summary;
        [apply analyze_failure; eassumption | reflexivity | reflexivity].
    - eapply extract_summary;
        [apply extract_failure; eassumption | | ].
      + simpl. now destruct (n =? 11).
      + simpl. now destruct (n =? 11). }
  split; [|split; [|split; [|split]]].
  - intros content Hth Hc. apply (Hok 3 content); [lia | exact Hth | exact Hc].
  - destruct (first_decisive_reply env (calls w))
      as [n [Hn [Hth [[c Hc] | [e [He Hor]]]]]].
    + exists n, (Ret (Text.strip c)). split; [exact Hn|].
      now apply (Hok n c).
    + exists n, (Ret EmptyString). split; [exact Hn|].
      now apply (Hfail n e).
  - destruct (first_decisive_reply env (calls w))
      as [n [Hn [Hth [[c Hc] | [e [He Hor]]]]]].
    + exists n, (Ret (Kg.parse_response c)). split; [exact Hn|].
      now apply (Hok n c).
    + exists n, (Ret []). split; [exact Hn|].
      now apply (Hfail n e).
  - intros Hth.
    destruct (Hth 11) as [e [He Hrl]]; [lia|].
    apply (Hfail 11 e); [lia | | exact He | now right].
    intros i Hi. apply Hth. lia.
  - intros n e Hn Hth He Hrl. apply (Hfail n e); auto.
Qed.

Lemma throttling_retry_policy_witness :
  Text.truthy (Text.strip "Dogs are animals.") = true
  /\ throttled (throttled_thrice " dog | is-a | animal ") (calls fresh) 3
  /\ outcome_is
       (Ingest._analyze_image_with_gpt
          (throttled_thrice " dog | is-a | animal ") [] DescribeImage)
       fresh (Ret "dog | is-a | animal") [3; 4; 6] 4
  /\ outcome_is
       (Kg.extract_triples_from_text
          (throttled_thrice " dog | is-a | animal ") "Dogs are animals.")
       fresh (Ret [mkTriple "dog" "is-a" "animal"]) [3; 4; 6] 4.
Proof.
  assert (Hth : throttled (throttled_thrice " dog | is-a | animal ")
                          (calls fresh) 3).
  { intros i Hi. exists "Error code: 429 - Rate limit reached".
    destruct i as [|[|[|i]]]; try lia; split; reflexivity. }
  split; [reflexivity|]. split; [exact Hth|].
  destruct (throttling_retry_policy
              (throttled_thrice " dog | is-a | animal ") fresh []
              DescribeImage "Dogs are animals." eq_refl) as [Ha _].
  exact (Ha " dog | is-a | animal " Hth eq_refl).
Defined.

(** ** C7: the triple line parser *)

Lemma line_triples_malformed line :
  List.length (Text.split "|" line) <> 3
  \/ (exists f, In f (Text.split "|" line) /\ Text.strip f = EmptyString) ->
  line_triples line = [].
Proof.
  unfold line_triples. intros [Hlen | [f [Hin Hf]]].
  - destruct (Text.split "|" line) as [|a [|b [|c [|d l]]]]; try reflexivity.
    now contradiction Hlen.
  - destruct (Text.split "|" line) as [|a [|b [|c [|d l]]]]; try reflexivity.
    destruct Hin as [<- | [<- | [<- | []]]]; rewrite Hf; cbn [Text.truthy Text.is_empty negb andb];
      rewrite ?andb_false_r; reflexivity.
Qed.

(** C7.  The line parser of the Triple Extractor: the raw output
    ["dog | is-a | animal"] gives exactly the triple (dog, is-a, animal);
    ["bad line without pipes"] gives the empty list; in general the result
    is made line by line, a line whose split at the pipes does not have
    exactly 3 fields, or has a field that is empty after trimming,
    contributes nothing, every other line contributes its triple, and the
    call returns (it does not raise) whatever the lines are. *)
Theorem triple_line_parser :
  Kg.parse_response "dog | is-a | animal" = [mkTriple "dog" "is-a" "animal"]
  /\ Kg.parse_response "bad line without pipes" = []
  /\ (forall raw,
        Kg.parse_response raw
        = flat_map line_triples (Text.splitlines (Text.strip raw)))
  /\ (forall line,
        List.length (Text.split "|" line) <> 3
        \/ (exists f, In f (Text.split "|" line) /\ Text.strip f = EmptyString) ->
        line_triples line = [])
  /\ (forall line a b c,
        Text.split "|" line = [a; b; c] ->
        Text.strip a <> EmptyString -> Text.strip b <> EmptyString ->
        Text.strip c <> EmptyString ->
        line_triples line = [mkTriple (Text.strip a) (Text.strip b) (Text.strip c)])
  /\ (forall env text w raw,
        Text.truthy (Text.strip text) = true ->
        llm_reply env (calls w) = Ok raw ->
        run (Kg.extract_triples_from_text env text) w
        = Ret (Kg.parse_response raw)).
Proof.
  split; [reflexivity|]. split; [reflexivity|].
  split; [|split; [|split]].
  - intros raw. unfold Kg.parse_response. now rewrite parse_lines_spec.
  - exact line_triples_malformed.
  - intros line a b c Hs Ha Hb Hc. unfold line_triples. rewrite Hs.
    destruct (Text.strip a); [congruence|].
    destruct (Text.strip b); [congruence|].
    destruct (Text.strip c); [congruence|]. reflexivity.
  - intros env text w raw Htext Hraw.
    eapply run_of_eq. apply (extract_success env text Htext 0 w raw).
    + intros i Hi. lia.
    + lia.
    + now rewrite Nat.add_0_r.
Qed.

Lemma triple_line_parser_witness :
  (List.length (Text.split "|" "cat | | pet") <> 3
   \/ (exists f, In f (Text.split "|" "cat | | pet")
                 /\ Text.strip f = EmptyString))
  /\ line_triples "cat | | pet" = []
  /\ Kg.parse_response
       ("dog | is-a | animal" ++ String "010" "bad line without pipes"
        ++ String "010" "cat | | pet" ++ String "010" "a | b | c | d"
        ++ String "010" "  bird | can | fly  ")
     = [mkTriple "dog" "is-a" "animal"; mkTriple "bird" "can" "fly"].
Proof.
  assert (H : List.length (Text.split "|" "cat | | pet") <> 3
              \/ (exists f, In f (Text.split "|" "cat | | pet")
                            /\ Text.strip f = EmptyString)).
  { right. exists " ". split; [simpl; auto | reflexivity]. }
  split; [exact H|].
  destruct triple_line_parser as [_ [_ [Hraw [Hbad _]]]].
  split; [exact (Hbad _ H)|].
  rewrite Hraw. reflexivity.
Defined.

(** ** What a computation may do: a compositional invariant *)

Section Behaves.

Variable f : event -> bool.

Lemma behaves_ret r {A} (a : A) : behaves f r (ret a).
Proof.
  intros w. unfold after, run, ret; simpl. repeat split.
  - exists []. now rewrite app_nil_r.
  - intros _. now exists a.
Qed.

Lemma behaves_raise {A} e : behaves f true (@raise A e).
Proof.
  intros w. unfold after, run, raise; simpl. repeat split.
  - exists []. now rewrite app_nil_r.
  - discriminate.
Qed.

Lemma behaves_weaken r {A} (m : M A) : behaves f r m -> behaves f true m.
Proof.
  intros H w. destruct (H w) as [He [Hh _]]. repeat split; auto.
  discriminate.
Qed.

Lemma behaves_bind r {A B} (m : M A) (k : A -> M B) :
  behaves f r m -> (forall a, behaves f r (k a)) -> behaves f r (bind m k).
Proof.
  intros Hm Hk w. destruct (Hm w) as [[evs [Ht Hf]] [Hh Hr]].
  unfold after, run, bind in *. destruct (m w) as [[a|e] w1]; simpl in *.
  - destruct (Hk a w1) as [[evs2 [Ht2 Hf2]] [Hh2 Hr2]].
    unfold after, run in *. repeat split.
    + exists (evs ++ evs2)%list. rewrite Ht2, Ht, app_assoc. split; auto.
      rewrite forallb_app. now rewrite Hf, Hf2.
    + congruence.
    + exact Hr2.
  - repeat split.
    + now exists evs.
    + exact Hh.
    + intros Hr'. destruct (Hr Hr') as [a Ha]. discriminate.
Qed.

Lemma behaves_try r {A} (m : M A) (h : string -> M A) :
  behaves f true m -> (forall e, behaves f r (h e)) ->
  behaves f r (try_catch m h).
Proof.
  intros Hm Hh w. destruct (Hm w) as [[evs [Ht Hf]] [Ho _]].
  unfold after, run, try_catch in *. destruct (m w) as [[a|e] w1]; simpl in *.
  - repeat split.
    + now exists evs.
    + exact Ho.
    + intros _. now exists a.
  - destruct (Hh e w1) as [[evs2 [Ht2 Hf2]] [Ho2 Hr2]].
    unfold after, run in *. repeat split.
    + exists (evs ++ evs2)%list. rewrite Ht2, Ht, app_assoc. split; auto.
      rewrite forallb_app. now rewrite Hf, Hf2.
    + congruence.
    + exact Hr2.
Qed.

Lemma behaves_log r ev : f ev = true -> behaves f r (log ev).
Proof.
  intros H w. unfold after, run, log; simpl. repeat split.
  - exists [ev]. simpl. now rewrite H.
  - intros _. now exists tt.
Qed.

Lemma behaves_silent r {A} (m : M A) :
  (forall w, exists a, m w = (Ret a, mkWorld (trace w) (calls (snd (m w)))
                                         (kg_driver (snd (m w)))
                                         (graph (snd (m w)))
                                         (open_handles w))) ->
  behaves f r m.
Proof.
  intros H w. destruct (H w) as [a Ha]. unfold after, run.
  rewrite Ha; simpl. repeat split.
  - exists []. now rewrite app_nil_r.
  - intros _. now exists a.
Qed.

Lemma behaves_tick r : behaves f r tick.
Proof. apply behaves_silent. intros w. now exists (calls w). Qed.

Lemma behaves_get_kg_driver r : behaves f r get_kg_driver.
Proof.
  apply behaves_silent. intros w. exists (kg_driver w). now destruct w.
Qed.

Lemma behaves_set_kg_driver r d : behaves f r (set_kg_driver d).
Proof. apply behaves_silent. intros w. now exists tt. Qed.

Lemma behaves_get_graph r : behaves f r get_graph.
Proof. apply behaves_silent. intros w. exists (graph w). now destruct w. Qed.

Lemma behaves_set_graph r g : behaves f r (set_graph g).
Proof. apply behaves_silent. intros w. now exists tt. Qed.

Hypothesis logging : allows_logging f.

Lemma behaves_print r m : behaves f r (print m).
Proof. apply behaves_log, logging. Qed.

Lemma behaves_sleep r n : behaves f r (sleep n).
Proof. apply behaves_log, logging. Qed.

Variable env : Env.

Lemma behaves_invoke c req :
  f (EvInvoke c req) = true -> behaves f true (invoke env c req).
Proof.
  intros H. unfold invoke.
  apply behaves_bind; [now apply behaves_log|]. intros _.
  apply behaves_bind; [apply behaves_tick|]. intros k.
  destruct (llm_reply env k); [apply behaves_ret | apply behaves_raise].
Qed.

Lemma behaves_external r ev :
  f ev = true -> (r = false -> no_faults env) ->
  behaves f r (external env ev).
Proof.
  intros H Hnf. unfold external.
  apply behaves_bind; [now apply behaves_log|]. intros _.
  apply behaves_bind; [apply behaves_tick|]. intros k.
  destruct (fault env k) eqn:E; [|apply behaves_ret].
  destruct r; [apply behaves_raise|].
  rewrite (Hnf eq_refl k) in E. discriminate.
Qed.

End Behaves.

Lemma behaves_emitted f r {A} (m : M A) w :
  behaves f r m -> forallb f (emitted m w) = true.
Proof.
  intros H. destruct (H w) as [[evs [Ht Hf]] _].
  unfold emitted. rewrite Ht, skipn_length_app. exact Hf.
Qed.

Lemma behaves_trace f r {A} (m : M A) w :
  behaves f r m -> trace (after m w) = (trace w ++ emitted m w)%list.
Proof.
  intros H. destruct (H w) as [[evs [Ht Hf]] _].
  unfold emitted. now rewrite Ht, skipn_length_app.
Qed.

Ltac behave_step :=
  first
    [ apply behaves_ret
    | apply behaves_print; assumption
    | apply behaves_sleep; assumption
    | apply behaves_tick
    | apply behaves_get_kg_driver
    | apply behaves_set_kg_driver
    | apply behaves_get_graph
    | apply behaves_set_graph
    | apply behaves_bind; [|intros ?]
    | match goal with
      | |- behaves _ _ (if ?b then _ else _) => destruct b
      | |- behaves _ _ (match ?x with _ => _ end) => destruct x
      end ].

Ltac behave := repeat behave_step.

(** ** What the knowledge-graph functions may do *)

Section KgBehaves.

Variable f : event -> bool.
Hypothesis logging : allows_logging f.
Variable env : Env.

Lemma behaves_get_driver r :
  f EvDriver = true -> f (EvRun CyReturn1) = true ->
  behaves f r (Kg.get_driver env).
Proof.
  intros Hd Hr. unfold Kg.get_driver.
  apply behaves_bind; [apply behaves_get_kg_driver|]. intros d.
  apply behaves_bind; [|intros ?; apply behaves_get_kg_driver].
  destruct d as [d|].
  - apply behaves_ret.
  - apply behaves_try.
    + apply behaves_bind; [apply behaves_external; auto; discriminate|].
      intros _.
      apply behaves_bind; [apply behaves_set_kg_driver|]. intros _.
      apply behaves_bind; [apply behaves_external; auto; discriminate|].
      intros _. now apply behaves_print.
    + intros e. behave.
Qed.

Lemma behaves_extract_attempt r text attempt :
  f (EvInvoke Llm (ReqTriples text)) = true ->
  behaves f r (Kg.extract_attempt env text attempt).
Proof.
  intros Hi. unfold Kg.extract_attempt. apply behaves_try.
  - apply behaves_bind; [now apply behaves_invoke|]. intros ?.
    apply behaves_ret.
  - intros e. behave.
Qed.

Lemma behaves_extract_loop r text attempts :
  f (EvInvoke Llm (ReqTriples text)) = true ->
  behaves f r (Kg.extract_loop env text attempts).
Proof.
  intros Hi. induction attempts as [|a rest IH]; simpl.
  - apply behaves_ret.
  - apply behaves_bind; [now apply behaves_extract_attempt|].
    intros [triples|]; [apply behaves_ret | exact IH].
Qed.

Lemma behaves_extract r text :
  f (EvInvoke Llm (ReqTriples text)) = true ->
  behaves f r (Kg.extract_triples_from_text env text).
Proof.
  intros Hi. unfold Kg.extract_triples_from_text.
  destruct (negb (Text.truthy (Text.strip text))).
  - apply behaves_ret.
  - now apply behaves_extract_loop.
Qed.

Lemma behaves_collect r chunks acc :
  (forall ch, In ch chunks -> (String.length (page_content ch) <? 100) = false ->
              f (EvInvoke Llm (ReqTriples (page_content ch))) = true) ->
  behaves f r (Kg.collect_triples env chunks acc).
Proof.
  revert acc. induction chunks as [|ch rest IH]; intros acc H; simpl.
  - apply behaves_ret.
  - destruct (String.length (page_content ch) <? 100) eqn:E.
    + apply IH. intros c Hc. apply H. now right.
    + apply behaves_bind.
      * apply behaves_extract. apply H; auto. now left.
      * intros triples. apply behaves_bind; [now apply behaves_sleep|].
        intros _. apply IH. intros c Hc. apply H. now right.
Qed.

Lemma behaves_run_merge r batch doc_id :
  f (EvRun (CyMerge batch doc_id)) = true -> (r = false -> no_faults env) ->
  behaves f r (Kg.run_merge env batch doc_id).
Proof.
  intros Hm Hnf. unfold Kg.run_merge.
  apply behaves_bind; [now apply behaves_external|]. intros _. behave.
Qed.

Lemma behaves_upload r all_triples doc_id starts :
  (forall batch, f (EvRun (CyMerge batch doc_id)) = true) ->
  (r = false -> no_faults env) ->
  behaves f r (Kg.upload_batches env all_triples doc_id starts).
Proof.
  intros Hm Hnf. induction starts as [|i rest IH]; simpl.
  - apply behaves_ret.
  - apply behaves_bind; [now apply behaves_run_merge|]. intros _.
    apply behaves_bind; [now apply behaves_print|]. intros _. exact IH.
Qed.

Lemma behaves_upsert r chunks doc_id :
  f EvDriver = true -> f (EvRun CyReturn1) = true ->
  (forall ch, In ch (every_second chunks) ->
              (String.length (page_content ch) <? 100) = false ->
              f (EvInvoke Llm (ReqTriples (page_content ch))) = true) ->
  (forall batch, f (EvRun (CyMerge batch doc_id)) = true) ->
  (r = false -> no_faults env) ->
  behaves f r (Kg.upsert_kg_from_chunks env chunks doc_id).
Proof.
  intros Hd Hr Hi Hm Hnf. unfold Kg.upsert_kg_from_chunks.
  apply behaves_bind; [now apply behaves_get_driver|]. intros [d|].
  - apply behaves_bind; [now apply behaves_print|]. intros _.
    apply behaves_bind; [now apply behaves_collect|]. intros [|t ts].
    + now apply behaves_print.
    + now apply behaves_upload.
  - now apply behaves_print.
Qed.

End KgBehaves.

(** ** C4: the graph store is unavailable *)

Lemma get_driver_unreachable env w :
  unreachable env w ->
  exists evs k e,
    Kg.get_driver env w
    = (Ret None,
       extend w (evs ++ [EvPrint (MsgCouldNotConnect e); EvPrint MsgKgDisabled])
              k)
    /\ (evs = [EvDriver] \/ evs = [EvDriver; EvRun CyReturn1]).
Proof.
  intros [Hnone [[e He] | [H0 [e He]]]].
  - exists [EvDriver], 1, e. split; [|now left].
    unfold Kg.get_driver.
    cbv [bind try_catch get_kg_driver set_kg_driver external log tick
         print ret raise].
    cbn [calls kg_driver trace graph open_handles]. rewrite Hnone.
    cbn [calls kg_driver trace graph open_handles]. rewrite He.
    cbn [calls kg_driver trace graph open_handles].
    unfold extend. rewrite Hnone. now rewrite <- !app_assoc.
  - exists [EvDriver; EvRun CyReturn1], 2, e. split; [|now right].
    unfold Kg.get_driver.
    cbv [bind try_catch get_kg_driver set_kg_driver external log tick
         print ret raise].
    cbn [calls kg_driver trace graph open_handles]. rewrite Hnone.
    cbn [calls kg_driver trace graph open_handles]. rewrite H0.
    cbn [calls kg_driver trace graph open_handles]. rewrite He.
    cbn [calls kg_driver trace graph open_handles].
    unfold extend. rewrite Hnone. now rewrite <- !app_assoc.
Qed.

(** C4.  When the graph store is unavailable (the connection cannot be
    established), for every input: [upsert_kg_from_chunks] returns without
    raising and is a no-op (the graph is unchanged, nothing is written, no
    capability is called, nothing is waited for), [query_kg_for_query]
    returns the empty list without raising and without reading the graph,
    and each of them prints the connection warning and its own notice. *)
Theorem graph_store_unavailable
  (env : Env) (w : World) (chunks : list Document) (doc_id : string)
  (query : string) (scope : option string) :
  unreachable env w ->
  let upsert := Kg.upsert_kg_from_chunks env chunks doc_id in
  let ask := Kg.query_kg_for_query env query scope in
  (run upsert w = Ret tt
   /\ graph (after upsert w) = graph w
   /\ merges (emitted upsert w) = []
   /\ invocations (emitted upsert w) = []
   /\ sleeps (emitted upsert w) = []
   /\ (exists e, In (MsgCouldNotConnect e) (prints (emitted upsert w)))
   /\ In MsgNeo4jSkipping (prints (emitted upsert w)))
  /\ (run ask w = Ret []
      /\ graph (after ask w) = graph w
      /\ graph_reads (emitted ask w) = []
      /\ invocations (emitted ask w) = []
      /\ (exists e, In (MsgCouldNotConnect e) (prints (emitted ask w)))
      /\ In MsgNeo4jEmpty (prints (emitted ask w))).
Proof.
  intros Hun upsert ask.
  destruct (get_driver_unreachable env w Hun) as [evs [k [e [Hg Hevs]]]].
  assert (Hup : upsert w
                = (Ret tt,
                   extend w (evs ++ [EvPrint (MsgCouldNotConnect e);
                                     EvPrint MsgKgDisabled;
                                     EvPrint MsgNeo4jSkipping]) k)).
  { unfold upsert, Kg.upsert_kg_from_chunks.
    erewrite bind_ret_step by exact Hg. cbv beta iota.
    rewrite print_run, extend_extend, <- app_assoc. reflexivity. }
  assert (Hask : ask w
                 = (Ret [],
                    extend w (evs ++ [EvPrint (MsgCouldNotConnect e);
                                      EvPrint MsgKgDisabled;
                                      EvPrint MsgNeo4jEmpty]) k)).
  { unfold ask, Kg.query_kg_for_query.
    erewrite bind_ret_step by exact Hg. cbv beta iota.
    erewrite bind_ret_step by apply print_run.
    unfold ret. rewrite extend_extend, <- app_assoc. reflexivity. }
  split.
  - rewrite (emitted_extend _ _ _ _ _ Hup), (run_of_eq _ _ _ _ Hup).
    unfold after. rewrite Hup.
    destruct Hevs as [-> | ->]; cbn; repeat split; eauto.
  - rewrite (emitted_extend _ _ _ _ _ Hask), (run_of_eq _ _ _ _ Hask).
    unfold after. rewrite Hask.
    destruct Hevs as [-> | ->]; cbn; repeat split; eauto.
Qed.

Lemma graph_store_unavailable_witness :
  unreachable graph_down fresh
  /\ run (Kg.upsert_kg_from_chunks graph_down
            [mkDocument "some text" None (Some 1) None None None] "doc-1")
         fresh = Ret tt
  /\ run (Kg.query_kg_for_query graph_down "what is a dog?" (Some "doc-1"))
         fresh = Ret [].
Proof.
  assert (H : unreachable graph_down fresh).
  { split; [reflexivity|]. left. now eexists. }
  split; [exact H|].
  destruct (graph_store_unavailable graph_down fresh
              [mkDocument "some text" None (Some 1) None None None] "doc-1"
              "what is a dog?" (Some "doc-1") H) as [[Hu _] [Hq _]].
  split; [exact Hu | exact Hq].
Defined.

(** ** Lists: every second element, slices and batches *)

Lemma every_second_nth {A} (xs : list A) k :
  nth_error (every_second xs) k = nth_error xs (2 * k).
Proof.
  revert xs. induction k as [|k IH]; intros [|x [|y rest]]; try reflexivity.
  - simpl. now destruct k.
  - change (every_second (x :: y :: rest)) with (x :: every_second rest).
    replace (2 * S k) with (S (S (2 * k))) by lia. simpl nth_error.
    apply IH.
Qed.

Lemma slice_skipn {A} (xs : list A) i n k :
  slice (skipn k xs) i n = slice xs (i + k) n.
Proof. unfold slice. now rewrite skipn_skipn. Qed.

Lemma slices_concat {A} n m : forall xs : list A,
  List.length xs <= m * n ->
  List.concat (map (fun k => slice xs (0 + k * n) n) (seq 0 m)) = xs.
Proof.
  induction m as [|m IH]; intros xs Hlen.
  - destruct xs; [reflexivity | simpl in Hlen; lia].
  - cbn [seq map List.concat]. rewrite <- seq_shift, map_map.
    transitivity (firstn n xs ++ skipn n xs)%list; [|apply firstn_skipn].
    f_equal.
    assert (Hrest : List.length (skipn n xs) <= m * n).
    { rewrite length_skipn. simpl in Hlen. lia. }
    rewrite <- (IH (skipn n xs) Hrest) at 1.
    f_equal. apply map_ext. intros k. rewrite slice_skipn.
    f_equal. lia.
Qed.

Lemma batch_count_bounds len n :
  0 < n ->
  len <= ((len - 0 + (n - 1)) / n) * n
  /\ (forall k, k < (len - 0 + (n - 1)) / n -> k * n < len).
Proof.
  intros Hn. pose proof (Nat.div_mod_eq (len - 0 + (n - 1)) n) as Hdm.
  pose proof (Nat.mod_upper_bound (len - 0 + (n - 1)) n ltac:(lia)) as Hub.
  set (q := (len - 0 + (n - 1)) / n) in *.
  set (r := (len - 0 + (n - 1)) mod n) in *. split.
  - nia.
  - intros k Hk. assert (S k <= q) by lia. nia.
Qed.

Lemma concat_batches {A} n (xs : list A) :
  0 < n -> List.concat (batches n xs) = xs.
Proof.
  intros Hn. unfold batches, range_step. rewrite map_map.
  apply slices_concat. now apply batch_count_bounds.
Qed.

Lemma batches_bounds {A} n (xs : list A) :
  0 < n ->
  Forall (fun b => 1 <= List.length b <= n) (batches n xs).
Proof.
  intros Hn. unfold batches, range_step. rewrite map_map.
  apply Forall_forall. intros b Hb. apply in_map_iff in Hb as [k [<- Hk]].
  apply in_seq in Hk. unfold slice.
  rewrite length_firstn, length_skipn.
  destruct (batch_count_bounds (List.length xs) n Hn) as [_ Hlt].
  specialize (Hlt k ltac:(lia)). lia.
Qed.

Lemma merge_batch_app g b1 b2 doc_id :
  Kg.merge_batch g (b1 ++ b2) doc_id
  = Kg.merge_batch (Kg.merge_batch g b1 doc_id) b2 doc_id.
Proof. unfold Kg.merge_batch. apply fold_left_app. Qed.

Lemma merge_batches_concat bs doc_id : forall g,
  fold_left (fun g b => Kg.merge_batch g b doc_id) bs g
  = Kg.merge_batch g (List.concat bs) doc_id.
Proof.
  induction bs as [|b bs IH]; intros g; simpl; auto.
  now rewrite IH, merge_batch_app.
Qed.

(** ** Computations that leave part of the world alone *)

Section Keeps.

Context {X : Type} (proj : World -> X).

Lemma keeps_ret {A} (a : A) : keeps proj (ret a).
Proof. intros w. reflexivity. Qed.

Lemma keeps_raise {A} e : keeps proj (@raise A e).
Proof. intros w. reflexivity. Qed.

Lemma keeps_bind {A B} (m : M A) (k : A -> M B) :
  keeps proj m -> (forall a, keeps proj (k a)) -> keeps proj (bind m k).
Proof.
  intros Hm Hk w. specialize (Hm w). unfold after, bind in *.
  destruct (m w) as [[a|e] w1]; simpl in *; [|exact Hm].
  rewrite <- Hm. apply Hk.
Qed.

Lemma keeps_try {A} (m : M A) (h : string -> M A) :
  keeps proj m -> (forall e, keeps proj (h e)) -> keeps proj (try_catch m h).
Proof.
  intros Hm Hh w. specialize (Hm w). unfold after, try_catch in *.
  destruct (m w) as [[a|e] w1]; simpl in *; [exact Hm|].
  rewrite <- Hm. apply Hh.
Qed.

End Keeps.

Lemma keeps_graph_log ev : keeps graph (log ev).
Proof. intros w. reflexivity. Qed.

Lemma keeps_graph_invoke env c r : keeps graph (invoke env c r).
Proof.
  unfold invoke. apply keeps_bind; [apply keeps_graph_log|]. intros _.
  apply keeps_bind; [intros w; reflexivity|]. intros k.
  destruct (llm_reply env k); [apply keeps_ret | apply keeps_raise].
Qed.

Lemma keeps_graph_extract env text :
  keeps graph (Kg.extract_triples_from_text env text).
Proof.
  unfold Kg.extract_triples_from_text.
  destruct (negb (Text.truthy (Text.strip text))); [apply keeps_ret|].
  induction (seq 0 Kg.max_retries) as [|a rest IH]; simpl.
  - apply keeps_ret.
  - apply keeps_bind.
    + unfold Kg.extract_attempt. apply keeps_try.
      * apply keeps_bind; [apply keeps_graph_invoke|]. intros ?.
        apply keeps_ret.
      * intros e. destruct (Kg.is_rate_limit e && (a <? Kg.max_retries - 1)).
        -- repeat (apply keeps_bind; [apply keeps_graph_log|]; intros _).
           apply keeps_ret.
        -- apply keeps_bind; [apply keeps_graph_log|]. intros _.
           apply keeps_bind; [|intros _; apply keeps_ret].
           destruct (a =? Kg.max_retries - 1);
             [apply keeps_graph_log | apply keeps_ret].
    + intros [triples|]; [apply keeps_ret | exact IH].
Qed.

Lemma keeps_graph_extract_each env texts : keeps graph (extract_each env texts).
Proof.
  induction texts as [|t rest IH]; simpl; [apply keeps_ret|].
  apply keeps_bind; [apply keeps_graph_extract|]. intros triples.
  apply keeps_bind; [apply keeps_graph_log|]. intros _.
  apply keeps_bind; [exact IH|]. intros more. apply keeps_ret.
Qed.

(** ** Knowledge-graph upsert *)

Section Upsert.

Variable env : Env.

Lemma behaves_extract_each f r texts :
  allows_logging f ->
  (forall t, In t texts -> f (EvInvoke Llm (ReqTriples t)) = true) ->
  behaves f r (extract_each env texts).
Proof.
  intros Hlog. induction texts as [|t rest IH]; intros H; simpl.
  - apply behaves_ret.
  - apply behaves_bind.
    + apply behaves_extract; auto. apply H. now left.
    + intros triples. apply behaves_bind; [now apply behaves_sleep|].
      intros _. apply behaves_bind.
      * apply IH. intros t' Ht'. apply H. now right.
      * intros more. apply behaves_ret.
Qed.

(** The loop over the sampled chunks is [extract_each] on the texts of
    those that are long enough. *)
Lemma collect_triples_spec chunks : forall acc w,
  Kg.collect_triples env chunks acc w
  = bind (extract_each env (map page_content (filter long_enough chunks)))
         (fun more => ret (acc ++ more)%list) w.
Proof.
  induction chunks as [|ch rest IH]; intros acc w.
  - simpl. unfold bind, ret. simpl. now rewrite app_nil_r.
  - cbn [Kg.collect_triples filter]. unfold long_enough at 1.
    destruct (String.length (page_content ch) <? 100); cbn [negb].
    + apply IH.
    + cbn [map extract_each]. rewrite bind_assoc.
      apply bind_ext. intros triples w1.
      rewrite bind_assoc. apply bind_ext. intros _ w2.
      rewrite bind_assoc, IH. apply bind_ext. intros more w3.
      unfold bind, ret. now rewrite app_assoc.
Qed.

Hypothesis graph_works : no_faults env.

Lemma run_merge_run batch doc_id w :
  Kg.run_merge env batch doc_id w
  = (Ret tt,
     mkWorld (trace w ++ [EvRun (CyMerge batch doc_id)]) (S (calls w))
             (kg_driver w) (Kg.merge_batch (graph w) batch doc_id)
             (open_handles w)).
Proof.
  unfold Kg.run_merge.
  erewrite bind_ret_step by (apply external_ok, graph_works).
  reflexivity.
Qed.

Lemma upload_batches_run all_triples doc_id starts : forall w,
  exists w',
    Kg.upload_batches env all_triples doc_id starts w = (Ret tt, w')
    /\ exists evs,
         trace w' = (trace w ++ evs)%list
         /\ merges evs
            = map (fun i => (slice all_triples i Kg.BATCH_SIZE, doc_id)) starts
         /\ graph w'
            = fold_left (fun g b => Kg.merge_batch g b doc_id)
                (map (fun i => slice all_triples i Kg.BATCH_SIZE) starts)
                (graph w).
Proof.
  induction starts as [|i rest IH]; intros w.
  - exists w. split; [reflexivity|]. exists []. now rewrite app_nil_r.
  - cbn [Kg.upload_batches].
    erewrite bind_ret_step by apply run_merge_run.
    erewrite bind_ret_step by apply print_run.
    match goal with |- context [Kg.upload_batches _ _ _ _ ?w1] =>
      destruct (IH w1) as [w' [Hrun [evs [Ht [Hm Hg]]]]] end.
    exists w'. split; [exact Hrun|].
    exists ([EvRun (CyMerge (slice all_triples i Kg.BATCH_SIZE) doc_id);
             EvPrint (MsgUploadedKgBatch (i / Kg.BATCH_SIZE + 1)
                        (List.length (slice all_triples i Kg.BATCH_SIZE)))]
            ++ evs)%list.
    split; [|split].
    + rewrite Ht. cbn [extend trace]. now rewrite <- !app_assoc.
    + rewrite merges_app, Hm. reflexivity.
    + rewrite Hg. reflexivity.
Qed.

End Upsert.

Lemma emitted_of_trace {A} (m : M A) w evs :
  trace (after m w) = (trace w ++ evs)%list -> emitted m w = evs.
Proof. intros H. unfold emitted. rewrite H. apply skipn_length_app. Qed.

Lemma get_driver_connected env w d :
  kg_driver w = Some d -> Kg.get_driver env w = (Ret (Some d), w).
Proof.
  intros H. unfold Kg.get_driver.
  cbv [bind get_kg_driver ret]. rewrite H. cbv beta iota. now rewrite H.
Qed.

(** With the graph store answering, [get_driver] hands out a driver: the
    one held, or a new one after a successful connection. *)
Lemma get_driver_available env w :
  no_faults env ->
  exists d w0 evs,
    Kg.get_driver env w = (Ret (Some d), w0)
    /\ trace w0 = (trace w ++ evs)%list
    /\ merges evs = []
    /\ graph w0 = graph w.
Proof.
  intros Hnf. destruct (kg_driver w) as [d|] eqn:Hd.
  - exists d, w, []. split; [now apply get_driver_connected|].
    now rewrite app_nil_r.
  - exists Neo4jDriver,
      (mkWorld (trace w ++ [EvDriver; EvRun CyReturn1; EvPrint MsgConnected])
               (S (S (calls w))) (Some Neo4jDriver) (graph w)
               (open_handles w)),
      [EvDriver; EvRun CyReturn1; EvPrint MsgConnected].
    split; [|now split].
    unfold Kg.get_driver.
    cbv [bind try_catch get_kg_driver set_kg_driver external log tick
         print ret raise].
    cbn [calls kg_driver trace graph open_handles]. rewrite Hd.
    cbn [calls kg_driver trace graph open_handles]. rewrite !Hnf.
    cbn [calls kg_driver trace graph open_handles].
    now rewrite <- !app_assoc.
Qed.

Lemma not_merge_merges evs : forallb not_merge evs = true -> merges evs = [].
Proof.
  induction evs as [|ev evs IH]; intros H; [reflexivity|].
  simpl in H. apply andb_true_iff in H as [Hev Hrest].
  change (ev :: evs) with ([ev] ++ evs)%list. rewrite merges_app.
  rewrite (IH Hrest), app_nil_r.
  destruct ev as [| | | | | | | | | | |q]; try reflexivity.
  now destruct q.
Qed.

Lemma only_extracting_invocations texts evs c r :
  forallb (only_extracting texts) evs = true ->
  In (c, r) (invocations evs) ->
  c = Llm /\ exists t, In t texts /\ r = ReqTriples t.
Proof.
  induction evs as [|ev evs IH]; intros H Hin; [contradiction|].
  simpl in H. apply andb_true_iff in H as [Hev Hrest].
  change (ev :: evs) with ([ev] ++ evs)%list in Hin.
  rewrite invocations_app in Hin.
  apply in_app_or in Hin as [Hin | Hin]; [|now apply IH].
  destruct ev as [| |c' r'| | | | | | | | |]; try contradiction.
  destruct Hin as [Heq | []]. injection Heq as -> ->.
  destruct c; try discriminate. destruct r as [| t | | |]; try discriminate.
  split; [reflexivity|]. simpl in Hev.
  apply existsb_exists in Hev as [t' [Ht' Heq]].
  apply String.eqb_eq in Heq. subst t'. now exists t.
Qed.

(** ** C8: which chunks feed the graph, and how the triples are written *)

(** C8.  For every chunk list, [upsert_kg_from_chunks] samples exactly the
    chunks at the even indices 0, 2, 4, ..., skips the sampled chunks whose
    text is shorter than 100 characters, asks the Triple Extractor only
    about the remaining chunks, and, with the graph store answering,
    writes all collected triples to the graph in transaction batches that
    hold between 1 and 500 triples and together are exactly the collected
    triples in order. *)
Theorem upsert_sampling_and_batching
  (env : Env) (w : World) (chunks : list Document) (doc_id : string) :
  let upsert := Kg.upsert_kg_from_chunks env chunks doc_id in
  (forall k, nth_error (every_second chunks) k = nth_error chunks (2 * k))
  /\ (forall ch,
        In ch (picked chunks)
        <-> exists k, nth_error chunks (2 * k) = Some ch
                      /\ 100 <= String.length (page_content ch))
  /\ (forall c r,
        In (c, r) (invocations (emitted upsert w)) ->
        c = Llm
        /\ exists ch, In ch (picked chunks) /\ r = ReqTriples (page_content ch))
  /\ (no_faults env ->
      exists all_triples,
        run (extract_each env (map page_content (picked chunks)))
            (extend (after (Kg.get_driver env) w)
                    [EvPrint (MsgBuildingKg
                                (List.length (every_second chunks))
                                (List.length chunks))] 0)
        = Ret all_triples
        /\ run upsert w = Ret tt
        /\ merges (emitted upsert w)
           = map (fun b => (b, doc_id)) (batches 500 all_triples)
        /\ List.concat (batches 500 all_triples) = all_triples
        /\ Forall (fun b => 1 <= List.length b <= 500)
                  (batches 500 all_triples)
        /\ graph (after upsert w)
           = Kg.merge_batch (graph w) all_triples doc_id).
Proof.
  intros upsert. split; [intros k; apply every_second_nth|].
  split; [|split].
  - intros ch. unfold picked. rewrite filter_In. unfold long_enough.
    rewrite negb_true_iff, Nat.ltb_ge. split.
    + intros [Hin Hlen]. apply In_nth_error in Hin as [k Hk].
      exists k. now rewrite <- every_second_nth.
    + intros [k [Hk Hlen]]. split; [|exact Hlen].
      rewrite <- every_second_nth in Hk. eapply nth_error_In, Hk.
  - intros c r Hin.
    assert (Hb : behaves (only_extracting (map page_content (picked chunks)))
                         true upsert).
    { apply behaves_upsert; try reflexivity; try discriminate.
      - split; reflexivity.
      - intros ch Hch Hlen. simpl. apply existsb_exists.
        exists (page_content ch). split; [|apply String.eqb_refl].
        apply in_map. unfold picked. apply filter_In. split; [exact Hch|].
        unfold long_enough. now rewrite Hlen. }
    destruct (only_extracting_invocations _ _ c r
                (behaves_emitted _ _ _ w Hb) Hin) as [Hc [t [Ht Hr]]].
    split; [exact Hc|]. apply in_map_iff in Ht as [ch [<- Hch]].
    now exists ch.
  - intros Hnf.
    destruct (get_driver_available env w Hnf)
      as [d [w0 [evs0 [Hd [Ht0 [Hm0 Hg0]]]]]].
    rewrite (after_of_eq _ _ _ _ Hd).
    set (notice := EvPrint (MsgBuildingKg (List.length (every_second chunks))
                                          (List.length chunks))).
    set (w1 := extend w0 [notice] 0).
    set (texts := map page_content (picked chunks)).
    assert (Hb : behaves not_merge false (extract_each env texts)).
    { apply behaves_extract_each; [split; reflexivity | reflexivity]. }
    destruct (Hb w1) as [[evs1 [Ht1 Hf1]] [_ Hret]].
    destruct (Hret eq_refl) as [all_triples Hall].
    pose proof (keeps_graph_extract_each env texts w1) as Hg1.
    exists all_triples. split; [exact Hall|].
    assert (Hrun : extract_each env texts w1
                   = (Ret all_triples, after (extract_each env texts) w1)).
    { rewrite (run_after (extract_each env texts) w1). now rewrite Hall. }
    set (w2 := after (extract_each env texts) w1) in *.
    assert (Hstart : upsert w
                     = match all_triples with
                       | [] => print MsgNoTriples
                       | _ :: _ =>
                           Kg.upload_batches env all_triples doc_id
                             (range_step 0 (List.length all_triples)
                                         Kg.BATCH_SIZE)
                       end w2).
    { unfold upsert, Kg.upsert_kg_from_chunks.
      erewrite bind_ret_step by exact Hd.
      cbv beta iota. erewrite bind_ret_step by apply print_run.
      fold notice. fold w1. erewrite bind_ret_step.
      2:{ rewrite collect_triples_spec. fold (picked chunks). fold texts.
          erewrite bind_ret_step by exact Hrun. reflexivity. }
      cbn [app]. reflexivity. }
    pose proof (concat_batches 500 all_triples ltac:(lia)) as Hcat.
    pose proof (batches_bounds 500 all_triples ltac:(lia)) as Hbnd.
    assert (Hm1 : merges evs1 = []) by now apply not_merge_merges.
    assert (Hgraph : graph w2 = graph w).
    { rewrite Hg1. unfold w1. cbn [extend graph]. exact Hg0. }
    destruct all_triples as [|t ts].
    + rewrite print_run in Hstart.
      assert (Htr : trace (after upsert w)
                    = (trace w ++ (evs0 ++ [notice] ++ evs1
                                   ++ [EvPrint MsgNoTriples]))%list).
      { unfold after. rewrite Hstart. cbn [snd extend trace].
        rewrite Ht1. unfold w1. cbn [extend trace]. rewrite Ht0.
        now rewrite <- !app_assoc. }
      split; [exact (run_of_eq _ _ _ _ Hstart)|].
      split; [|split; [exact Hcat|split; [exact Hbnd|]]].
      * rewrite (emitted_of_trace _ _ _ Htr).
        rewrite !merges_app, Hm0, Hm1. reflexivity.
      * unfold after at 1. rewrite Hstart. cbn [snd extend graph].
        exact Hgraph.
    + destruct (upload_batches_run env Hnf (t :: ts) doc_id
                  (range_step 0 (List.length (t :: ts)) Kg.BATCH_SIZE) w2)
        as [w' [Hup [evs2 [Ht2 [Hm2 Hg2]]]]].
      rewrite Hup in Hstart.
      assert (Htr : trace (after upsert w)
                    = (trace w ++ (evs0 ++ [notice] ++ evs1 ++ evs2))%list).
      { unfold after. rewrite Hstart. cbn [snd].
        rewrite Ht2, Ht1. unfold w1. cbn [extend trace]. rewrite Ht0.
        now rewrite <- !app_assoc. }
      split; [exact (run_of_eq _ _ _ _ Hstart)|].
      split; [|split; [exact Hcat|split; [exact Hbnd|]]].
      * rewrite (emitted_of_trace _ _ _ Htr).
        rewrite !merges_app, Hm0, Hm1, Hm2.
        unfold batches. rewrite map_map. reflexivity.
      * unfold after at 1. rewrite Hstart. cbn [snd]. rewrite Hg2.
        rewrite Hgraph.
        rewrite merge_batches_concat.
        change (map (fun i => slice (t :: ts) i Kg.BATCH_SIZE)
                    (range_step 0 (List.length (t :: ts)) Kg.BATCH_SIZE))
          with (batches 500 (t :: ts)).
        now rewrite Hcat.
Qed.

Lemma upsert_sampling_and_batching_witness :
  no_faults (answering "dog | is-a | animal")
  /\ run (Kg.upsert_kg_from_chunks (answering "dog | is-a | animal")
            [text_chunk long_text; text_chunk long_text; text_chunk "short";
             text_chunk long_text; text_chunk long_text] "doc-1")
         fresh = Ret tt
  /\ merges (emitted
               (Kg.upsert_kg_from_chunks (answering "dog | is-a | animal")
                  [text_chunk long_text; text_chunk long_text;
                   text_chunk "short"; text_chunk long_text;
                   text_chunk long_text] "doc-1")
               fresh)
     = [([mkTriple "dog" "is-a" "animal"; mkTriple "dog" "is-a" "animal"],
         "doc-1")].
Proof.
  assert (Hnf : no_faults (answering "dog | is-a | animal"))
    by (intros k; reflexivity).
  split; [exact Hnf|].
  destruct (upsert_sampling_and_batching (answering "dog | is-a | animal")
              fresh
              [text_chunk long_text; text_chunk long_text; text_chunk "short";
               text_chunk long_text; text_chunk long_text] "doc-1")
    as [_ [_ [_ H]]].
  destruct (H Hnf) as [all_triples [Hall [Hrun [Hm _]]]].
  split; [exact Hrun|].
  vm_compute in Hall. injection Hall as <-.
  rewrite Hm. reflexivity.
Defined.

(** ** Knowledge-graph query: the relevance filter and its fallback *)

Section Query.

Variable env : Env.

Lemma filter_error query t ts w e :
  llm_reply env (calls w) = Err e ->
  Kg.filter_relevant_triples env query (t :: ts) w
  = (Ret (t :: ts),
     extend w [EvInvoke LlmDeterministic
                 (ReqRelevance query (Kg.format_triples 0 (t :: ts)));
               EvPrint (MsgErrorFiltering e)] 1).
Proof.
  intros H. unfold Kg.filter_relevant_triples.
  erewrite try_raise_step
    by (erewrite bind_raise_step by (apply invoke_err; exact H);
        reflexivity).
  erewrite bind_ret_step by apply print_run.
  unfold ret. now rewrite extend_extend.
Qed.

Lemma filter_none query t ts w content :
  llm_reply env (calls w) = Ok content ->
  Text.contains "NONE" (Text.strip content) = true ->
  Kg.filter_relevant_triples env query (t :: ts) w
  = (Ret [],
     extend w [EvInvoke LlmDeterministic
                 (ReqRelevance query (Kg.format_triples 0 (t :: ts)))] 1).
Proof.
  intros H Hnone. unfold Kg.filter_relevant_triples.
  erewrite try_ret_step; [reflexivity|].
  erewrite bind_ret_step by (apply invoke_ok; exact H).
  cbv beta zeta. now rewrite Hnone.
Qed.

Lemma run_match_rows scope entities w rows w3 :
  Kg.run_match env scope entities w = (Ret rows, w3) ->
  rows = Kg.match_rows (graph w) scope entities
  /\ List.length rows <= 50.
Proof.
  unfold Kg.run_match. intros H.
  assert (Hrows : rows = Kg.match_rows (graph w) scope entities).
  { revert H. cbv [bind external log tick get_graph ret raise].
    cbn [calls graph]. destruct (fault env (calls w)); intros H.
    - discriminate.
    - now injection H as <- _. }
  split; [exact Hrows|]. subst rows. unfold Kg.match_rows.
  rewrite length_firstn. lia.
Qed.

(** The query, once the driver, the entities and the candidate rows are
    there: everything hangs on what the relevance filter returns. *)
Lemma query_after_candidates query scope w d w1 entities w2 rows w3
      relevant w4 :
  Kg.get_driver env w = (Ret (Some d), w1) ->
  Kg.extract_entities_from_query env query w1 = (Ret entities, w2) ->
  entities <> [] ->
  Kg.run_match env (Kg.doc_filter scope) entities
               (extend w2 [EvPrint (MsgEntities entities)] 0)
  = (Ret rows, w3) ->
  rows <> [] ->
  Kg.filter_relevant_triples env query rows
    (extend w3 [EvPrint (MsgFoundCandidates (List.length rows))] 0)
  = (Ret relevant, w4) ->
  Kg.query_kg_for_query env query scope w
  = match relevant with
    | [] => (Ret (firstn 10 rows), extend w4 [EvPrint MsgFallbackTop10] 0)
    | _ :: _ =>
        (Ret relevant,
         extend w4 [EvPrint (MsgFoundRelevant (List.length relevant)
                                              (List.length rows))] 0)
    end.
Proof.
  intros Hd He Hne Hm Hrows Hf. unfold Kg.query_kg_for_query.
  erewrite bind_ret_step by exact Hd. cbv beta iota.
  erewrite bind_ret_step by exact He.
  erewrite bind_ret_step by apply print_run.
  destruct entities as [|en ens]; [congruence|].
  erewrite bind_ret_step by exact Hm.
  destruct rows as [|row rows']; [congruence|].
  erewrite bind_ret_step by apply print_run.
  erewrite bind_ret_step by exact Hf.
  destruct relevant as [|rel rels];
    erewrite bind_ret_step by apply print_run; reflexivity.
Qed.

End Query.

(** C9.  In a Knowledge Graph query, when the relevance filter returns an
    empty selection over a non-empty candidate set, the query returns the
    first 10 unfiltered candidates, not an empty result; the filter does
    so in particular when the capability answers [NONE]. *)
Theorem filter_fallback_first_ten
  (env : Env) (query : string) (scope : option string)
  (w w1 w2 w3 : World) (d : driver) (entities : list string)
  (rows : list triple) :
  Kg.get_driver env w = (Ret (Some d), w1) ->
  Kg.extract_entities_from_query env query w1 = (Ret entities, w2) ->
  entities <> [] ->
  Kg.run_match env (Kg.doc_filter scope) entities
               (extend w2 [EvPrint (MsgEntities entities)] 0)
  = (Ret rows, w3) ->
  rows <> [] ->
  let w3' := extend w3 [EvPrint (MsgFoundCandidates (List.length rows))] 0 in
  (forall w4,
      Kg.filter_relevant_triples env query rows w3' = (Ret [], w4) ->
      run (Kg.query_kg_for_query env query scope) w = Ret (firstn 10 rows)
      /\ firstn 10 rows <> [])
  /\ (forall content,
        llm_reply env (calls w3) = Ok content ->
        Text.contains "NONE" (Text.strip content) = true ->
        run (Kg.query_kg_for_query env query scope) w = Ret (firstn 10 rows)).
Proof.
  intros Hd He Hne Hm Hrows w3'.
  assert (Hgen : forall w4,
             Kg.filter_relevant_triples env query rows w3' = (Ret [], w4) ->
             run (Kg.query_kg_for_query env query scope) w
             = Ret (firstn 10 rows)).
  { intros w4 Hf. eapply run_of_eq.
    apply (query_after_candidates env query scope w d w1 entities w2 rows w3
             [] w4 Hd He Hne Hm Hrows Hf). }
  split.
  - intros w4 Hf. split; [now apply (Hgen w4)|].
    destruct rows; [congruence | discriminate].
  - intros content Hc Hnone. destruct rows as [|t ts]; [congruence|].
    eapply Hgen. exact (filter_none env query t ts w3' content Hc Hnone).
Qed.

Lemma filter_fallback_first_ten_witness :
  run (Kg.query_kg_for_query (query_env (Ok "NONE"))
         "what does the dog like?" (Some "doc-1"))
      (connected dog_graph)
  = Ret (firstn 10 (Kg.match_rows dog_graph (Some "doc-1") ["dog"; "dogs"]))
  /\ List.length (Kg.match_rows dog_graph (Some "doc-1") ["dog"; "dogs"]) = 12.
Proof.
  split; [|reflexivity].
  destruct (filter_fallback_first_ten (query_env (Ok "NONE"))
              "what does the dog like?" (Some "doc-1")
              (connected dog_graph) (connected dog_graph)
              (extend (connected dog_graph)
                 [EvInvoke LlmDeterministic
                    (ReqEntities "what does the dog like?")] 1)
              (extend (connected dog_graph)
                 [EvInvoke LlmDeterministic
                    (ReqEntities "what does the dog like?");
                  EvPrint (MsgEntities ["dog"; "dogs"]);
                  EvRun (CyMatch (Some "doc-1") ["dog"; "dogs"])] 2)
              Neo4jDriver ["dog"; "dogs"]
              (Kg.match_rows dog_graph (Some "doc-1") ["dog"; "dogs"])
              eq_refl eq_refl ltac:(discriminate) eq_refl
              ltac:(discriminate)) as [_ H].
  exact (H "NONE" eq_refl eq_refl).
Defined.

(** C10.  When the capability call of the relevance filter raises, the
    filter returns the whole candidate list unchanged, so the query
    returns all candidates, at most the 50 the graph read is capped at,
    and ends by reporting them as relevant: the first-10 fallback is not
    applied. *)
Theorem filter_failure_keeps_all
  (env : Env) (query : string) (scope : option string)
  (w w1 w2 w3 : World) (d : driver) (entities : list string)
  (rows : list triple) (e : string) :
  Kg.get_driver env w = (Ret (Some d), w1) ->
  Kg.extract_entities_from_query env query w1 = (Ret entities, w2) ->
  entities <> [] ->
  Kg.run_match env (Kg.doc_filter scope) entities
               (extend w2 [EvPrint (MsgEntities entities)] 0)
  = (Ret rows, w3) ->
  rows <> [] ->
  llm_reply env (calls w3) = Err e ->
  let w3' := extend w3 [EvPrint (MsgFoundCandidates (List.length rows))] 0 in
  run (Kg.filter_relevant_triples env query rows) w3' = Ret rows
  /\ Kg.query_kg_for_query env query scope w
     = (Ret rows,
        extend w3
          [EvPrint (MsgFoundCandidates (List.length rows));
           EvInvoke LlmDeterministic
             (ReqRelevance query (Kg.format_triples 0 rows));
           EvPrint (MsgErrorFiltering e);
           EvPrint (MsgFoundRelevant (List.length rows) (List.length rows))] 1)
  /\ rows = Kg.match_rows (graph w2) (Kg.doc_filter scope) entities
  /\ List.length rows <= 50.
Proof.
  intros Hd He Hne Hm Hrows Herr w3'.
  destruct rows as [|t ts]; [congruence|].
  assert (Hf : Kg.filter_relevant_triples env query (t :: ts) w3'
               = (Ret (t :: ts),
                  extend w3' [EvInvoke LlmDeterministic
                                (ReqRelevance query
                                   (Kg.format_triples 0 (t :: ts)));
                              EvPrint (MsgErrorFiltering e)] 1))
    by (apply filter_error; exact Herr).
  split; [exact (run_of_eq _ _ _ _ Hf)|]. split.
  - rewrite (query_after_candidates env query scope w d w1 entities w2
               (t :: ts) w3 (t :: ts) _ Hd He Hne Hm Hrows Hf).
    unfold w3'. now rewrite !extend_extend.
  - exact (run_match_rows env _ _ _ _ _ Hm).
Qed.

Lemma filter_failure_keeps_all_witness :
  run (Kg.query_kg_for_query (query_env (Err "Connection error."))
         "what does the dog like?" (Some "doc-1"))
      (connected dog_graph)
  = Ret (Kg.match_rows dog_graph (Some "doc-1") ["dog"; "dogs"])
  /\ List.length (Kg.match_rows dog_graph (Some "doc-1") ["dog"; "dogs"]) = 12.
Proof.
  split; [|reflexivity].
  destruct (filter_failure_keeps_all (query_env (Err "Connection error."))
              "what does the dog like?" (Some "doc-1")
              (connected dog_graph) (connected dog_graph)
              (extend (connected dog_graph)
                 [EvInvoke LlmDeterministic
                    (ReqEntities "what does the dog like?")] 1)
              (extend (connected dog_graph)
                 [EvInvoke LlmDeterministic
                    (ReqEntities "what does the dog like?");
                  EvPrint (MsgEntities ["dog"; "dogs"]);
                  EvRun (CyMatch (Some "doc-1") ["dog"; "dogs"])] 2)
              Neo4jDriver ["dog"; "dogs"]
              (Kg.match_rows dog_graph (Some "doc-1") ["dog"; "dogs"])
              "Connection error."
              eq_refl eq_refl ltac:(discriminate) eq_refl
              ltac:(discriminate) eq_refl) as [_ [H _]].
  exact (run_of_eq _ _ _ _ H).
Defined.

(** ** Retrieval-answer synthesizer *)

Section Answer.

Variable env : Env.
Variables (question history : string) (docs : list Document)
          (kg : kg_input) (answer_lang : string).

Let answer :=
  RagChain.generate_answer_with_validation env question history docs kg
                                           answer_lang.
Let context_str := RagChain.format_docs docs.
Let kg_context_str := RagChain.format_kg kg.

Lemma answer_no_information w :
  Text.strip context_str = EmptyString ->
  Text.strip kg_context_str = EmptyString ->
  answer w = (Ret (RagChain.NO_INFORMATION, Float.f0_0, []), w).
Proof.
  intros Hc Hk. unfold answer, RagChain.generate_answer_with_validation.
  fold context_str kg_context_str. rewrite Hc, Hk. reflexivity.
Qed.

Lemma answer_unrelated w :
  Text.strip context_str <> EmptyString ->
  String.length (Text.strip context_str) < 50 ->
  Text.strip kg_context_str = EmptyString ->
  answer w = (Ret (RagChain.UNRELATED, Float.f0_1, []), w).
Proof.
  intros Hc Hlen Hk. unfold answer, RagChain.generate_answer_with_validation.
  fold context_str kg_context_str. rewrite Hk.
  apply Nat.ltb_lt in Hlen. rewrite Hlen.
  destruct (Text.strip context_str); [congruence|]. reflexivity.
Qed.

(** Past both early returns the capability is called, once. *)
Lemma answer_invokes w :
  answer w = (Ret (RagChain.NO_INFORMATION, Float.f0_0, []), w)
  \/ answer w = (Ret (RagChain.UNRELATED, Float.f0_1, []), w)
  \/ answer w
     = bind (invoke env Llm
               (ReqAnswer question
                  (RagChain.or_default history "(no previous conversation)")
                  context_str
                  (RagChain.or_default kg_context_str "(no KG facts)")
                  answer_lang))
            (fun response =>
               let text := Text.strip response in
               ret (text,
                    if RagChain.is_refusal text then Float.f0_2
                    else RagChain.score docs context_str,
                    RagChain.collect_image_paths docs [])) w.
Proof.
  unfold answer, RagChain.generate_answer_with_validation.
  fold context_str kg_context_str.
  destruct (negb (Text.truthy (Text.strip context_str))
            && negb (Text.truthy (Text.strip kg_context_str)));
    [now left|].
  destruct ((String.length (Text.strip context_str) <? 50)
            && negb (Text.truthy (Text.strip kg_context_str)));
    [right; now left|].
  right; right. reflexivity.
Qed.

End Answer.

Lemma leb_zero x : Float.leb Float.f0_0 x = not_negative x.
Proof. destruct x as [s|s| |s m e]; try destruct s; reflexivity. Qed.

Lemma ltb_leb x y : Float.ltb x y = true -> Float.leb x y = true.
Proof.
  unfold Float.ltb, Float.leb, SFltb, SFleb.
  destruct (SFcompare x y) as [[]|]; auto.
Qed.

Lemma shr_1_nonneg mrs : (0 <= shr_m mrs)%Z -> (0 <= shr_m (shr_1 mrs))%Z.
Proof.
  destruct mrs as [m r s]. cbn [shr_m]. intros H.
  destruct m as [|p|p]; [cbn; lia | | lia].
  destruct p; cbn; lia.
Qed.

Lemma iter_shr_1_nonneg p : forall mrs,
  (0 <= shr_m mrs)%Z -> (0 <= shr_m (iter_pos shr_1 p mrs))%Z.
Proof.
  induction p as [p IH|p IH|]; intros mrs H; cbn [iter_pos].
  - apply IH, IH, shr_1_nonneg, H.
  - apply IH, IH, H.
  - apply shr_1_nonneg, H.
Qed.

Lemma shr_fexp_nonneg prec emax m e l :
  (0 <= m)%Z -> (0 <= shr_m (fst (shr_fexp prec emax m e l)))%Z.
Proof.
  intros H. unfold shr_fexp, shr.
  assert (H0 : (0 <= shr_m (shr_record_of_loc m l))%Z).
  { destruct l as [|[]]; exact H. }
  destruct (_ - e)%Z; cbn [fst]; auto.
  now apply iter_shr_1_nonneg.
Qed.

Lemma round_nearest_even_nonneg m l :
  (0 <= m)%Z -> (0 <= round_nearest_even m l)%Z.
Proof.
  intros H. unfold round_nearest_even.
  destruct l as [|[]]; try lia. destruct (Z.even m); lia.
Qed.

(** Rounding a mantissa that is not negative, with the sign bit clear,
    gives zero, a positive number or plus infinity. *)
Lemma binary_round_aux_nonneg prec emax m e l :
  (0 <= m)%Z ->
  not_negative (binary_round_aux prec emax false m e l) = true.
Proof.
  intros H. unfold binary_round_aux.
  pose proof (shr_fexp_nonneg prec emax m e l H) as H1.
  destruct (shr_fexp prec emax m e l) as [mrs' e']. cbn [fst] in H1.
  pose proof (shr_fexp_nonneg prec emax _ e' loc_Exact
                (round_nearest_even_nonneg _ (loc_of_shr_record mrs') H1))
    as H2.
  destruct (shr_fexp prec emax _ e' loc_Exact) as [mrs'' e''].
  cbn [fst] in H2.
  destruct (shr_m mrs'') as [|p|p]; [reflexivity | | lia].
  destruct (Z.leb e'' (emax - prec)); reflexivity.
Qed.

Lemma binary_normalize_nonneg prec emax m e :
  (0 <= m)%Z -> not_negative (binary_normalize prec emax m e false) = true.
Proof.
  intros H. destruct m as [|p|p]; [reflexivity | | lia].
  cbn [binary_normalize]. unfold binary_round.
  destruct (shl_align _ _ _) as [mz ez]. now apply binary_round_aux_nonneg.
Qed.

Lemma of_nat_nonneg n : not_negative (Float.of_nat n) = true.
Proof. apply binary_normalize_nonneg. lia. Qed.

Lemma add_nonneg x y :
  not_negative x = true -> not_negative y = true ->
  not_negative (Float.add x y) = true.
Proof.
  destruct x as [sx|sx| |sx mx ex], y as [sy|sy| |sy my ey];
    cbn [not_negative]; intros Hx Hy; try discriminate;
    try (apply negb_true_iff in Hx; subst sx);
    try (apply negb_true_iff in Hy; subst sy);
    try reflexivity; try (destruct sx; reflexivity);
    try (destruct sx, sy; reflexivity).
  cbn [Float.add SFadd cond_Zopp]. apply binary_normalize_nonneg. lia.
Qed.

Lemma mul_nonneg x y :
  (exists m e, x = S754_finite false m e) -> not_negative y = true ->
  not_negative (Float.mul x y) = true.
Proof.
  intros [m [e ->]] Hy.
  destruct y as [sy|sy| |sy my ey]; cbn [not_negative] in Hy;
    try discriminate;
    try (apply negb_true_iff in Hy; subst sy); try reflexivity.
  cbn [Float.mul SFmul xorb]. now apply binary_round_aux_nonneg.
Qed.

Lemma div_nonneg x y :
  not_negative x = true -> (exists m e, y = S754_finite false m e) ->
  not_negative (Float.div x y) = true.
Proof.
  intros Hx [m [e ->]].
  destruct x as [sx|sx| |sx mx ex]; cbn [not_negative] in Hx;
    try discriminate;
    try (apply negb_true_iff in Hx; subst sx); try reflexivity.
  cbn [Float.div SFdiv xorb]. unfold SFdiv_core_binary.
  set (s := (_ - _ - _)%Z).
  set (m' := match s with
             | Zpos _ => Z.shiftl (Zpos mx) s
             | Z0 => Zpos mx
             | Zneg _ => Z0
             end).
  assert (Hm' : (0 <= m')%Z).
  { unfold m'. destruct s; try lia. apply Z.shiftl_nonneg. lia. }
  pose proof (Z.div_pos m' (Zpos m) Hm' ltac:(lia)) as Hq.
  unfold Z.div in Hq. destruct (Z.div_eucl m' (Zpos m)) as [q r].
  now apply binary_round_aux_nonneg.
Qed.

Lemma min_bounds x :
  not_negative x = true ->
  Float.leb Float.f0_0 (Float.min Float.f1_0 x) = true
  /\ Float.leb (Float.min Float.f1_0 x) Float.f1_0 = true.
Proof.
  intros Hx. unfold Float.min. destruct (Float.ltb x Float.f1_0) eqn:E.
  - split; [now rewrite leb_zero | now apply ltb_leb].
  - split; reflexivity.
Qed.

Lemma score_bounds docs context_str :
  Float.leb Float.f0_0 (RagChain.score docs context_str) = true
  /\ Float.leb (RagChain.score docs context_str) Float.f1_0 = true.
Proof.
  apply min_bounds. apply add_nonneg; [apply add_nonneg|].
  - reflexivity.
  - apply mul_nonneg; [now eexists _, _ | apply of_nat_nonneg].
  - apply div_nonneg; [apply of_nat_nonneg | now eexists _, _].
Qed.

Lemma emitted_unchanged {A} (m : M A) w r : m w = (r, w) -> emitted m w = [].
Proof.
  intros H. unfold emitted, after. rewrite H. simpl.
  rewrite <- (app_nil_r (trace w)) at 2. apply skipn_length_app.
Qed.

(** ** C5: answers given without calling the capability *)

(** The claim as stated fails: two retrieved documents without page
    metadata and without text give the formatted context of two line
    feeds, which is non-empty and shorter than 50 characters; with no graph
    facts the synthesizer answers with the insufficiency message and
    confidence 0, not with the unrelated-question answer and 0.1. *)
Lemma short_blank_context_counterexample :
  RagChain.format_docs [blank_doc; blank_doc] <> EmptyString
  /\ String.length (RagChain.format_docs [blank_doc; blank_doc]) < 50
  /\ RagChain.format_kg (KgList []) = EmptyString
  /\ run (RagChain.generate_answer_with_validation (answering "An answer.")
            "What is a dog?" EmptyString [blank_doc; blank_doc] (KgList [])
            "English") fresh
     = Ret (RagChain.NO_INFORMATION, Float.f0_0, [])
  /\ run (RagChain.generate_answer_with_validation (answering "An answer.")
            "What is a dog?" EmptyString [blank_doc; blank_doc] (KgList [])
            "English") fresh
     <> Ret (RagChain.UNRELATED, Float.f0_1, []).
Proof.
  split; [discriminate|]. split; [simpl; lia|]. split; [reflexivity|].
  split; [reflexivity|]. discriminate.
Qed.

(** C5, amended.  For every question text: given no retrieved chunks and no
    graph facts, and more generally whenever the formatted context and the
    formatted graph facts are both blank, the synthesizer returns the fixed
    insufficiency message with confidence 0.0 and no image paths; when the
    formatted context, trimmed of surrounding white space, is non-empty but
    shorter than 50 characters and the graph facts are blank, it returns
    the fixed unrelated-question answer with confidence 0.1 and no image
    paths.  In both cases the world is left as it was: the capability is
    not called. *)
Theorem answers_without_capability
  (env : Env) (w : World) (question history : string)
  (docs : list Document) (kg : kg_input) (answer_lang : string) :
  let answer :=
    RagChain.generate_answer_with_validation env question history docs kg
                                             answer_lang in
  (docs = [] -> kg = KgList [] \/ kg = KgText EmptyString ->
   answer w = (Ret (RagChain.NO_INFORMATION, Float.f0_0, []), w))
  /\ (Text.strip (RagChain.format_docs docs) = EmptyString ->
      Text.strip (RagChain.format_kg kg) = EmptyString ->
      answer w = (Ret (RagChain.NO_INFORMATION, Float.f0_0, []), w)
      /\ invocations (emitted answer w) = [])
  /\ (Text.strip (RagChain.format_docs docs) <> EmptyString ->
      String.length (Text.strip (RagChain.format_docs docs)) < 50 ->
      Text.strip (RagChain.format_kg kg) = EmptyString ->
      answer w = (Ret (RagChain.UNRELATED, Float.f0_1, []), w)
      /\ invocations (emitted answer w) = []).
Proof.
  intros answer. split; [|split].
  - intros -> Hkg. apply answer_no_information; [reflexivity|].
    destruct Hkg as [-> | ->]; reflexivity.
  - intros Hc Hk.
    pose proof (answer_no_information env question history docs kg
                  answer_lang w Hc Hk) as H.
    split; [exact H|]. fold answer in H.
    now rewrite (emitted_unchanged _ _ _ H).
  - intros Hc Hlen Hk.
    pose proof (answer_unrelated env question history docs kg
                  answer_lang w Hc Hlen Hk) as H.
    split; [exact H|]. fold answer in H.
    now rewrite (emitted_unchanged _ _ _ H).
Qed.

Lemma answers_without_capability_witness :
  Text.strip (RagChain.format_docs [text_chunk "Dogs bark."]) <> EmptyString
  /\ String.length (Text.strip (RagChain.format_docs [text_chunk "Dogs bark."]))
     < 50
  /\ Text.strip (RagChain.format_kg (KgList [])) = EmptyString
  /\ RagChain.generate_answer_with_validation (answering "An answer.")
       "What is photosynthesis?" EmptyString [text_chunk "Dogs bark."]
       (KgList []) "English" fresh
     = (Ret (RagChain.UNRELATED, Float.f0_1, []), fresh)
  /\ RagChain.generate_answer_with_validation (answering "An answer.")
       "What is photosynthesis?" EmptyString [] (KgList []) "English" fresh
     = (Ret (RagChain.NO_INFORMATION, Float.f0_0, []), fresh).
Proof.
  assert (Hc : Text.strip (RagChain.format_docs [text_chunk "Dogs bark."])
               <> EmptyString) by discriminate.
  assert (Hlen : String.length
                   (Text.strip (RagChain.format_docs [text_chunk "Dogs bark."]))
                 < 50) by (vm_compute; lia).
  split; [exact Hc|]. split; [exact Hlen|]. split; [reflexivity|].
  split.
  - destruct (answers_without_capability (answering "An answer.") fresh
                "What is photosynthesis?" EmptyString
                [text_chunk "Dogs bark."] (KgList []) "English")
      as [_ [_ H]].
    exact (proj1 (H Hc Hlen eq_refl)).
  - destruct (answers_without_capability (answering "An answer.") fresh
                "What is photosynthesis?" EmptyString [] (KgList [])
                "English") as [H _].
    exact (H eq_refl (or_introl eq_refl)).
Defined.

(** ** C6: the confidence estimate *)

Lemma prefix_lower p : forall s,
  String.prefix p s = true ->
  String.prefix (Text.lower p) (Text.lower s) = true.
Proof.
  induction p as [|a p IH]; intros s H; [destruct s; reflexivity|].
  destruct s as [|b s]; [discriminate|]. simpl in *.
  destruct (ascii_dec a b) as [->|]; [|discriminate].
  destruct (ascii_dec (Text.lower_char b) (Text.lower_char b)); [|congruence].
  now apply IH.
Qed.

Lemma contains_lower p : forall s,
  Text.contains p s = true ->
  Text.contains (Text.lower p) (Text.lower s) = true.
Proof.
  induction s as [|c s IH]; intros H.
  - simpl in *. rewrite orb_false_r in *. now apply (prefix_lower p EmptyString).
  - cbn [Text.contains] in H. apply orb_true_iff in H as [H | H].
    + cbn [Text.lower Text.contains].
      apply orb_true_iff. left. now apply (prefix_lower p (String c s)).
    + cbn [Text.lower Text.contains]. apply orb_true_iff. right. now apply IH.
Qed.

Lemma refusal_phrases_lower phrase :
  In phrase RagChain.refusal_phrases -> Text.lower phrase = phrase.
Proof.
  intros H. simpl in H.
  destruct H as [<- | [<- | [<- | [<- | [<- | []]]]]]; reflexivity.
Qed.

(** C6.  When the synthesizer calls the answer-generation capability and
    gets an answer, the returned confidence is 0.2 if the answer contains
    a phrase of the fixed refusal set (as written, or in any mix of upper
    and lower case: the answer is lower-cased before the test), and
    otherwise
    [min(1.0, 0.4 + 0.1 * number of retrieved chunks + context length / 5000)],
    computed in binary64 floating point, each operation rounded to
    nearest: the product first, then the two sums from the left, the
    quotient being that of the two integers; whatever path returns, the
    confidence lies between 0 and 1. *)
Theorem confidence_estimate
  (env : Env) (w : World) (question history : string)
  (docs : list Document) (kg : kg_input) (answer_lang : string) :
  let answer :=
    RagChain.generate_answer_with_validation env question history docs kg
                                             answer_lang in
  let context_str := RagChain.format_docs docs in
  (forall text confidence image_paths,
      run answer w = Ret (text, confidence, image_paths) ->
      Float.leb Float.f0_0 confidence = true
      /\ Float.leb confidence Float.f1_0 = true)
  /\ (forall content,
        invocations (emitted answer w) <> [] ->
        llm_reply env (calls w) = Ok content ->
        exists confidence image_paths,
          run answer w = Ret (Text.strip content, confidence, image_paths)
          /\ List.length (invocations (emitted answer w)) = 1
          /\ ((exists phrase,
                  In phrase RagChain.refusal_phrases
                  /\ Text.contains phrase (Text.lower (Text.strip content))
                     = true) ->
              confidence = Float.f0_2)
          /\ ((exists phrase,
                  In phrase RagChain.refusal_phrases
                  /\ Text.contains phrase (Text.strip content) = true) ->
              confidence = Float.f0_2)
          /\ ((forall phrase,
                  In phrase RagChain.refusal_phrases ->
                  Text.contains phrase (Text.lower (Text.strip content))
                  = false) ->
              let product :=
                Float.mul Float.f0_1 (Float.of_nat (List.length docs)) in
              let quotient :=
                Float.div (Float.of_nat (String.length context_str))
                          (Float.of_nat 5000) in
              let sum := Float.add (Float.add Float.f0_4 product) quotient in
              confidence = (if Float.ltb sum Float.f1_0 then sum
                            else Float.f1_0))).
Proof.
  intros answer context_str.
  destruct (answer_invokes env question history docs kg answer_lang w)
    as [H | [H | H]]; fold answer in H.
  - split.
    + intros text c ps Hr. rewrite (run_of_eq _ _ _ _ H) in Hr.
      injection Hr as _ <- _. split; reflexivity.
    + intros content Hinv. now rewrite (emitted_unchanged _ _ _ H) in Hinv.
  - split.
    + intros text c ps Hr. rewrite (run_of_eq _ _ _ _ H) in Hr.
      injection Hr as _ <- _. split; reflexivity.
    + intros content Hinv. now rewrite (emitted_unchanged _ _ _ H) in Hinv.
  - split.
    + intros text c ps Hr. unfold run in Hr. rewrite H in Hr.
      destruct (llm_reply env (calls w)) as [content|e] eqn:E.
      * erewrite bind_ret_step in Hr by (apply invoke_ok; exact E).
        cbv beta zeta in Hr. unfold ret in Hr. simpl fst in Hr.
        injection Hr as _ <- _.
        destruct (RagChain.is_refusal (Text.strip content)).
        -- split; reflexivity.
        -- apply score_bounds.
      * erewrite bind_raise_step in Hr by (apply invoke_err; exact E).
        discriminate.
    + intros content _ Hc.
      erewrite bind_ret_step in H by (apply invoke_ok; exact Hc).
      cbv beta zeta in H. unfold ret in H.
      eexists _, _. split; [exact (run_of_eq _ _ _ _ H)|].
      split; [now rewrite (emitted_extend _ _ _ _ _ H)|].
      assert (Hyes : (exists phrase,
                         In phrase RagChain.refusal_phrases
                         /\ Text.contains phrase
                              (Text.lower (Text.strip content)) = true) ->
                     RagChain.is_refusal (Text.strip content) = true).
      { intros Hex. unfold RagChain.is_refusal. apply existsb_exists.
        exact Hex. }
      split; [|split].
      * intros Hex. now rewrite (Hyes Hex).
      * intros [phrase [Hin Hc']]. rewrite Hyes; [reflexivity|].
        exists phrase. split; [exact Hin|].
        rewrite <- (refusal_phrases_lower phrase Hin).
        now apply contains_lower.
      * intros Hall.
        assert (Hr : RagChain.is_refusal (Text.strip content) = false).
        { unfold RagChain.is_refusal.
          destruct (existsb _ RagChain.refusal_phrases) eqn:Ex; auto.
          apply existsb_exists in Ex as [ph [Hin Hph]].
          rewrite (Hall ph Hin) in Hph. discriminate. }
        now rewrite Hr.
Qed.

Lemma confidence_estimate_witness :
  run (RagChain.generate_answer_with_validation
         (answering "I don't know based on the document.")
         "Who wrote it?" EmptyString [text_chunk long_text] (KgList [])
         "English") fresh
  = Ret ("I don't know based on the document.", Float.f0_2, [])
  /\ run (RagChain.generate_answer_with_validation
            (answering "A dog is a domesticated wolf.")
            "What is a dog?" EmptyString [text_chunk long_text] (KgList [])
            "English") fresh
     = Ret ("A dog is a domesticated wolf.",
            S754_finite false 4737786807993762 (-53), [])
  /\ RagChain.score [blank_doc; blank_doc; blank_doc]
                    (string_of_list_ascii (repeat "a"%char 104))
     = S754_finite false 6492389222817308 (-53).
Proof.
  split; [|split; [|vm_compute; reflexivity]].
  - destruct (confidence_estimate
                (answering "I don't know based on the document.") fresh
                "Who wrote it?" EmptyString [text_chunk long_text] (KgList [])
                "English") as [_ H].
    destruct (H "I don't know based on the document."
                ltac:(discriminate) eq_refl)
      as [c [ps [Hrun [_ [Hyes _]]]]].
    rewrite Hrun. vm_compute in Hrun. injection Hrun as _ Hps.
    rewrite <- Hps.
    rewrite (Hyes (ex_intro _ "don't know based on"
                     (conj (or_intror (or_introl eq_refl)) eq_refl))).
    reflexivity.
  - destruct (confidence_estimate
                (answering "A dog is a domesticated wolf.") fresh
                "What is a dog?" EmptyString [text_chunk long_text] (KgList [])
                "English") as [_ H].
    destruct (H "A dog is a domesticated wolf."
                ltac:(discriminate) eq_refl)
      as [c [ps [Hrun [_ [_ [_ Hno]]]]]].
    rewrite Hrun. vm_compute in Hrun. injection Hrun as Hc Hps.
    rewrite <- Hps.
    rewrite (Hno ltac:(intros phrase Hin; simpl in Hin;
                       destruct Hin as [<- | [<- | [<- | [<- | [<- | []]]]]];
                       vm_compute; reflexivity)).
    vm_compute. reflexivity.
Defined.

(** ** What the ingestion functions may do *)

Section IngestBehaves.

Variable f : event -> bool.
Hypothesis logging : allows_logging f.
Variable env : Env.

Lemma behaves_analyze r img prompt :
  f (EvInvoke LlmVision (ReqVision prompt img)) = true ->
  behaves f r (Ingest._analyze_image_with_gpt env img prompt).
Proof.
  intros Hi. unfold Ingest._analyze_image_with_gpt. apply behaves_try.
  - induction (seq 0 Ingest.max_retries) as [|a rest IH]; simpl.
    + apply behaves_ret.
    + apply behaves_bind.
      * unfold Ingest.analyze_attempt. apply behaves_try.
        -- apply behaves_bind; [now apply behaves_invoke|]. intros ?.
           apply behaves_ret.
        -- intros e.
           destruct (Ingest.is_rate_limit e && (a <? Ingest.max_retries - 1));
             [behave | apply behaves_raise].
      * intros [description|]; [apply behaves_ret | exact IH].
  - intros e. behave.
Qed.

Lemma behaves_fetch {A} (x : fetched A) : behaves f true (Ingest.fetch x).
Proof. destruct x; [apply behaves_ret | apply behaves_raise]. Qed.

Hypothesis vision : forall prompt img,
  f (EvInvoke LlmVision (ReqVision prompt img)) = true.
Hypothesis writes : forall path data, f (EvWriteFile path data) = true.

Lemma behaves_extract_images images : forall idx page_num doc_id name docs,
  behaves f true
    (Ingest.extract_images env images idx page_num doc_id name docs).
Proof.
  induction images as [|img rest IH]; intros idx page_num doc_id name docs;
    simpl.
  - apply behaves_ret.
  - apply behaves_bind; [apply behaves_fetch|]. intros base.
    match goal with
    | |- behaves _ _ (if ?b then _ else _) => destruct b
    end; [apply IH|].
    apply behaves_bind;
      [apply behaves_external; [apply writes | discriminate]|]. intros _.
    apply behaves_bind; [apply behaves_analyze, vision|]. intros d.
    cbv zeta. apply IH.
Qed.

Lemma behaves_process_page doc_pdf i doc_id name deep_ocr :
  behaves f true (Ingest._process_pdf_page env doc_pdf i doc_id name deep_ocr).
Proof.
  unfold Ingest._process_pdf_page.
  apply behaves_bind.
  { unfold Ingest.load_page. destruct (nth_error doc_pdf i);
      [apply behaves_fetch | apply behaves_raise]. }
  intros page. apply behaves_bind.
  - destruct ((String.length (Text.strip (get_text page)) <? 50) && deep_ocr).
    + apply behaves_bind; [now apply behaves_print|]. intros _.
      apply behaves_bind; [apply behaves_fetch|]. intros img_bytes.
      apply behaves_bind; [apply behaves_analyze, vision|]. intros t.
      apply behaves_ret.
    + apply behaves_ret.
  - intros text. destruct deep_ocr.
    + apply behaves_bind; [apply behaves_fetch|]. intros image_list.
      apply behaves_extract_images.
    + apply behaves_ret.
Qed.

Lemma behaves_add_chunks r chunks :
  f EvPGVector = true ->
  (forall batch, f (EvAddDocuments batch) = true) ->
  (r = false -> no_faults env) ->
  behaves f r (VectorStore.add_chunks env chunks).
Proof.
  intros Hpg Hadd Hnf. unfold VectorStore.add_chunks.
  apply behaves_bind; [now apply behaves_external|]. intros _.
  induction (range_step 0 (List.length chunks) VectorStore.batch_size)
    as [|i rest IH]; simpl.
  - apply behaves_ret.
  - apply behaves_bind; [now apply behaves_external|]. intros _.
    apply behaves_bind; [now apply behaves_print|]. intros _. exact IH.
Qed.

End IngestBehaves.

Lemma quiet_logging : allows_logging quiet_step.
Proof. split; reflexivity. Qed.

Lemma quiet_no_progress evs :
  forallb quiet_step evs = true ->
  progress_calls evs = [] /\ handle_events evs = [].
Proof.
  induction evs as [|ev evs IH]; intros H; [now split|].
  simpl in H. apply andb_true_iff in H as [Hev Hrest].
  destruct (IH Hrest) as [Hp Hh].
  change (ev :: evs) with ([ev] ++ evs)%list.
  rewrite progress_calls_app, Hp. unfold handle_events in *.
  rewrite filter_app, Hh.
  destruct ev; try discriminate; split; reflexivity.
Qed.

Lemma run_bind_ret {A B} (m : M A) (k : A -> M B) w a w1 :
  m w = (Ret a, w1) -> run (bind m k) w = run (k a) w1.
Proof. intros H. unfold run. now rewrite (bind_ret_step _ _ _ _ _ H). Qed.

Lemma run_bind_raise {A B} (m : M A) (k : A -> M B) w e w1 :
  m w = (Raise e, w1) -> run (bind m k) w = Raise e.
Proof. intros H. unfold run. now rewrite (bind_raise_step _ _ _ _ _ H). Qed.

Lemma after_bind_ret {A B} (m : M A) (k : A -> M B) w a w1 :
  m w = (Ret a, w1) -> after (bind m k) w = after (k a) w1.
Proof. intros H. unfold after. now rewrite (bind_ret_step _ _ _ _ _ H). Qed.

Lemma after_bind_raise {A B} (m : M A) (k : A -> M B) w e w1 :
  m w = (Raise e, w1) -> after (bind m k) w = w1.
Proof. intros H. unfold after. now rewrite (bind_raise_step _ _ _ _ _ H). Qed.

Lemma behaves_returns f {A} (m : M A) w :
  behaves f false m -> exists a, m w = (Ret a, after m w).
Proof.
  intros H. destruct (H w) as [_ [_ Hr]]. destruct (Hr eq_refl) as [a Ha].
  exists a. rewrite (run_after m w). now rewrite Ha.
Qed.

(** ** Counting calls and failures *)

Lemma count_calls_app a b :
  count_calls (a ++ b) = count_calls a + count_calls b.
Proof. unfold count_calls. now rewrite filter_app, length_app. Qed.

Lemma failed_calls_app env a : forall k b,
  failed_calls env k (a ++ b)
  = (failed_calls env k a ++ failed_calls env (count_calls a + k) b)%list.
Proof.
  induction a as [|ev a IH]; intros k b; [reflexivity|].
  assert (Hs : failed_calls env (S k) (a ++ b)
               = (failed_calls env (S k) a
                  ++ failed_calls env (S (count_calls a + k)) b)%list).
  { rewrite IH. now rewrite Nat.add_succ_r. }
  destruct ev; cbn [app failed_calls]; unfold count_calls;
    cbn [filter is_call List.length Nat.add]; fold (count_calls a);
    try destruct (fault env k); rewrite ?Hs, ?IH; reflexivity.
Qed.

Lemma tolerated_app env bad k a b :
  tolerated env bad k (a ++ b)
  = tolerated env bad k a && tolerated env bad (count_calls a + k) b.
Proof. unfold tolerated. now rewrite failed_calls_app, forallb_app. Qed.

Lemma failed_calls_single env k ev :
  fault env k = None -> failed_calls env k [ev] = [].
Proof. intros H. destruct ev; cbn [failed_calls]; rewrite ?H; reflexivity. Qed.

Lemma failed_calls_quiet env k ev :
  is_call ev = false -> failed_calls env k [ev] = [].
Proof. destruct ev; try discriminate; reflexivity. Qed.

Lemma failed_calls_last env k before ev e :
  is_external ev = true ->
  fault env (count_calls before + k) = Some e ->
  failed_calls env k (before ++ [ev])
  = (failed_calls env k before ++ [ev])%list.
Proof.
  intros He Hf. rewrite failed_calls_app. f_equal.
  destruct ev; try discriminate; cbn [failed_calls]; now rewrite Hf.
Qed.

Lemma grows_same w : grows w w [].
Proof. unfold grows. now rewrite app_nil_r. Qed.

Lemma grows_trans w w1 w2 e1 e2 :
  grows w w1 e1 -> grows w1 w2 e2 -> grows w w2 (e1 ++ e2).
Proof.
  intros [Ht1 [Hc1 Ho1]] [Ht2 [Hc2 Ho2]]. repeat split.
  - now rewrite Ht2, Ht1, app_assoc.
  - rewrite Hc2, Hc1, count_calls_app. lia.
  - congruence.
Qed.

Lemma grows_extend w evs : grows w (extend w evs (count_calls evs)) evs.
Proof. repeat split. Qed.

Lemma grows_events w w1 evs evs' :
  grows w w1 evs -> trace w1 = (trace w ++ evs')%list -> evs' = evs.
Proof.
  intros [Ht _] H. rewrite Ht in H. now apply app_inv_head in H.
Qed.

Lemma grows_emitted {A} (m : M A) w evs :
  grows w (after m w) evs -> emitted m w = evs.
Proof. intros [Ht _]. now apply emitted_of_trace. Qed.

(** ** Failures that are contained *)

Section Contained.

Variable env : Env.
Variable bad : event -> bool.

Lemma contained_ret r {A} (a : A) : contained env bad r (ret a).
Proof.
  intros w. exists []. split; [apply grows_same|]. split; [reflexivity|].
  intros _. now exists a.
Qed.

Lemma contained_raise {A} e : contained env bad true (@raise A e).
Proof.
  intros w. exists []. split; [apply grows_same|]. split; [reflexivity|].
  discriminate.
Qed.

Lemma contained_weaken r {A} (m : M A) :
  contained env bad r m -> contained env bad true m.
Proof.
  intros H w. destruct (H w) as [evs [Hg [Ht _]]]. exists evs.
  split; [exact Hg|]. split; [exact Ht | discriminate].
Qed.

Lemma contained_bind r {A B} (m : M A) (k : A -> M B) :
  contained env bad r m -> (forall a, contained env bad r (k a)) ->
  contained env bad r (bind m k).
Proof.
  intros Hm Hk w. destruct (Hm w) as [evs [Hg [Ht Hr]]].
  unfold after, run, bind in *.
  destruct (m w) as [[a|e] w1]; cbn [fst snd] in *.
  - destruct (Hk a w1) as [evs2 [Hg2 [Ht2 Hr2]]].
    exists (evs ++ evs2)%list.
    split; [exact (grows_trans _ _ _ _ _ Hg Hg2)|]. split; [|exact Hr2].
    rewrite tolerated_app, Ht. destruct Hg as [_ [Hc _]]. now rewrite <- Hc.
  - exists evs. split; [exact Hg|]. split; [exact Ht|].
    intros Hr'. destruct (Hr Hr') as [a Ha]. discriminate.
Qed.

Lemma contained_try r {A} (m : M A) (h : string -> M A) :
  contained env bad true m -> (forall e, contained env bad r (h e)) ->
  contained env bad r (try_catch m h).
Proof.
  intros Hm Hh w. destruct (Hm w) as [evs [Hg [Ht _]]].
  unfold after, run, try_catch in *.
  destruct (m w) as [[a|e] w1]; cbn [fst snd] in *.
  - exists evs. split; [exact Hg|]. split; [exact Ht|].
    intros _. now exists a.
  - destruct (Hh e w1) as [evs2 [Hg2 [Ht2 Hr2]]].
    exists (evs ++ evs2)%list.
    split; [exact (grows_trans _ _ _ _ _ Hg Hg2)|]. split; [|exact Hr2].
    rewrite tolerated_app, Ht. destruct Hg as [_ [Hc _]]. now rewrite <- Hc.
Qed.

Lemma contained_log r ev : is_call ev = false -> contained env bad r (log ev).
Proof.
  intros H w. exists [ev]. split; [|split].
  - assert (Hc : count_calls [ev] = 0)
      by (unfold count_calls; cbn [filter]; now rewrite H).
    pose proof (grows_extend w [ev]) as Hg. rewrite Hc in Hg. exact Hg.
  - unfold tolerated. now rewrite failed_calls_quiet.
  - intros _. now exists tt.
Qed.

Lemma contained_print r m : contained env bad r (print m).
Proof. now apply contained_log. Qed.

Lemma contained_sleep r n : contained env bad r (sleep n).
Proof. now apply contained_log. Qed.

Lemma contained_silent r {A} (m : M A) :
  (forall w, exists a,
      run m w = Ret a /\ trace (after m w) = trace w
      /\ calls (after m w) = calls w
      /\ open_handles (after m w) = open_handles w) ->
  contained env bad r m.
Proof.
  intros H w. destruct (H w) as [a [Hr [Ht [Hc Ho]]]]. exists [].
  split; [|split; [reflexivity | intros _; now exists a]].
  unfold grows. now rewrite app_nil_r.
Qed.

Lemma contained_get_kg_driver r : contained env bad r get_kg_driver.
Proof. apply contained_silent. intros w. now exists (kg_driver w). Qed.

Lemma contained_set_kg_driver r d : contained env bad r (set_kg_driver d).
Proof. apply contained_silent. intros w. now exists tt. Qed.

Lemma contained_get_graph r : contained env bad r get_graph.
Proof. apply contained_silent. intros w. now exists (graph w). Qed.

Lemma contained_set_graph r g : contained env bad r (set_graph g).
Proof. apply contained_silent. intros w. now exists tt. Qed.

Lemma contained_invoke c req : contained env bad true (invoke env c req).
Proof.
  intros w. exists [EvInvoke c req].
  destruct (llm_reply env (calls w)) as [content|e] eqn:E.
  - rewrite (after_of_eq _ _ _ _ (invoke_ok env c req w content E)).
    split; [apply (grows_extend w [EvInvoke c req])|].
    split; [reflexivity | discriminate].
  - rewrite (after_of_eq _ _ _ _ (invoke_err env c req w e E)).
    split; [apply (grows_extend w [EvInvoke c req])|].
    split; [reflexivity | discriminate].
Qed.

Lemma contained_external r ev :
  is_call ev = true -> bad ev = false -> (r = false -> no_faults env) ->
  contained env bad r (external env ev).
Proof.
  intros Hc Hb Hnf w. exists [ev].
  assert (Hcount : count_calls [ev] = 1)
    by (unfold count_calls; cbn [filter]; now rewrite Hc).
  assert (Hg : grows w (extend w [ev] 1) [ev])
    by (rewrite <- Hcount; apply grows_extend).
  assert (Htol : tolerated env bad (calls w) [ev] = true).
  { unfold tolerated. destruct ev; cbn [failed_calls]; try reflexivity;
      destruct (fault env (calls w)); cbn [forallb]; rewrite ?Hb;
      reflexivity. }
  destruct (fault env (calls w)) as [e|] eqn:E.
  - rewrite (after_of_eq _ _ _ _ (external_err env ev w e E)).
    split; [exact Hg|]. split; [exact Htol|].
    intros Hr. rewrite (Hnf Hr) in E. discriminate.
  - rewrite (after_of_eq _ _ _ _ (external_ok env ev w E)).
    split; [exact Hg|]. split; [exact Htol|].
    intros _. exists tt. exact (run_of_eq _ _ _ _ (external_ok env ev w E)).
Qed.

(** ** Failures that end the computation *)

Lemma strict_of_contained {A} (m : M A) :
  contained env bad false m -> strict env bad m.
Proof.
  intros H w. destruct (H w) as [evs [Hg [Ht Hr]]]. exists evs.
  split; [exact Hg|]. destruct (Hr eq_refl) as [a Ha]. now rewrite Ha.
Qed.

Lemma strict_ret_bind {A B} (a : A) (k : A -> M B) :
  strict env bad (k a) -> strict env bad (bind (ret a) k).
Proof. intros H w. exact (H w). Qed.

Lemma strict_bind {A B} (m : M A) (k : A -> M B) :
  strict env bad m -> (forall a, strict env bad (k a)) ->
  strict env bad (bind m k).
Proof.
  intros Hm Hk w. destruct (Hm w) as [evs [Hg Hcase]].
  unfold after, run, bind in *.
  destruct (m w) as [[a|e] w1]; cbn [fst snd] in *.
  - destruct (Hk a w1) as [evs2 [Hg2 Hcase2]].
    unfold after, run in Hg2, Hcase2.
    assert (Hc : calls w1 = count_calls evs + calls w) by apply Hg.
    exists (evs ++ evs2)%list.
    split; [exact (grows_trans _ _ _ _ _ Hg Hg2)|].
    destruct (k a w1) as [[b|e] w2]; cbn [fst snd] in *.
    + rewrite tolerated_app, Hcase, <- Hc. exact Hcase2.
    + destruct Hcase2 as [before [ev [-> [Hb [Hf Ht]]]]].
      exists (evs ++ before)%list, ev.
      split; [now rewrite app_assoc|]. split; [exact Hb|]. split.
      * rewrite count_calls_app, <- Hf. f_equal. lia.
      * rewrite tolerated_app, Hcase, <- Hc. exact Ht.
  - exists evs. split; [exact Hg | exact Hcase].
Qed.

Lemma strict_external ev :
  is_call ev = true -> bad ev = true -> strict env bad (external env ev).
Proof.
  intros Hc Hb w. exists [ev].
  assert (Hcount : count_calls [ev] = 1)
    by (unfold count_calls; cbn [filter]; now rewrite Hc).
  assert (Hg : grows w (extend w [ev] 1) [ev])
    by (rewrite <- Hcount; apply grows_extend).
  destruct (fault env (calls w)) as [e|] eqn:E.
  - rewrite (after_of_eq _ _ _ _ (external_err env ev w e E)),
            (run_of_eq _ _ _ _ (external_err env ev w e E)).
    split; [exact Hg|]. exists [], ev. repeat split; auto.
  - rewrite (after_of_eq _ _ _ _ (external_ok env ev w E)),
            (run_of_eq _ _ _ _ (external_ok env ev w E)).
    split; [exact Hg|]. unfold tolerated. now rewrite failed_calls_single.
Qed.

Hypothesis bad_external : forall ev, bad ev = true -> is_external ev = true.

(** Under a strict computation the result tells whether a marked call
    failed. *)
Lemma strict_raised {A} (m : M A) w e :
  strict env bad m -> run m w = Raise e ->
  tolerated env bad (calls w) (emitted m w) = false.
Proof.
  intros H Hr. destruct (H w) as [evs [Hg Hcase]]. rewrite Hr in Hcase.
  rewrite (grows_emitted _ _ _ Hg).
  destruct Hcase as [before [ev [-> [Hb [Hf Ht]]]]].
  unfold tolerated.
  rewrite (failed_calls_last env (calls w) before ev e (bad_external _ Hb) Hf).
  rewrite forallb_app. cbn [forallb]. rewrite Hb. cbn [negb andb].
  apply andb_false_r.
Qed.

End Contained.

Ltac contain_step :=
  first
    [ apply contained_ret
    | apply contained_print
    | apply contained_sleep
    | apply contained_get_kg_driver
    | apply contained_set_kg_driver
    | apply contained_get_graph
    | apply contained_set_graph
    | apply contained_bind; [|intros ?]
    | match goal with
      | |- contained _ _ _ (if ?b then _ else _) => destruct b
      | |- contained _ _ _ (match ?x with _ => _ end) => destruct x
      end ].

Ltac contain := repeat contain_step.

Lemma grows_behaves env bad f r r' {A} (m : M A) w :
  behaves f r m -> contained env bad r' m ->
  exists evs,
    grows w (after m w) evs /\ forallb f evs = true
    /\ tolerated env bad (calls w) evs = true.
Proof.
  intros Hb Hc. destruct (Hb w) as [[evs' [Ht' Hf]] _].
  destruct (Hc w) as [evs [Hg [Ht _]]]. exists evs.
  split; [exact Hg|]. split; [|exact Ht].
  now rewrite <- (grows_events _ _ _ _ Hg Ht').
Qed.

(** ** What may fail in the knowledge-graph and ingestion functions *)

Section ContainedModel.

Variable env : Env.
Variable bad : event -> bool.

Lemma contained_analyze r img prompt :
  contained env bad r (Ingest._analyze_image_with_gpt env img prompt).
Proof.
  unfold Ingest._analyze_image_with_gpt. apply contained_try.
  - induction (seq 0 Ingest.max_retries) as [|a rest IH]; simpl.
    + apply contained_ret.
    + apply contained_bind.
      * unfold Ingest.analyze_attempt. apply contained_try.
        -- apply contained_bind; [apply contained_invoke|]. intros ?.
           apply contained_ret.
        -- intros e.
           destruct (Ingest.is_rate_limit e && (a <? Ingest.max_retries - 1));
             [contain | apply contained_raise].
      * intros [description|]; [apply contained_ret | exact IH].
  - intros e. contain.
Qed.

Lemma contained_fetch {A} (x : fetched A) :
  contained env bad true (Ingest.fetch x).
Proof. destruct x; [apply contained_ret | apply contained_raise]. Qed.

Lemma contained_get_driver r :
  bad EvDriver = false -> bad (EvRun CyReturn1) = false ->
  contained env bad r (Kg.get_driver env).
Proof.
  intros Hd Hr. unfold Kg.get_driver.
  apply contained_bind; [apply contained_get_kg_driver|]. intros d.
  apply contained_bind; [|intros ?; apply contained_get_kg_driver].
  destruct d as [d|]; [apply contained_ret|].
  apply contained_try.
  - apply contained_bind; [apply contained_external; auto; discriminate|].
    intros _.
    apply contained_bind; [apply contained_set_kg_driver|]. intros _.
    apply contained_bind; [apply contained_external; auto; discriminate|].
    intros _. apply contained_print.
  - intros e. contain.
Qed.

Lemma contained_extract r text :
  contained env bad r (Kg.extract_triples_from_text env text).
Proof.
  unfold Kg.extract_triples_from_text.
  destruct (negb (Text.truthy (Text.strip text))); [apply contained_ret|].
  induction (seq 0 Kg.max_retries) as [|a rest IH]; simpl.
  - apply contained_ret.
  - apply contained_bind.
    + unfold Kg.extract_attempt. apply contained_try.
      * apply contained_bind; [apply contained_invoke|]. intros ?.
        apply contained_ret.
      * intros e. contain.
    + intros [triples|]; [apply contained_ret | exact IH].
Qed.

Lemma contained_collect r chunks : forall acc,
  contained env bad r (Kg.collect_triples env chunks acc).
Proof.
  induction chunks as [|ch rest IH]; intros acc; simpl.
  - apply contained_ret.
  - destruct (String.length (page_content ch) <? 100); [apply IH|].
    apply contained_bind; [apply contained_extract|]. intros triples.
    apply contained_bind; [apply contained_sleep|]. intros _. apply IH.
Qed.

Hypothesis writes_contained : forall path data,
  bad (EvWriteFile path data) = false.

Lemma contained_extract_images images :
  forall idx page_num doc_id name docs,
    contained env bad true
      (Ingest.extract_images env images idx page_num doc_id name docs).
Proof.
  induction images as [|img rest IH]; intros idx page_num doc_id name docs;
    simpl.
  - apply contained_ret.
  - apply contained_bind; [apply contained_fetch|]. intros base.
    match goal with
    | |- contained _ _ _ (if ?b then _ else _) => destruct b
    end; [apply IH|].
    apply contained_bind;
      [apply contained_external; auto; discriminate|]. intros _.
    apply contained_bind;
      [apply (contained_weaken _ _ false), contained_analyze|]. intros d.
    cbv zeta. apply IH.
Qed.

Lemma contained_process_page doc_pdf i doc_id name deep_ocr :
  contained env bad true
    (Ingest._process_pdf_page env doc_pdf i doc_id name deep_ocr).
Proof.
  unfold Ingest._process_pdf_page.
  apply contained_bind.
  { unfold Ingest.load_page. destruct (nth_error doc_pdf i);
      [apply contained_fetch | apply contained_raise]. }
  intros page. apply contained_bind.
  - destruct ((String.length (Text.strip (get_text page)) <? 50) && deep_ocr).
    + apply contained_bind; [apply contained_print|]. intros _.
      apply contained_bind; [apply contained_fetch|]. intros img_bytes.
      apply contained_bind;
        [apply (contained_weaken _ _ false), contained_analyze|]. intros t.
      apply contained_ret.
    + apply contained_ret.
  - intros text. destruct deep_ocr.
    + apply contained_bind; [apply contained_fetch|]. intros image_list.
      apply contained_extract_images.
    + apply contained_ret.
Qed.

Hypothesis progress_contained : forall current total,
  bad (EvProgress current total) = false.

(** The loop body catches whatever the extraction and the callback
    raise. *)
Lemma contained_ingest_page doc_pdf total doc_id name deep_ocr cb i batch_docs :
  contained env bad false
    (Ingest.ingest_page env doc_pdf total doc_id name deep_ocr cb i batch_docs).
Proof.
  unfold Ingest.ingest_page. apply contained_try.
  - apply contained_bind; [apply contained_process_page|]. intros page_docs.
    cbv zeta. apply contained_try.
    + apply contained_bind.
      * destruct cb;
          [apply contained_external; auto; discriminate | apply contained_ret].
      * intros _. apply contained_bind; [|intros _; apply contained_ret].
        destruct deep_ocr; [apply contained_sleep | apply contained_ret].
    + intros e. apply contained_bind; [apply contained_print|].
      intros _. apply contained_ret.
  - intros e. apply contained_bind; [apply contained_print|].
    intros _. apply contained_ret.
Qed.

Lemma contained_ingest_pages doc_pdf total doc_id name deep_ocr cb pages :
  forall batch_docs,
    contained env bad false
      (Ingest.ingest_pages env doc_pdf total doc_id name deep_ocr cb pages
         batch_docs).
Proof.
  induction pages as [|i rest IH]; intros batch_docs; simpl.
  - apply contained_ret.
  - apply contained_bind; [apply contained_ingest_page | exact IH].
Qed.

Hypothesis stores_contained :
  bad EvPGVector = false /\ bad EvDriver = false
  /\ bad (EvRun CyReturn1) = false
  /\ (forall docs, bad (EvSplit docs) = false)
  /\ (forall batch, bad (EvAddDocuments batch) = false)
  /\ (forall batch doc_id, bad (EvRun (CyMerge batch doc_id)) = false).

Lemma contained_downstream doc_id (batch_docs : list Document) batch_start :
  contained env bad true
    (external env (EvSplit batch_docs) ;;
     let chunks := split_documents env batch_docs in
     VectorStore.add_chunks env chunks ;;
     Kg.upsert_kg_from_chunks env chunks doc_id ;;
     print (MsgUploadedBatch (batch_start / Ingest.BATCH_SIZE + 1)
                             (List.length chunks))).
Proof.
  destruct stores_contained as [Hpg [Hd [Hr [Hs [Ha Hm]]]]].
  apply contained_bind; [apply contained_external; auto; discriminate|].
  intros _. cbv zeta. apply contained_bind.
  { unfold VectorStore.add_chunks.
    apply contained_bind; [apply contained_external; auto; discriminate|].
    intros _.
    induction (range_step 0 _ VectorStore.batch_size) as [|i rest IH]; simpl.
    - apply contained_ret.
    - apply contained_bind; [apply contained_external; auto; discriminate|].
      intros _. apply contained_bind; [apply contained_print|]. intros _.
      exact IH. }
  intros _. apply contained_bind; [|intros _; apply contained_print].
  unfold Kg.upsert_kg_from_chunks.
  apply contained_bind; [now apply contained_get_driver|].
  intros [d|]; [|apply contained_print].
  apply contained_bind; [apply contained_print|]. intros _.
  apply contained_bind; [apply contained_collect|].
  intros [|t ts]; [apply contained_print|].
  induction (range_step 0 _ Kg.BATCH_SIZE) as [|i rest IH]; simpl.
  - apply contained_ret.
  - apply contained_bind.
    + unfold Kg.run_merge.
      apply contained_bind; [apply contained_external; auto; discriminate|].
      intros _. contain.
    + intros _. apply contained_bind; [apply contained_print|]. intros _.
      exact IH.
Qed.

End ContainedModel.

(** ** Downstream failures end the ingestion *)

Section Downstream.

Variable env : Env.

Lemma downstream_external ev : downstream_call ev = true -> is_external ev = true.
Proof. destruct ev; try discriminate; reflexivity. Qed.

Lemma strict_downstream doc_id (batch_docs : list Document) batch_start :
  strict env downstream_call
    (external env (EvSplit batch_docs) ;;
     let chunks := split_documents env batch_docs in
     VectorStore.add_chunks env chunks ;;
     Kg.upsert_kg_from_chunks env chunks doc_id ;;
     print (MsgUploadedBatch (batch_start / Ingest.BATCH_SIZE + 1)
                             (List.length chunks))).
Proof.
  apply strict_bind; [now apply strict_external|]. intros _. cbv zeta.
  apply strict_bind.
  { unfold VectorStore.add_chunks.
    apply strict_bind; [now apply strict_external|]. intros _.
    induction (range_step 0 _ VectorStore.batch_size) as [|i rest IH]; simpl.
    - apply strict_of_contained, contained_ret.
    - apply strict_bind; [now apply strict_external|]. intros _.
      apply strict_bind; [apply strict_of_contained, contained_print|].
      intros _. exact IH. }
  intros _.
  apply strict_bind; [|intros _; apply strict_of_contained, contained_print].
  unfold Kg.upsert_kg_from_chunks.
  apply strict_bind;
    [apply strict_of_contained, contained_get_driver; reflexivity|].
  intros [d|]; [|apply strict_of_contained, contained_print].
  apply strict_bind; [apply strict_of_contained, contained_print|]. intros _.
  apply strict_bind; [apply strict_of_contained, contained_collect|].
  intros [|t ts]; [apply strict_of_contained, contained_print|].
  induction (range_step 0 _ Kg.BATCH_SIZE) as [|i rest IH]; simpl.
  - apply strict_of_contained, contained_ret.
  - apply strict_bind.
    + unfold Kg.run_merge.
      apply strict_bind; [now apply strict_external|]. intros _.
      apply strict_of_contained. contain.
    + intros _.
      apply strict_bind; [apply strict_of_contained, contained_print|].
      intros _. exact IH.
Qed.

Lemma strict_ingest_batches doc_pdf total doc_id name deep_ocr cb starts :
  strict env downstream_call
    (Ingest.ingest_batches env doc_pdf total doc_id name deep_ocr cb starts).
Proof.
  induction starts as [|b rest IH]; simpl.
  - apply strict_of_contained, contained_ret.
  - apply strict_bind; [|intros _; exact IH].
    unfold Ingest.ingest_batch. cbv zeta.
    apply strict_bind; [apply strict_of_contained, contained_print|].
    intros _.
    apply strict_bind;
      [apply strict_of_contained, contained_ingest_pages; reflexivity|].
    intros [|d ds]; [apply strict_of_contained, contained_ret|].
    apply strict_downstream.
Qed.

End Downstream.

(** ** Page extraction: when it succeeds *)

Section PageExtraction.

Variable env : Env.

Lemma analyze_returns img prompt w :
  exists d, Ingest._analyze_image_with_gpt env img prompt w
            = (Ret d, after (Ingest._analyze_image_with_gpt env img prompt) w).
Proof.
  apply (behaves_returns (fun _ => true)).
  apply behaves_analyze; [split|]; reflexivity.
Qed.

Lemma file_write_external ev : file_write ev = true -> is_external ev = true.
Proof. destruct ev; try discriminate; reflexivity. Qed.

(** When the document gives every image, only a failing file write ends
    the walk over the images. *)
Lemma strict_extract_images images :
  forallb fetched_ok images = true ->
  forall idx page_num doc_id name docs,
    strict env file_write
      (Ingest.extract_images env images idx page_num doc_id name docs).
Proof.
  induction images as [|img rest IH]; intros Hok idx page_num doc_id name docs.
  - apply strict_of_contained, contained_ret.
  - cbn [forallb] in Hok. apply andb_true_iff in Hok as [Himg Hrest].
    destruct img as [base|e]; [|discriminate].
    cbn [Ingest.extract_images Ingest.fetch]. apply strict_ret_bind.
    match goal with
    | |- strict _ _ (if ?b then _ else _) => destruct b
    end; [now apply IH|].
    cbv zeta. apply strict_bind; [now apply strict_external|]. intros _.
    apply strict_bind; [apply strict_of_contained, contained_analyze|].
    intros d. now apply IH.
Qed.

Lemma extract_images_fails images :
  forallb fetched_ok images = false ->
  forall idx page_num doc_id name docs w,
    exists e,
      run (Ingest.extract_images env images idx page_num doc_id name docs) w
      = Raise e.
Proof.
  induction images as [|img rest IH]; intros Hbad idx page_num doc_id name
    docs w; [discriminate|].
  cbn [forallb Ingest.extract_images] in *. destruct img as [base|e].
  - cbn [fetched_ok andb] in Hbad.
    erewrite run_bind_ret by reflexivity.
    match goal with
    | |- context [if ?b then Ingest.extract_images _ _ _ _ _ _ _ else _] =>
        destruct b
    end; [now apply IH|].
    cbv zeta.
    destruct (fault env (calls w)) as [e|] eqn:E.
    + exists e. erewrite run_bind_raise; [reflexivity|].
      apply external_err. exact E.
    + erewrite run_bind_ret by (apply external_ok; exact E).
      match goal with
      | |- context [Ingest._analyze_image_with_gpt env ?img ?p] =>
          match goal with
          | |- context [run _ ?w1] =>
              destruct (analyze_returns img p w1) as [d Hd]
          end
      end.
      erewrite run_bind_ret by exact Hd. now apply IH.
  - exists e. reflexivity.
Qed.

Variables (doc_pdf : pdf_document) (doc_id file_name : string)
          (deep_ocr : bool).

Lemma strict_process_page i :
  page_ok deep_ocr doc_pdf i = true ->
  strict env file_write
    (Ingest._process_pdf_page env doc_pdf i doc_id file_name deep_ocr).
Proof.
  unfold page_ok, Ingest._process_pdf_page, Ingest.load_page.
  destruct (nth_error doc_pdf i) as [[page|e]|]; try discriminate.
  cbn [extractable Ingest.fetch]. intros Hok. apply strict_ret_bind.
  cbv zeta. destruct deep_ocr.
  - apply andb_true_iff in Hok as [Hpix Himgs]. rewrite andb_true_r.
    destruct (get_images page) as [images|e]; [|discriminate].
    apply strict_bind.
    + apply strict_of_contained.
      destruct (String.length (Text.strip (get_text page)) <? 50);
        [|apply contained_ret].
      destruct (get_pixmap page) as [img_bytes|e]; [|discriminate].
      apply contained_bind; [apply contained_print|]. intros _.
      cbn [Ingest.fetch].
      apply contained_bind; [apply contained_ret|]. intros b.
      apply contained_bind; [apply contained_analyze|]. intros t.
      apply contained_ret.
    + intros text. cbn [Ingest.fetch]. apply strict_ret_bind.
      now apply strict_extract_images.
  - rewrite andb_false_r.
    apply strict_bind; [apply strict_of_contained, contained_ret|].
    intros text. apply strict_of_contained, contained_ret.
Qed.

Lemma process_page_fails i w :
  page_ok deep_ocr doc_pdf i = false ->
  exists e,
    run (Ingest._process_pdf_page env doc_pdf i doc_id file_name deep_ocr) w
    = Raise e.
Proof.
  unfold page_ok, Ingest._process_pdf_page, Ingest.load_page.
  destruct (nth_error doc_pdf i) as [[page|e]|];
    [|intros _; now eexists|intros _; now eexists].
  cbn [extractable Ingest.fetch]. intros Hbad.
  erewrite run_bind_ret by reflexivity. cbv zeta.
  destruct deep_ocr; [|discriminate]. rewrite andb_true_r.
  match goal with
  | |- context [bind ?step _] =>
      destruct (step w) as [[text|e] w1] eqn:Es
  end.
  2:{ exists e. now erewrite run_bind_raise by exact Es. }
  erewrite run_bind_ret by exact Es.
  apply andb_false_iff in Hbad as [Hpix | Himgs].
  - exfalso.
    destruct (String.length (Text.strip (get_text page)) <? 50);
      [|discriminate].
    destruct (get_pixmap page) as [img_bytes|e]; [discriminate|].
    erewrite bind_ret_step in Es by apply print_run. discriminate.
  - destruct (get_images page) as [images|e]; [|exists e; reflexivity].
    cbn [Ingest.fetch]. erewrite run_bind_ret by reflexivity.
    now apply extract_images_fails.
Qed.

End PageExtraction.

(** ** Batches of pages *)

Lemma firstn_plus {A} n m : forall xs : list A,
  firstn (n + m) xs = (firstn n xs ++ firstn m (skipn n xs))%list.
Proof.
  induction n as [|n IH]; intros xs; [reflexivity|].
  destruct xs as [|x xs]; simpl.
  - now rewrite firstn_nil.
  - now rewrite IH.
Qed.

Lemma slices_concat_firstn {A} n d : forall xs : list A,
  List.concat (map (fun k => slice xs (0 + k * n) n) (seq 0 d))
  = firstn (d * n) xs.
Proof.
  induction d as [|d IH]; intros xs; [reflexivity|].
  cbn [seq map List.concat]. rewrite <- seq_shift, map_map.
  change (S d * n) with (n + d * n). rewrite firstn_plus. f_equal.
  rewrite <- IH. f_equal. apply map_ext. intros k.
  rewrite slice_skipn. f_equal. lia.
Qed.

Lemma firstn_seq n : forall start len,
  firstn n (seq start len) = seq start (Nat.min n len).
Proof.
  induction n as [|n IH]; intros start len; [reflexivity|].
  destruct len as [|len]; [reflexivity|]. simpl. now rewrite IH.
Qed.

Lemma slice_seq total b n :
  slice (seq 0 total) b n = seq b (Nat.min (b + n) total - b).
Proof.
  unfold slice. rewrite skipn_seq, firstn_seq. simpl. f_equal. lia.
Qed.

(** The pages of the first [d] batches are the first pages of the
    document. *)
Lemma batch_pages total d :
  flat_map (fun b => seq b (Nat.min (b + Ingest.BATCH_SIZE) total - b))
           (firstn d (range_step 0 total Ingest.BATCH_SIZE))
  = seq 0 (Nat.min (d * Ingest.BATCH_SIZE) total).
Proof.
  unfold range_step. rewrite firstn_map, firstn_seq, flat_map_concat_map, map_map.
  rewrite (map_ext _ (fun k => slice (seq 0 total) (0 + k * Ingest.BATCH_SIZE)
                                     Ingest.BATCH_SIZE))
    by (intros k; now rewrite slice_seq).
  rewrite slices_concat_firstn, firstn_seq.
  f_equal.
  destruct (batch_count_bounds total Ingest.BATCH_SIZE
              ltac:(unfold Ingest.BATCH_SIZE; lia)) as [Hle _].
  set (q := (total - 0 + (Ingest.BATCH_SIZE - 1)) / Ingest.BATCH_SIZE) in *.
  destruct (Nat.le_ge_cases d q) as [Hd | Hd].
  - now rewrite (Nat.min_l d q Hd).
  - rewrite (Nat.min_r d q Hd).
    assert (q * Ingest.BATCH_SIZE <= d * Ingest.BATCH_SIZE)
      by now apply Nat.mul_le_mono_r.
    lia.
Qed.

Lemma range_step_length start stop step :
  List.length (range_step start stop step)
  = (stop - start + (step - 1)) / step.
Proof. unfold range_step. now rewrite length_map, length_seq. Qed.

(** ** Subsequences *)

Lemma subsequence_refl {A} (xs : list A) : subsequence xs xs.
Proof.
  induction xs; [apply subsequence_nil | now apply subsequence_keep].
Qed.

Lemma subsequence_nil_l {A} (ys : list A) : subsequence [] ys.
Proof.
  induction ys; [apply subsequence_nil | now apply subsequence_skip].
Qed.

Lemma subsequence_app {A} (a b c d : list A) :
  subsequence a b -> subsequence c d -> subsequence (a ++ c) (b ++ d).
Proof.
  intros H H'. induction H; simpl; auto.
  - now apply subsequence_skip.
  - now apply subsequence_keep.
Qed.

Lemma subsequence_In {A} (xs ys : list A) :
  subsequence xs ys -> forall x, In x xs -> In x ys.
Proof.
  intros H. induction H; intros z Hz; simpl in *; auto.
  destruct Hz as [-> | Hz]; auto.
Qed.

Lemma subsequence_NoDup {A} (xs ys : list A) :
  subsequence xs ys -> NoDup ys -> NoDup xs.
Proof.
  intros H. induction H; intros Hn; auto.
  - inversion Hn; auto.
  - inversion Hn as [|? ? Hnotin Hrest]; subst. constructor; auto.
    intros Hin. apply Hnotin. now apply (subsequence_In xs ys).
Qed.

(** ** The ingestion loop and the progress callback *)

Section IngestProgress.

Variable env : Env.
Variables (doc_pdf : pdf_document) (doc_id file_name : string)
          (deep_ocr : bool) (progress_callback : option Ingest.callback).

Let total_pages := List.length doc_pdf.

(** The report the callback gets after page [i]. *)
Let called (i : nat) : list (nat * nat) :=
  match progress_callback with
  | Some _ => [(i + 1, total_pages)]
  | None => []
  end.

(** The reports one page is due. *)
Let due (i : nat) : list (nat * nat) :=
  if page_ok deep_ocr doc_pdf i then called i else [].

Let pages_of (b : nat) : list nat :=
  seq b (Nat.min (b + Ingest.BATCH_SIZE) total_pages - b).

(** From [w] to [w1] the reports made are among those due for [pages],
    in order, and are all of them unless a file write failed. *)
Let progress_ok (w w1 : World) (pages : list nat) : Prop :=
  exists evs,
    grows w w1 evs
    /\ handle_events evs = []
    /\ subsequence (progress_calls evs) (flat_map due pages)
    /\ (tolerated env file_write (calls w) evs = true ->
        progress_calls evs = flat_map due pages).

Lemma progress_ok_same w : progress_ok w w [].
Proof.
  exists []. split; [apply grows_same|]. split; [reflexivity|].
  split; [constructor | reflexivity].
Qed.

Lemma progress_ok_trans w w1 w2 p1 p2 :
  progress_ok w w1 p1 -> progress_ok w1 w2 p2 -> progress_ok w w2 (p1 ++ p2).
Proof.
  intros [e1 [Hg1 [Hh1 [Hs1 He1]]]] [e2 [Hg2 [Hh2 [Hs2 He2]]]].
  exists (e1 ++ e2)%list. split; [exact (grows_trans _ _ _ _ _ Hg1 Hg2)|].
  split; [unfold handle_events in *; now rewrite filter_app, Hh1, Hh2|].
  rewrite progress_calls_app, flat_map_app. split.
  - now apply subsequence_app.
  - intros Ht. rewrite tolerated_app in Ht.
    apply andb_true_iff in Ht as [Ht1 Ht2].
    destruct Hg1 as [_ [Hc _]]. rewrite <- Hc in Ht2.
    now rewrite (He1 Ht1), (He2 Ht2).
Qed.

Lemma progress_ok_quiet w w1 evs :
  grows w w1 evs -> forallb quiet_step evs = true -> progress_ok w w1 [].
Proof.
  intros Hg Hq. destruct (quiet_no_progress evs Hq) as [Hp Hh].
  exists evs. split; [exact Hg|]. split; [exact Hh|]. rewrite Hp.
  split; [constructor | reflexivity].
Qed.

(** What follows a successful extraction inside the [try]: the callback,
    the pause, and the handler when the callback raises. *)
Lemma after_extraction i (batch_docs : list Document) w1 :
  exists evs,
    try_catch
      (match progress_callback with
       | Some _ => external env (EvProgress (i + 1) total_pages)
       | None => ret tt
       end ;;
       (if deep_ocr then sleep 3 else ret tt) ;;
       ret batch_docs)
      (fun e => print (MsgSkippingPage (i + 1) e) ;; ret batch_docs) w1
    = (Ret batch_docs, extend w1 evs (count_calls evs))
    /\ progress_calls evs = called i
    /\ handle_events evs = [].
Proof.
  unfold called. destruct progress_callback as [cb|].
  - destruct (fault env (calls w1)) as [e|] eqn:E.
    + exists [EvProgress (i + 1) total_pages;
              EvPrint (MsgSkippingPage (i + 1) e)].
      split; [|split; reflexivity].
      erewrite try_raise_step
        by (erewrite bind_raise_step by (apply external_err; exact E);
            reflexivity).
      erewrite bind_ret_step by apply print_run.
      unfold ret. now rewrite extend_extend.
    + destruct deep_ocr.
      * exists [EvProgress (i + 1) total_pages; EvSleep 3].
        split; [|split; reflexivity].
        erewrite try_ret_step; [reflexivity|].
        erewrite bind_ret_step by (apply external_ok; exact E).
        erewrite bind_ret_step by apply sleep_run.
        unfold ret. now rewrite extend_extend.
      * exists [EvProgress (i + 1) total_pages].
        split; [|split; reflexivity].
        erewrite try_ret_step; [reflexivity|].
        erewrite bind_ret_step by (apply external_ok; exact E).
        reflexivity.
  - destruct deep_ocr.
    + exists [EvSleep 3]. split; [|split; reflexivity]. reflexivity.
    + exists []. split; [|split; reflexivity].
      change (count_calls []) with 0. now rewrite extend_nil.
Qed.

(** One pass of the loop body: the extraction, then either the callback
    or the notice that the page is skipped. *)
Lemma ingest_page_cases i batch_docs w :
  let extraction :=
    Ingest._process_pdf_page env doc_pdf i doc_id file_name deep_ocr in
  let page :=
    Ingest.ingest_page env doc_pdf total_pages doc_id file_name deep_ocr
                       progress_callback i batch_docs in
  exists evs1 w1,
    grows w w1 evs1
    /\ forallb quiet_step evs1 = true
    /\ ((exists docs evs2,
            extraction w = (Ret docs, w1)
            /\ page w = (Ret (batch_docs ++ docs)%list,
                         extend w1 evs2 (count_calls evs2))
            /\ progress_calls evs2 = called i
            /\ handle_events evs2 = [])
        \/ (exists e,
               extraction w = (Raise e, w1)
               /\ page w = (Ret batch_docs,
                            extend w1 [EvPrint (MsgSkippingPage (i + 1) e)]
                                   0))).
Proof.
  intros extraction page.
  assert (Hquiet : behaves quiet_step true extraction)
    by (apply behaves_process_page; [apply quiet_logging | |]; reflexivity).
  assert (Hcont : contained env (fun _ => false) true extraction)
    by (apply contained_process_page; reflexivity).
  destruct (grows_behaves _ _ _ _ _ _ w Hquiet Hcont) as [evs1 [Hg [Hq _]]].
  exists evs1, (after extraction w). split; [exact Hg|]. split; [exact Hq|].
  destruct (extraction w) as [[docs|e] w1] eqn:EP;
    rewrite (after_of_eq _ _ _ _ EP).
  - left.
    destruct (after_extraction i (batch_docs ++ docs)%list w1)
      as [evs2 [Hstep [Hp Hh]]].
    exists docs, evs2. split; [reflexivity|]. split; [|now split].
    unfold page, Ingest.ingest_page. erewrite try_ret_step; [reflexivity|].
    fold extraction. erewrite bind_ret_step by exact EP. exact Hstep.
  - right. exists e. split; [reflexivity|].
    unfold page, Ingest.ingest_page. fold extraction.
    erewrite try_raise_step
      by (erewrite bind_raise_step by exact EP; reflexivity).
    erewrite bind_ret_step by apply print_run. reflexivity.
Qed.

Lemma ingest_page_progress i batch_docs w :
  (exists batch_docs',
      run (Ingest.ingest_page env doc_pdf total_pages doc_id file_name
             deep_ocr progress_callback i batch_docs) w
      = Ret batch_docs')
  /\ progress_ok w
       (after (Ingest.ingest_page env doc_pdf total_pages doc_id file_name
                 deep_ocr progress_callback i batch_docs) w) [i].
Proof.
  destruct (ingest_page_cases i batch_docs w)
    as [evs1 [w1 [Hg [Hq [[docs [evs2 [Hex [Hpage [Hp Hh]]]]]
                         | [e [Hex Hpage]]]]]]];
    destruct (quiet_no_progress evs1 Hq) as [Hp1 Hh1];
    (split; [eexists; exact (run_of_eq _ _ _ _ Hpage)|]);
    rewrite (after_of_eq _ _ _ _ Hpage).
  - exists (evs1 ++ evs2)%list.
    split; [exact (grows_trans _ _ _ _ _ Hg (grows_extend w1 evs2))|].
    split; [unfold handle_events in *; now rewrite filter_app, Hh1, Hh|].
    assert (Hdue : due i = called i).
    { unfold due. destruct (page_ok deep_ocr doc_pdf i) eqn:Eok;
        [reflexivity|].
      destruct (process_page_fails env doc_pdf doc_id file_name deep_ocr i w
                  Eok) as [e He].
      rewrite (run_of_eq _ _ _ _ Hex) in He. discriminate. }
    cbn [flat_map]. rewrite app_nil_r, progress_calls_app, Hp1, Hp, Hdue.
    split; [apply subsequence_refl | reflexivity].
  - exists (evs1 ++ [EvPrint (MsgSkippingPage (i + 1) e)])%list.
    split.
    { exact (grows_trans _ _ _ _ _ Hg
               (grows_extend w1 [EvPrint (MsgSkippingPage (i + 1) e)])). }
    split; [unfold handle_events in *; now rewrite filter_app, Hh1|].
    rewrite progress_calls_app, Hp1. cbn [flat_map progress_calls app].
    split; [apply subsequence_nil_l|].
    intros Htol. rewrite app_nil_r. unfold due.
    destruct (page_ok deep_ocr doc_pdf i) eqn:Eok; [|reflexivity].
    exfalso. rewrite tolerated_app in Htol.
    apply andb_true_iff in Htol as [Htol _].
    pose proof (strict_raised env file_write file_write_external _ w e
                  (strict_process_page env doc_pdf doc_id file_name deep_ocr
                     i Eok)
                  (run_of_eq _ _ _ _ Hex)) as Hno.
    rewrite (grows_emitted
               (Ingest._process_pdf_page env doc_pdf i doc_id file_name
                  deep_ocr) w evs1) in Hno
      by (now rewrite (after_of_eq _ _ _ _ Hex)).
    congruence.
Qed.

Lemma ingest_pages_progress pages : forall batch_docs w,
  (exists batch_docs',
      run (Ingest.ingest_pages env doc_pdf total_pages doc_id file_name
             deep_ocr progress_callback pages batch_docs) w
      = Ret batch_docs')
  /\ progress_ok w
       (after (Ingest.ingest_pages env doc_pdf total_pages doc_id file_name
                 deep_ocr progress_callback pages batch_docs) w) pages.
Proof.
  induction pages as [|i rest IH]; intros batch_docs w.
  - split; [now exists batch_docs | apply progress_ok_same].
  - cbn [Ingest.ingest_pages].
    destruct (ingest_page_progress i batch_docs w) as [[b Hb] Hr].
    assert (Hstep : Ingest.ingest_page env doc_pdf total_pages doc_id
                      file_name deep_ocr progress_callback i batch_docs w
                    = (Ret b, after (Ingest.ingest_page env doc_pdf
                                       total_pages doc_id file_name deep_ocr
                                       progress_callback i batch_docs) w)).
    { rewrite (run_after _ w) at 1. now rewrite Hb. }
    destruct (IH b (after (Ingest.ingest_page env doc_pdf total_pages doc_id
                             file_name deep_ocr progress_callback i
                             batch_docs) w)) as [[b' Hb'] Hr'].
    split.
    + exists b'. now rewrite (run_bind_ret _ _ _ _ _ Hstep).
    + rewrite (after_bind_ret _ _ _ _ _ Hstep).
      exact (progress_ok_trans _ _ _ [i] rest Hr Hr').
Qed.

Lemma quiet_downstream r (batch_docs : list Document) batch_start :
  (r = false -> no_faults env) ->
  behaves quiet_step r
    (external env (EvSplit batch_docs) ;;
     let chunks := split_documents env batch_docs in
     VectorStore.add_chunks env chunks ;;
     Kg.upsert_kg_from_chunks env chunks doc_id ;;
     print (MsgUploadedBatch (batch_start / Ingest.BATCH_SIZE + 1)
                             (List.length chunks))).
Proof.
  intros Hnf. pose proof quiet_logging as Hlog.
  apply behaves_bind; [now apply behaves_external|]. intros _. cbv zeta.
  apply behaves_bind; [now apply behaves_add_chunks|]. intros _.
  apply behaves_bind; [now apply behaves_upsert|]. intros _.
  now apply behaves_print.
Qed.

Lemma ingest_batch_progress b w :
  progress_ok w
    (after (Ingest.ingest_batch env doc_pdf total_pages doc_id file_name
              deep_ocr progress_callback b) w)
    (pages_of b)
  /\ (no_faults env ->
      run (Ingest.ingest_batch env doc_pdf total_pages doc_id file_name
             deep_ocr progress_callback b) w = Ret tt).
Proof.
  unfold Ingest.ingest_batch. cbv zeta. fold (pages_of b).
  set (w0 := extend w [EvPrint (MsgProcessingPages (b + 1)
                         (Nat.min (b + Ingest.BATCH_SIZE) total_pages))] 0).
  destruct (ingest_pages_progress (pages_of b) [] w0)
    as [[batch_docs Hb] Hr].
  set (pages := Ingest.ingest_pages env doc_pdf total_pages doc_id file_name
                  deep_ocr progress_callback (pages_of b) []) in *.
  assert (Hpages : pages w0 = (Ret batch_docs, after pages w0)).
  { rewrite (run_after pages w0) at 1. now rewrite Hb. }
  assert (H0 : progress_ok w w0 []).
  { apply (progress_ok_quiet w w0
             [EvPrint (MsgProcessingPages (b + 1)
                (Nat.min (b + Ingest.BATCH_SIZE) total_pages))]);
      [|reflexivity].
    apply (grows_extend w [EvPrint (MsgProcessingPages (b + 1)
             (Nat.min (b + Ingest.BATCH_SIZE) total_pages))]). }
  pose proof (progress_ok_trans _ _ _ [] (pages_of b) H0 Hr) as H1.
  cbn [app] in H1.
  destruct batch_docs as [|d ds].
  - split.
    + erewrite after_bind_ret by apply print_run. fold w0.
      erewrite after_bind_ret by exact Hpages. exact H1.
    + intros _. erewrite run_bind_ret by apply print_run. fold w0.
      erewrite run_bind_ret by exact Hpages. reflexivity.
  - split.
    + erewrite after_bind_ret by apply print_run. fold w0.
      erewrite after_bind_ret by exact Hpages. cbv beta iota.
      rewrite <- (app_nil_r (pages_of b)).
      eapply progress_ok_trans; [exact H1|].
      match goal with
      | |- progress_ok ?w1 (after ?m ?w1) [] =>
          destruct (grows_behaves env (fun _ => false) quiet_step true true
                      m w1)
            as [evs [Hg [Hq _]]]
      end.
      * now apply quiet_downstream.
      * apply contained_downstream. repeat split; reflexivity.
      * exact (progress_ok_quiet _ _ _ Hg Hq).
    + intros Hnf. erewrite run_bind_ret by apply print_run. fold w0.
      erewrite run_bind_ret by exact Hpages. cbv beta iota.
      destruct (quiet_downstream false (d :: ds) b (fun _ => Hnf)
                  (after pages w0)) as [_ [_ Hret]].
      destruct (Hret eq_refl) as [[] Ha]. exact Ha.
Qed.

Lemma ingest_batches_progress starts : forall w,
  exists done,
    done <= List.length starts
    /\ progress_ok w
         (after (Ingest.ingest_batches env doc_pdf total_pages doc_id
                   file_name deep_ocr progress_callback starts) w)
         (flat_map pages_of (firstn done starts))
    /\ (run (Ingest.ingest_batches env doc_pdf total_pages doc_id
               file_name deep_ocr progress_callback starts) w = Ret tt ->
        done = List.length starts)
    /\ (no_faults env ->
        run (Ingest.ingest_batches env doc_pdf total_pages doc_id
               file_name deep_ocr progress_callback starts) w = Ret tt).
Proof.
  induction starts as [|b rest IH]; intros w.
  - exists 0. split; [lia|]. split; [apply progress_ok_same|]. now split.
  - cbn [Ingest.ingest_batches].
    destruct (ingest_batch_progress b w) as [Hr Hsafe].
    set (step := Ingest.ingest_batch env doc_pdf total_pages doc_id
                   file_name deep_ocr progress_callback b) in *.
    destruct (step w) as [[[]|e] w1] eqn:Es.
    + destruct (IH w1) as [done [Hle [Hr' [Hdone Hsafe']]]].
      exists (S done). split; [simpl; lia|]. split; [|split].
      * rewrite (after_bind_ret _ _ _ _ _ Es).
        rewrite (after_of_eq _ _ _ _ Es) in Hr.
        cbn [firstn flat_map].
        exact (progress_ok_trans _ _ _ _ _ Hr Hr').
      * rewrite (run_bind_ret _ _ _ _ _ Es). intros H. simpl.
        f_equal. now apply Hdone.
      * intros Hnf. rewrite (run_bind_ret _ _ _ _ _ Es). now apply Hsafe'.
    + exists 1. split; [simpl; lia|]. split; [|split].
      * rewrite (after_bind_raise _ _ _ _ _ Es).
        rewrite (after_of_eq _ _ _ _ Es) in Hr.
        cbn [firstn flat_map]. now rewrite app_nil_r.
      * rewrite (run_bind_raise _ _ _ _ _ Es). discriminate.
      * intros Hnf. specialize (Hsafe Hnf).
        rewrite (run_of_eq _ _ _ _ Es) in Hsafe. discriminate.
Qed.

End IngestProgress.

Lemma flat_map_due deep_ocr doc_pdf cb pages :
  flat_map (fun i => if page_ok deep_ocr doc_pdf i
                     then match cb : option Ingest.callback with
                          | Some _ => [(i + 1, List.length doc_pdf)]
                          | None => []
                          end
                     else []) pages
  = match cb with
    | Some _ => reports_for deep_ocr doc_pdf pages
    | None => []
    end.
Proof.
  unfold reports_for. induction pages as [|i rest IH]; simpl.
  - now destruct cb.
  - rewrite IH. destruct (page_ok deep_ocr doc_pdf i), cb; reflexivity.
Qed.

(** Every run of [ingest_pdf] on a readable document: the events between
    the opening of the handle and the end hold progress reports of the
    pages processed, in order, all those due unless a file write failed,
    and the run either returns, having closed the handle as its last act,
    or raises with the handle left open. *)
Lemma ingest_pdf_run env doc_pdf file_name doc_id deep_ocr cb w :
  let m := Ingest.ingest_pdf env (Fetched doc_pdf) file_name doc_id deep_ocr cb in
  exists processed evs,
    processed <= List.length doc_pdf
    /\ handle_events evs = []
    /\ subsequence (progress_calls evs)
         match cb with
         | Some _ => reports_for deep_ocr doc_pdf (seq 0 processed)
         | None => []
         end
    /\ (tolerated env file_write (calls w) evs = true ->
        progress_calls evs
        = match cb with
          | Some _ => reports_for deep_ocr doc_pdf (seq 0 processed)
          | None => []
          end)
    /\ ((run m w = Ret doc_id
         /\ processed = List.length doc_pdf
         /\ emitted m w = (EvOpen :: evs ++ [EvClose])%list
         /\ open_handles (after m w) = open_handles w)
        \/ (exists e, run m w = Raise e
                      /\ emitted m w = EvOpen :: evs
                      /\ open_handles (after m w) = S (open_handles w)))
    /\ (no_faults env -> run m w = Ret doc_id).
Proof.
  intros m.
  set (total := List.length doc_pdf).
  set (w0 := mkWorld (trace w ++ [EvOpen]) (calls w) (kg_driver w) (graph w)
                     (S (open_handles w))).
  set (w0' := extend w0 [EvPrint (MsgProcessing file_name total deep_ocr)] 0).
  set (batches := Ingest.ingest_batches env doc_pdf total doc_id file_name
                    deep_ocr cb (range_step 0 total Ingest.BATCH_SIZE)).
  assert (Hm : m w = bind batches (fun _ => Ingest.close ;; ret doc_id) w0').
  { reflexivity. }
  destruct (ingest_batches_progress env doc_pdf doc_id file_name deep_ocr cb
              (range_step 0 total Ingest.BATCH_SIZE) w0')
    as [done [Hle [[evs [[Ht [_ Ho]] [Hh [Hsub Heq]]]] [Hdone Hsafe]]]].
  fold total in Hsub, Heq, Ht, Ho, Hdone, Hsafe.
  fold batches in Ht, Ho, Hdone, Hsafe.
  rewrite (batch_pages total done) in Hsub, Heq.
  rewrite (flat_map_due deep_ocr doc_pdf cb) in Hsub, Heq.
  set (processed := Nat.min (done * Ingest.BATCH_SIZE) total) in *.
  exists processed, (EvPrint (MsgProcessing file_name total deep_ocr) :: evs).
  split; [unfold processed; lia|]. split; [exact Hh|].
  split; [exact Hsub|]. split; [exact Heq|].
  destruct (batches w0') as [[[]|e] w1] eqn:Eb.
  - assert (Hfinal : m w
                     = (Ret doc_id,
                        mkWorld (trace w1 ++ [EvClose]) (calls w1)
                                (kg_driver w1) (graph w1)
                                (pred (open_handles w1)))).
    { rewrite Hm. erewrite bind_ret_step by exact Eb. reflexivity. }
    rewrite (after_of_eq _ _ _ _ Eb) in Ht, Ho.
    split; [left|intros _; exact (run_of_eq _ _ _ _ Hfinal)].
    split; [exact (run_of_eq _ _ _ _ Hfinal)|].
    assert (Hall : done = List.length (range_step 0 total Ingest.BATCH_SIZE)).
    { apply Hdone. exact (run_of_eq _ _ _ _ Eb). }
    split; [|split].
    + unfold processed. rewrite Hall, range_step_length.
      destruct (batch_count_bounds total Ingest.BATCH_SIZE
                  ltac:(unfold Ingest.BATCH_SIZE; lia)) as [Hcover _].
      fold total. lia.
    + apply emitted_of_trace. rewrite (after_of_eq _ _ _ _ Hfinal).
      cbn [trace]. rewrite Ht. unfold w0', w0. cbn [extend trace].
      now rewrite <- !app_assoc.
    + rewrite (after_of_eq _ _ _ _ Hfinal). cbn [open_handles].
      rewrite Ho. reflexivity.
  - assert (Hfinal : m w = (Raise e, w1)).
    { rewrite Hm. erewrite bind_raise_step by exact Eb. reflexivity. }
    rewrite (after_of_eq _ _ _ _ Eb) in Ht, Ho.
    split.
    + right. exists e. split; [exact (run_of_eq _ _ _ _ Hfinal)|]. split.
      * apply emitted_of_trace. rewrite (after_of_eq _ _ _ _ Hfinal).
        rewrite Ht. unfold w0', w0. cbn [extend trace].
        now rewrite <- !app_assoc.
      * rewrite (after_of_eq _ _ _ _ Hfinal). rewrite Ho. reflexivity.
    + intros Hnf. specialize (Hsafe Hnf).
      rewrite (run_of_eq _ _ _ _ Eb) in Hsafe. discriminate.
Qed.

(** A run of [ingest_pdf] on a readable document returns when no
    downstream call failed, and otherwise ends with the error of the
    downstream call that failed, made last. *)
Lemma ingest_pdf_strict env doc_pdf file_name doc_id deep_ocr cb w :
  let m := Ingest.ingest_pdf env (Fetched doc_pdf) file_name doc_id deep_ocr cb in
  match run m w with
  | Ret _ => tolerated env downstream_call (calls w) (emitted m w) = true
  | Raise e =>
      exists before ev,
        emitted m w = (before ++ [ev])%list
        /\ downstream_call ev = true
        /\ fault env (count_calls before + calls w) = Some e
        /\ tolerated env downstream_call (calls w) (emitted m w) = false
  end.
Proof.
  intros m.
  set (total := List.length doc_pdf).
  set (w0 := mkWorld (trace w ++ [EvOpen]) (calls w) (kg_driver w) (graph w)
                     (S (open_handles w))).
  set (w0' := extend w0 [EvPrint (MsgProcessing file_name total deep_ocr)] 0).
  set (batches := Ingest.ingest_batches env doc_pdf total doc_id file_name
                    deep_ocr cb (range_step 0 total Ingest.BATCH_SIZE)).
  assert (Hm : m w = bind batches (fun _ => Ingest.close ;; ret doc_id) w0').
  { reflexivity. }
  destruct (strict_ingest_batches env doc_pdf total doc_id file_name deep_ocr
              cb (range_step 0 total Ingest.BATCH_SIZE) w0')
    as [evs [[Ht _] Hcase]].
  fold batches in Ht, Hcase. unfold run, after in Ht, Hcase.
  set (opening := [EvOpen; EvPrint (MsgProcessing file_name total deep_ocr)]).
  destruct (batches w0') as [[[]|e] w1] eqn:Eb; cbn [fst snd] in Ht, Hcase.
  - assert (Hfinal : m w
                     = (Ret doc_id,
                        mkWorld (trace w1 ++ [EvClose]) (calls w1)
                                (kg_driver w1) (graph w1)
                                (pred (open_handles w1)))).
    { rewrite Hm. erewrite bind_ret_step by exact Eb. reflexivity. }
    rewrite (run_of_eq _ _ _ _ Hfinal).
    rewrite (emitted_of_trace m w (opening ++ evs ++ [EvClose])).
    + rewrite !tolerated_app. change (count_calls opening + calls w)
        with (calls w0'). now rewrite Hcase.
    + rewrite (after_of_eq _ _ _ _ Hfinal). cbn [trace]. rewrite Ht.
      unfold w0', w0, opening. cbn [extend trace].
      now rewrite <- !app_assoc.
  - assert (Hfinal : m w = (Raise e, w1)).
    { rewrite Hm. erewrite bind_raise_step by exact Eb. reflexivity. }
    rewrite (run_of_eq _ _ _ _ Hfinal).
    destruct Hcase as [before [ev [-> [Hb [Hf Htol]]]]].
    assert (Hem : emitted m w = ((opening ++ before) ++ [ev])%list).
    { apply emitted_of_trace. rewrite (after_of_eq _ _ _ _ Hfinal).
      rewrite Ht. unfold w0', w0, opening. cbn [extend trace].
      now rewrite <- !app_assoc. }
    assert (Hf' : fault env (count_calls (opening ++ before) + calls w)
                  = Some e) by (rewrite count_calls_app; exact Hf).
    exists (opening ++ before)%list, ev. split; [exact Hem|].
    split; [exact Hb|]. split; [exact Hf'|].
    rewrite Hem. unfold tolerated.
    rewrite (failed_calls_last env (calls w) _ ev e
               (downstream_external ev Hb) Hf').
    rewrite forallb_app. cbn [forallb]. rewrite Hb. apply andb_false_r.
Qed.

(** ** C1: the progress callback *)

(** The claim as stated fails: of a two-page document whose second page
    cannot be loaded, both pages are processed (the second one is reported
    as skipped), ingestion completes, and the callback is invoked for page
    1 only. *)
Lemma failed_page_not_reported_counterexample :
  run (Ingest.ingest_pdf (answering "dog | is-a | animal")
         (Fetched second_page_broken) "book.pdf" "doc-1" false
         (Some Ingest.ProgressFn)) fresh
  = Ret "doc-1"
  /\ In (MsgSkippingPage 2 "cannot load page")
        (prints (emitted
                   (Ingest.ingest_pdf (answering "dog | is-a | animal")
                      (Fetched second_page_broken) "book.pdf" "doc-1" false
                      (Some Ingest.ProgressFn)) fresh))
  /\ progress_calls
       (emitted (Ingest.ingest_pdf (answering "dog | is-a | animal")
                   (Fetched second_page_broken) "book.pdf" "doc-1" false
                   (Some Ingest.ProgressFn)) fresh)
     = [(1, 2)]
  /\ ~ In (2, 2)
          (progress_calls
             (emitted (Ingest.ingest_pdf (answering "dog | is-a | animal")
                         (Fetched second_page_broken) "book.pdf" "doc-1" false
                         (Some Ingest.ProgressFn)) fresh)).
Proof.
  assert (Hp : progress_calls
                 (emitted (Ingest.ingest_pdf (answering "dog | is-a | animal")
                             (Fetched second_page_broken) "book.pdf" "doc-1"
                             false (Some Ingest.ProgressFn)) fresh)
               = [(1, 2)]) by (vm_compute; reflexivity).
  split; [vm_compute; reflexivity|]. split; [vm_compute; tauto|].
  split; [exact Hp|]. rewrite Hp. intros [H | []]. discriminate.
Qed.

(** C1, amended.  With a progress callback supplied, every pass of the
    page loop returns, and it invokes the callback exactly once, with
    (page number, page count), when the extraction of the page returned,
    and not at all when the extraction raised: the page is then reported
    as skipped.  Over a run of [ingest_pdf] the callback is therefore
    invoked in page order and at most once per page, never for a page the
    document cannot deliver (it does not load or, under deep extraction,
    cannot be rendered or one of its images cannot be extracted), and for
    every other processed page unless an image file of the run could not
    be written; a run that returns has processed every page, and a run
    returns whenever no external call fails. *)
Theorem progress_after_extracted_pages
  (env : Env) (w : World) (doc_pdf : pdf_document)
  (file_name doc_id : string) (deep_ocr : bool) :
  let m := Ingest.ingest_pdf env (Fetched doc_pdf) file_name doc_id deep_ocr
                             (Some Ingest.ProgressFn) in
  let total_pages := List.length doc_pdf in
  (forall i batch_docs w1,
      let extraction :=
        Ingest._process_pdf_page env doc_pdf i doc_id file_name deep_ocr in
      let page :=
        Ingest.ingest_page env doc_pdf total_pages doc_id file_name deep_ocr
                           (Some Ingest.ProgressFn) i batch_docs in
      (forall docs,
          run extraction w1 = Ret docs ->
          run page w1 = Ret (batch_docs ++ docs)%list
          /\ progress_calls (emitted page w1) = [(i + 1, total_pages)])
      /\ (forall e,
             run extraction w1 = Raise e ->
             run page w1 = Ret batch_docs
             /\ progress_calls (emitted page w1) = []
             /\ In (MsgSkippingPage (i + 1) e) (prints (emitted page w1))))
  /\ exists processed,
       processed <= total_pages
       /\ subsequence (progress_calls (emitted m w))
            (map (fun i => (i + 1, total_pages))
                 (filter (page_ok deep_ocr doc_pdf) (seq 0 processed)))
       /\ (tolerated env file_write (calls w) (emitted m w) = true ->
           progress_calls (emitted m w)
           = map (fun i => (i + 1, total_pages))
                 (filter (page_ok deep_ocr doc_pdf) (seq 0 processed)))
       /\ NoDup (progress_calls (emitted m w))
       /\ (forall i, page_ok deep_ocr doc_pdf i = false ->
                     ~ In (i + 1, total_pages) (progress_calls (emitted m w)))
       /\ (forall x, run m w = Ret x -> processed = total_pages)
       /\ (no_faults env -> run m w = Ret doc_id).
Proof.
  intros m total_pages. split.
  - intros i batch_docs w1 extraction page.
    destruct (ingest_page_cases env doc_pdf doc_id file_name deep_ocr
                (Some Ingest.ProgressFn) i batch_docs w1)
      as [evs1 [w2 [[Ht1 _] [Hq [[docs [evs2 [Hex [Hpage [Hp Hh]]]]]
                                 | [e [Hex Hpage]]]]]]];
      fold total_pages in Hpage; fold extraction in Hex; fold page in Hpage;
      destruct (quiet_no_progress evs1 Hq) as [Hp1 _].
    + split; [|intros e He; rewrite (run_of_eq _ _ _ _ Hex) in He;
               discriminate].
      intros docs' Hd. rewrite (run_of_eq _ _ _ _ Hex) in Hd.
      injection Hd as <-. split; [exact (run_of_eq _ _ _ _ Hpage)|].
      rewrite (emitted_of_trace page w1 (evs1 ++ evs2)).
      * rewrite progress_calls_app, Hp1, Hp. reflexivity.
      * rewrite (after_of_eq _ _ _ _ Hpage). cbn [extend trace].
        now rewrite Ht1, app_assoc.
    + split; [intros docs Hd; rewrite (run_of_eq _ _ _ _ Hex) in Hd;
              discriminate|].
      intros e' He. rewrite (run_of_eq _ _ _ _ Hex) in He.
      injection He as <-. split; [exact (run_of_eq _ _ _ _ Hpage)|].
      rewrite (emitted_of_trace page w1
                 (evs1 ++ [EvPrint (MsgSkippingPage (i + 1) e)])).
      * split; [rewrite progress_calls_app, Hp1; reflexivity|].
        rewrite prints_app. apply in_or_app. right. now left.
      * rewrite (after_of_eq _ _ _ _ Hpage). cbn [extend trace].
        now rewrite Ht1, app_assoc.
  - destruct (ingest_pdf_run env doc_pdf file_name doc_id deep_ocr
                (Some Ingest.ProgressFn) w)
      as [processed [evs [Hle [Hh [Hsub [Heq [Hcases Hsafe]]]]]]].
    fold m in Hcases, Hsafe.
    change (reports_for deep_ocr doc_pdf (seq 0 processed))
      with (map (fun i => (i + 1, total_pages))
                (filter (page_ok deep_ocr doc_pdf) (seq 0 processed)))
      in Hsub, Heq.
    assert (Hprog : progress_calls (emitted m w) = progress_calls evs).
    { destruct Hcases as [[_ [_ [He _]]] | [e [_ [He _]]]]; rewrite He.
      - change (EvOpen :: evs ++ [EvClose])%list
          with ([EvOpen] ++ evs ++ [EvClose])%list.
        rewrite !progress_calls_app. simpl. now rewrite app_nil_r.
      - reflexivity. }
    assert (Htol : tolerated env file_write (calls w) (emitted m w)
                   = tolerated env file_write (calls w) evs).
    { destruct Hcases as [[_ [_ [He _]]] | [e [_ [He _]]]]; rewrite He.
      - change (EvOpen :: evs ++ [EvClose])%list
          with ([EvOpen] ++ evs ++ [EvClose])%list.
        rewrite !tolerated_app. cbn [tolerated failed_calls forallb].
        now rewrite andb_true_r.
      - reflexivity. }
    assert (Hnodup : NoDup (map (fun i => (i + 1, total_pages))
                              (filter (page_ok deep_ocr doc_pdf)
                                 (seq 0 processed)))).
    { apply Injective_map_NoDup.
      - intros a b Hab. injection Hab. lia.
      - apply NoDup_filter, seq_NoDup. }
    exists processed. split; [exact Hle|]. rewrite Hprog, Htol.
    split; [exact Hsub|]. split; [exact Heq|].
    split; [exact (subsequence_NoDup _ _ Hsub Hnodup)|].
    split; [|split].
    + intros i Hbad Hin. apply (subsequence_In _ _ Hsub) in Hin.
      apply in_map_iff in Hin as [j [Hj Hin]].
      apply filter_In in Hin as [_ Hok].
      assert (j = i) by (injection Hj; lia). subst j. congruence.
    + intros x Hx. destruct Hcases as [[_ [Hall _]] | [e [He _]]];
        [exact Hall | congruence].
    + exact Hsafe.
Qed.

Lemma progress_after_extracted_pages_witness :
  no_faults (answering "dog | is-a | animal")
  /\ run (Ingest.ingest_pdf (answering "dog | is-a | animal")
            (Fetched second_page_broken) "book.pdf" "doc-1" false
            (Some Ingest.ProgressFn)) fresh
     = Ret "doc-1".
Proof.
  assert (Hnf : no_faults (answering "dog | is-a | animal"))
    by (intros k; reflexivity).
  split; [exact Hnf|].
  destruct (progress_after_extracted_pages (answering "dog | is-a | animal")
              fresh second_page_broken "book.pdf" "doc-1" false)
    as [_ [processed [_ [_ [_ [_ [_ [_ H]]]]]]]].
  exact (H Hnf).
Defined.

(** ** C2: the document handle *)

(** The claim as stated fails: when the vector store cannot be reached,
    [add_chunks] raises, the error leaves [ingest_pdf], and the handle
    opened at the start is still open: no close happened. *)
Lemma handle_left_open_counterexample :
  run (Ingest.ingest_pdf vector_store_down (Fetched [plain_page "Dogs bark."])
         "book.pdf" "doc-1" false None) fresh
  = Raise "could not connect to server"
  /\ handle_events
       (emitted (Ingest.ingest_pdf vector_store_down
                   (Fetched [plain_page "Dogs bark."]) "book.pdf" "doc-1"
                   false None) fresh)
     = [EvOpen]
  /\ open_handles
       (after (Ingest.ingest_pdf vector_store_down
                 (Fetched [plain_page "Dogs bark."]) "book.pdf" "doc-1"
                 false None) fresh)
     = 1.
Proof. repeat split; vm_compute; reflexivity. Qed.

(** C2, amended.  The document handle opened at the start of ingestion is
    closed, as the last act, when ingestion returns, and ingestion returns
    whenever no downstream call (splitting, vector-store persist, graph
    write) fails: failures of page extractions, of image file writes, of
    the progress callback and of the attempt to connect to the graph
    store are caught.  When a downstream call fails, its error leaves
    [ingest_pdf] at once, with the handle still open.  The handle is
    opened once and never closed before the end. *)
Theorem handle_closed_on_return
  (env : Env) (w : World) (doc_pdf : pdf_document)
  (file_name doc_id : string) (deep_ocr : bool)
  (progress_callback : option Ingest.callback) :
  let m := Ingest.ingest_pdf env (Fetched doc_pdf) file_name doc_id deep_ocr
                             progress_callback in
  (forall x, run m w = Ret x ->
     x = doc_id
     /\ handle_events (emitted m w) = [EvOpen; EvClose]
     /\ (exists evs, emitted m w = (evs ++ [EvClose])%list)
     /\ open_handles (after m w) = open_handles w
     /\ tolerated env downstream_call (calls w) (emitted m w) = true)
  /\ (forall e, run m w = Raise e ->
        handle_events (emitted m w) = [EvOpen]
        /\ open_handles (after m w) = S (open_handles w)
        /\ exists before ev,
             emitted m w = (before ++ [ev])%list
             /\ downstream_call ev = true
             /\ fault env (count_calls before + calls w) = Some e)
  /\ (tolerated env downstream_call (calls w) (emitted m w) = true ->
      run m w = Ret doc_id)
  /\ (forall ev,
        In ev (failed_calls env (calls w) (emitted m w)) ->
        downstream_call ev = true ->
        exists e, run m w = Raise e)
  /\ (no_faults env -> run m w = Ret doc_id).
Proof.
  intros m.
  destruct (ingest_pdf_run env doc_pdf file_name doc_id deep_ocr
              progress_callback w)
    as [processed [evs [_ [Hh [_ [_ [Hcases Hsafe]]]]]]].
  pose proof (ingest_pdf_strict env doc_pdf file_name doc_id deep_ocr
                progress_callback w) as Hstrict.
  fold m in Hcases, Hsafe, Hstrict. cbv zeta in Hstrict.
  split; [|split; [|split; [|split; [|exact Hsafe]]]].
  - intros x Hx. rewrite Hx in Hstrict.
    destruct Hcases as [[Hr [_ [He Ho]]] | [e [Hr _]]]; [|congruence].
    split; [congruence|]. split; [|split; [|split; [exact Ho | exact Hstrict]]].
    + rewrite He.
      change (EvOpen :: evs ++ [EvClose])%list
        with ([EvOpen] ++ evs ++ [EvClose])%list.
      unfold handle_events in *. rewrite !filter_app, Hh. reflexivity.
    + rewrite He. now exists (EvOpen :: evs).
  - intros e He. rewrite He in Hstrict.
    destruct Hcases as [[Hr _] | [e' [_ [Hem Ho]]]]; [congruence|].
    split; [|split; [exact Ho|]].
    + rewrite Hem. change (EvOpen :: evs) with ([EvOpen] ++ evs)%list.
      unfold handle_events in *. rewrite filter_app, Hh. reflexivity.
    + destruct Hstrict as [before [ev [H1 [H2 [H3 _]]]]].
      now exists before, ev.
  - intros Htol. destruct (run m w) as [x|e] eqn:Er.
    + destruct Hcases as [[Hr _] | [e [Hr _]]]; congruence.
    + destruct Hstrict as [_ [_ [_ [_ [_ Hno]]]]]. congruence.
  - intros ev Hin Hbad. destruct (run m w) as [x|e] eqn:Er; [|now exists e].
    unfold tolerated in Hstrict.
    rewrite forallb_forall in Hstrict. specialize (Hstrict ev Hin).
    rewrite Hbad in Hstrict. discriminate.
Qed.

Lemma handle_closed_on_return_witness :
  tolerated callback_raises downstream_call (calls fresh)
    (emitted (Ingest.ingest_pdf callback_raises
                (Fetched [plain_page "Dogs bark."]) "book.pdf" "doc-1" false
                (Some Ingest.ProgressFn)) fresh)
  = true
  /\ failed_calls callback_raises (calls fresh)
       (emitted (Ingest.ingest_pdf callback_raises
                   (Fetched [plain_page "Dogs bark."]) "book.pdf" "doc-1"
                   false (Some Ingest.ProgressFn)) fresh)
     = [EvProgress 1 1]
  /\ run (Ingest.ingest_pdf callback_raises
            (Fetched [plain_page "Dogs bark."]) "book.pdf" "doc-1" false
            (Some Ingest.ProgressFn)) fresh
     = Ret "doc-1".
Proof.
  assert (H : tolerated callback_raises downstream_call (calls fresh)
                (emitted (Ingest.ingest_pdf callback_raises
                            (Fetched [plain_page "Dogs bark."]) "book.pdf"
                            "doc-1" false (Some Ingest.ProgressFn)) fresh)
              = true) by (vm_compute; reflexivity).
  split; [exact H|]. split; [vm_compute; reflexivity|].
  destruct (handle_closed_on_return callback_raises fresh
              [plain_page "Dogs bark."] "book.pdf" "doc-1" false
              (Some Ingest.ProgressFn)) as [_ [_ [Hret _]]].
  exact (Hret H).
Defined.

(* ================================================================== *)
(** * Further properties of the code *)
(* ================================================================== *)

(** ** Triples as they leave the extractor *)

Lemma trimmed_strip s : Text.truthy (Text.strip s) = true -> trimmed (Text.strip s).
Proof.
  intros H. split; [|apply strip_idem].
  destruct (Text.strip s); [discriminate | discriminate].
Qed.

Lemma line_triples_well_formed line t :
  In t (line_triples line) -> well_formed_triple t.
Proof.
  unfold line_triples.
  destruct (Text.split "|" line) as [|a [|b [|c [|d l]]]]; try contradiction.
  destruct (Text.truthy (Text.strip a)) eqn:Ha; [|contradiction].
  destruct (Text.truthy (Text.strip b)) eqn:Hb; [|contradiction].
  destruct (Text.truthy (Text.strip c)) eqn:Hc; [|contradiction].
  intros [<- | []]. repeat split; try apply strip_idem;
    cbn [t_s t_p t_o]; intros E; rewrite E in *; discriminate.
Qed.

(** X1.  Whatever the capability answers, the Triple Extractor returns,
    and every triple it returns has a non-empty subject, predicate and
    object, none of them with white space at either end. *)
Theorem extracted_triples_well_formed (env : Env) (text : string) (w : World) :
  (forall raw t, In t (Kg.parse_response raw) -> well_formed_triple t)
  /\ exists triples,
       run (Kg.extract_triples_from_text env text) w = Ret triples
       /\ Forall well_formed_triple triples.
Proof.
  assert (Hparse : forall raw t,
             In t (Kg.parse_response raw) -> well_formed_triple t).
  { intros raw t Hin. unfold Kg.parse_response in Hin.
    rewrite parse_lines_spec in Hin. simpl in Hin.
    apply in_flat_map in Hin as [line [_ Hin]].
    now apply (line_triples_well_formed line). }
  split; [exact Hparse|].
  destruct (Text.truthy (Text.strip text)) eqn:Htext.
  - destruct (first_decisive_reply env (calls w))
      as [n [Hn [Hth [[c Hc] | [e [He Hor]]]]]].
    + exists (Kg.parse_response c). split.
      * exact (run_of_eq _ _ _ _ (extract_success env text Htext n w c Hth Hn Hc)).
      * apply Forall_forall. intros t. apply Hparse.
    + exists []. split; [|constructor].
      exact (run_of_eq _ _ _ _
               (extract_failure env text Htext n w e Hth Hn He Hor)).
  - exists []. split; [|constructor].
    unfold Kg.extract_triples_from_text. now rewrite Htext.
Qed.

Lemma extracted_triples_well_formed_witness :
  In (mkTriple "dog" "is-a" "animal")
     (Kg.parse_response "  dog |is-a | animal  ")
  /\ well_formed_triple (mkTriple "dog" "is-a" "animal").
Proof.
  assert (H : In (mkTriple "dog" "is-a" "animal")
                 (Kg.parse_response "  dog |is-a | animal  "))
    by (vm_compute; left; reflexivity).
  split; [exact H|].
  exact (proj1 (extracted_triples_well_formed (answering "ok") "Dogs." fresh)
               _ _ H).
Defined.

(** ** Entities of a query *)

(** X2.  [extract_entities_from_query] never raises; a blank query is
    answered with no entity and without calling the capability; a failing
    capability gives no entity; and every entity returned is non-empty and
    without white space at either end. *)
Theorem query_entities_trimmed (env : Env) (query : string) (w : World) :
  (exists entities,
      run (Kg.extract_entities_from_query env query) w = Ret entities
      /\ Forall trimmed entities)
  /\ (Text.strip query = EmptyString ->
      Kg.extract_entities_from_query env query w = (Ret [], w))
  /\ (forall e, Text.strip query <> EmptyString ->
                llm_reply env (calls w) = Err e ->
                run (Kg.extract_entities_from_query env query) w = Ret []).
Proof.
  unfold Kg.extract_entities_from_query.
  destruct (Text.strip query) as [|c q'] eqn:Hq; cbn [Text.truthy Text.is_empty negb].
  - split; [|split].
    + exists []. split; [reflexivity | constructor].
    + reflexivity.
    + intros e H. congruence.
  - split; [|split; [discriminate|]].
    + destruct (llm_reply env (calls w)) as [content|e] eqn:E.
      * destruct (negb (Text.truthy (Text.strip content))) eqn:Hc.
        -- exists []. split; [|constructor]. eapply run_of_eq.
           erewrite try_ret_step; [reflexivity|].
           erewrite bind_ret_step by (apply invoke_ok; exact E).
           cbv zeta. now rewrite Hc.
        -- eexists. split.
           ++ eapply run_of_eq.
              erewrite try_ret_step; [reflexivity|].
              erewrite bind_ret_step by (apply invoke_ok; exact E).
              cbv zeta. rewrite Hc. reflexivity.
           ++ apply Forall_forall. intros x Hx.
              apply in_map_iff in Hx as [y [<- Hy]].
              apply filter_In in Hy as [_ Hy]. now apply trimmed_strip.
      * exists []. split; [|constructor]. eapply run_of_eq.
        erewrite try_raise_step
          by (erewrite bind_raise_step by (apply invoke_err; exact E);
              reflexivity).
        erewrite bind_ret_step by apply print_run. reflexivity.
    + intros e _ E. eapply run_of_eq.
      erewrite try_raise_step
        by (erewrite bind_raise_step by (apply invoke_err; exact E);
            reflexivity).
      erewrite bind_ret_step by apply print_run. reflexivity.
Qed.

Lemma query_entities_trimmed_witness :
  Text.strip "  " = EmptyString
  /\ Kg.extract_entities_from_query (answering "dog | cat") "  " fresh
     = (Ret [], fresh)
  /\ Text.strip "dogs?" <> EmptyString
  /\ run (Kg.extract_entities_from_query (always_failing "timeout") "dogs?")
         fresh = Ret [].
Proof.
  destruct (query_entities_trimmed (answering "dog | cat") "  " fresh)
    as [_ [H _]].
  destruct (query_entities_trimmed (always_failing "timeout") "dogs?" fresh)
    as [_ [_ H']].
  split; [reflexivity|]. split; [exact (H eq_refl)|].
  split; [discriminate|].
  exact (H' "timeout" ltac:(discriminate) eq_refl).
Defined.

(** ** The relevance filter *)

Lemma parse_indices_pure parts : forall acc w,
  snd (Kg.parse_indices parts acc w) = w.
Proof.
  induction parts as [|part rest IH]; intros acc w; [reflexivity|].
  cbn [Kg.parse_indices]. cbv zeta.
  destruct (Text.isdigit (Text.strip part)); [|apply IH].
  destruct (Text.int_of_digits (Text.strip part)); [apply IH | reflexivity].
Qed.

Lemma select_indices_incl triples indices :
  incl (Kg.select_indices triples indices) triples.
Proof.
  induction indices as [|i rest IH]; simpl; [intros t []|].
  destruct (nth_error triples i) as [t|] eqn:E; [|exact IH].
  intros x [<- | Hx]; [eapply nth_error_In, E | now apply IH].
Qed.

(** X3.  The relevance filter never raises and never invents a triple:
    whatever the capability answers, or if it fails, every triple returned
    is one of the candidates; with no candidate it returns the empty list
    without calling the capability. *)
Theorem filter_returns_candidates
  (env : Env) (query : string) (triples : list triple) (w : World) :
  (exists kept,
      run (Kg.filter_relevant_triples env query triples) w = Ret kept
      /\ incl kept triples)
  /\ (triples = [] ->
      Kg.filter_relevant_triples env query triples w = (Ret [], w)).
Proof.
  split; [|now intros ->].
  destruct triples as [|t ts].
  - exists []. split; [reflexivity | intros x []].
  - destruct (llm_reply env (calls w)) as [content|e] eqn:E.
    + unfold Kg.filter_relevant_triples. cbv zeta.
      set (w1 := extend w [EvInvoke LlmDeterministic
                             (ReqRelevance query
                                (Kg.format_triples 0 (t :: ts)))] 1).
      destruct (Text.contains "NONE" (Text.strip content)) eqn:Hnone.
      * exists []. split; [|intros x []]. eapply run_of_eq.
        erewrite try_ret_step; [reflexivity|].
        erewrite bind_ret_step by (apply invoke_ok; exact E).
        now rewrite Hnone.
      * pose proof (parse_indices_pure
                      (Text.split "," (Text.strip content)) [] w1) as Hpure.
        destruct (Kg.parse_indices (Text.split "," (Text.strip content)) [] w1)
          as [[indices|e] w2] eqn:Ep; simpl in Hpure; subst w2.
        -- exists (Kg.select_indices (t :: ts) indices).
           split; [|apply select_indices_incl]. eapply run_of_eq.
           erewrite try_ret_step; [reflexivity|].
           erewrite bind_ret_step by (apply invoke_ok; exact E).
           rewrite Hnone. fold w1.
           erewrite bind_ret_step by exact Ep. reflexivity.
        -- exists (t :: ts). split; [|apply incl_refl]. eapply run_of_eq.
           erewrite try_raise_step.
           2:{ erewrite bind_ret_step by (apply invoke_ok; exact E).
               rewrite Hnone. fold w1.
               erewrite bind_raise_step by exact Ep. reflexivity. }
           erewrite bind_ret_step by apply print_run. reflexivity.
    + exists (t :: ts). split; [|apply incl_refl].
      exact (run_of_eq _ _ _ _ (filter_error env query t ts w e E)).
Qed.

Lemma filter_returns_candidates_witness :
  Kg.filter_relevant_triples (answering "0, 7") "dogs"
    [] fresh = (Ret [], fresh).
Proof.
  destruct (filter_returns_candidates (answering "0, 7") "dogs" [] fresh)
    as [_ H].
  exact (H eq_refl).
Defined.

(** ** Numbers written and read back *)

Lemma int_go_uint d : forall acc,
  Text.int_go acc (NilEmpty.string_of_uint d) = Nat.of_uint_acc d acc.
Proof.
  induction d; intros acc; cbn [NilEmpty.string_of_uint Text.int_go Nat.of_uint_acc];
    try reflexivity; rewrite IHd, Nat.tail_mul_spec; f_equal;
    change (Text.code _ - 48) with 0 || change (Text.code _ - 48) with 1
    || change (Text.code _ - 48) with 2 || change (Text.code _ - 48) with 3
    || change (Text.code _ - 48) with 4 || change (Text.code _ - 48) with 5
    || change (Text.code _ - 48) with 6 || change (Text.code _ - 48) with 7
    || change (Text.code _ - 48) with 8 || change (Text.code _ - 48) with 9;
    lia.
Qed.

Lemma uint_chars (f : ascii -> bool) d :
  f "0"%char = true -> f "1"%char = true -> f "2"%char = true ->
  f "3"%char = true -> f "4"%char = true -> f "5"%char = true ->
  f "6"%char = true -> f "7"%char = true -> f "8"%char = true ->
  f "9"%char = true ->
  Text.all_chars f (NilEmpty.string_of_uint d) = true.
Proof.
  intros H0 H1 H2 H3 H4 H5 H6 H7 H8 H9.
  induction d; cbn [NilEmpty.string_of_uint Text.all_chars]; auto;
    rewrite IHd, ?H0, ?H1, ?H2, ?H3, ?H4, ?H5, ?H6, ?H7, ?H8, ?H9;
    reflexivity.
Qed.

Lemma str_of_nat_chars (f : ascii -> bool) n :
  f "0"%char = true -> f "1"%char = true -> f "2"%char = true ->
  f "3"%char = true -> f "4"%char = true -> f "5"%char = true ->
  f "6"%char = true -> f "7"%char = true -> f "8"%char = true ->
  f "9"%char = true ->
  Text.all_chars f (Text.str_of_nat n) = true.
Proof. unfold Text.str_of_nat. apply uint_chars. Qed.

Lemma str_of_nat_nonempty n : Text.truthy (Text.str_of_nat n) = true.
Proof.
  unfold Text.str_of_nat.
  destruct (Nat.to_uint n) eqn:E; try reflexivity.
  pose proof (Unsigned.of_to n) as H. rewrite E in H. simpl in H. subst n.
  discriminate.
Qed.

Lemma int_go_str n : Text.int_go 0 (Text.str_of_nat n) = n.
Proof.
  unfold Text.str_of_nat. rewrite int_go_uint.
  change (Nat.of_uint_acc (Nat.to_uint n) 0) with (Nat.of_uint (Nat.to_uint n)).
  now rewrite Unsigned.of_to.
Qed.

Lemma int_of_str n :
  String.length (Text.str_of_nat n) <= Text.int_max_str_digits ->
  Text.int_of_digits (Text.str_of_nat n) = Some n.
Proof.
  intros Hlen. unfold Text.int_of_digits.
  rewrite str_of_nat_chars by reflexivity.
  apply Nat.leb_le in Hlen. rewrite Hlen. cbn [andb].
  now rewrite int_go_str.
Qed.

Lemma int_of_long_str n :
  Text.int_max_str_digits < String.length (Text.str_of_nat n) ->
  Text.int_of_digits (Text.str_of_nat n) = None.
Proof.
  intros Hlen. unfold Text.int_of_digits.
  apply Nat.leb_gt in Hlen. rewrite Hlen. now rewrite andb_false_r.
Qed.

Lemma isdigit_str n : Text.isdigit (Text.str_of_nat n) = true.
Proof.
  unfold Text.isdigit. rewrite str_of_nat_nonempty.
  now rewrite str_of_nat_chars by reflexivity.
Qed.

Lemma string_app_assoc (a b c : string) : (a ++ b) ++ c = a ++ (b ++ c).
Proof. induction a as [|x a IH]; simpl; [reflexivity | now rewrite IH]. Qed.

Lemma all_chars_app f a b :
  Text.all_chars f (a ++ b) = Text.all_chars f a && Text.all_chars f b.
Proof.
  induction a as [|c a IH]; simpl; [reflexivity|].
  now rewrite IH, andb_assoc.
Qed.

(** A string none of whose characters is [a] does not contain a pattern
    that starts with [a]. *)
Lemma contains_absent_char a rest s :
  Text.all_chars (fun c => negb (Ascii.eqb c a)) s = true ->
  Text.contains (String a rest) s = false.
Proof.
  induction s as [|c s IH]; intros H; [reflexivity|].
  cbn [Text.all_chars] in H. apply andb_true_iff in H as [Hc Hs].
  cbn [Text.contains]. rewrite (IH Hs), orb_false_r. simpl.
  destruct (ascii_dec a c) as [->|]; [|reflexivity].
  now rewrite Ascii.eqb_refl in Hc.
Qed.

Lemma strip_plain s :
  Text.all_chars (fun c => negb (Text.isspace c)) s = true -> Text.strip s = s.
Proof.
  intros H. unfold Text.strip.
  assert (Hl : Text.lstrip s = s).
  { destruct s as [|c s]; [reflexivity|]. simpl in *.
    apply andb_true_iff in H as [Hc _]. apply negb_true_iff in Hc.
    now rewrite Hc. }
  rewrite Hl. induction s as [|c s IH]; [reflexivity|].
  cbn [Text.all_chars] in H. apply andb_true_iff in H as [Hc Hs].
  apply negb_true_iff in Hc. rewrite rstrip_cons, IH.
  - destruct s; [now rewrite Hc | reflexivity].
  - exact Hs.
  - destruct s as [|d s]; [reflexivity|]. simpl in *.
    apply andb_true_iff in Hs as [Hd _]. apply negb_true_iff in Hd.
    now rewrite Hd.
Qed.

Lemma strip_space_plain s :
  Text.all_chars (fun c => negb (Text.isspace c)) s = true ->
  Text.strip (String " " s) = s.
Proof.
  intros H. rewrite <- (strip_plain s H) at 2. reflexivity.
Qed.

Lemma split_app_sep sep a b :
  Text.contains (String sep EmptyString) a = false ->
  Text.split sep (a ++ String sep b) = a :: Text.split sep b.
Proof.
  induction a as [|c a IH]; intros H.
  - simpl. now rewrite Ascii.eqb_refl.
  - cbn [Text.contains] in H. apply orb_false_iff in H as [Hp Hc].
    change (String c a ++ String sep b) with (String c (a ++ String sep b)).
    rewrite split_cons, (IH Hc).
    destruct (Ascii.eqb_spec c sep) as [->|Hne]; [|reflexivity].
    exfalso. simpl in Hp. destruct (ascii_dec sep sep); [|congruence].
    destruct a; discriminate.
Qed.

Lemma no_comma_in_number pre n :
  Text.all_chars (fun c => negb (Ascii.eqb c ",")) pre = true ->
  Text.contains "," (pre ++ Text.str_of_nat n) = false.
Proof.
  intros H. apply contains_absent_char.
  rewrite all_chars_app, H. now apply str_of_nat_chars.
Qed.

(** The reply written for [indices] splits at the commas into the first
    number and the others, each of those behind a space. *)
Lemma split_index_reply rest : forall pre i,
  Text.all_chars (fun c => negb (Ascii.eqb c ",")) pre = true ->
  Text.split "," (pre ++ index_reply (i :: rest))
  = (pre ++ Text.str_of_nat i)
      :: map (fun j => String " " (Text.str_of_nat j)) rest.
Proof.
  induction rest as [|j rest IH]; intros pre i Hpre.
  - unfold index_reply. cbn [map Text.join].
    now apply contains_split_single, no_comma_in_number.
  - unfold index_reply in *. cbn [map Text.join] in *.
    change (", " ++ ?x) with (String "," (String " " x)).
    rewrite <- string_app_assoc.
    rewrite split_app_sep by now apply no_comma_in_number.
    f_equal. change (String " " ?x) with (" " ++ x) at 1.
    rewrite (IH " " j eq_refl). reflexivity.
Qed.

Lemma parse_index_parts rest : forall acc w,
  Forall (fun j => String.length (Text.str_of_nat j)
                   <= Text.int_max_str_digits) rest ->
  Kg.parse_indices (map (fun j => String " " (Text.str_of_nat j)) rest) acc w
  = (Ret (acc ++ rest)%list, w).
Proof.
  induction rest as [|j rest IH]; intros acc w Hlen.
  - simpl. unfold ret. now rewrite app_nil_r.
  - inversion Hlen as [|? ? Hj Hrest]; subst.
    cbn [map Kg.parse_indices]. cbv zeta.
    rewrite strip_space_plain by (now apply str_of_nat_chars).
    rewrite isdigit_str, int_of_str, IH by assumption.
    now rewrite <- app_assoc.
Qed.

Lemma parse_index_parts_long rest : forall acc w,
  Exists (fun j => Text.int_max_str_digits
                   < String.length (Text.str_of_nat j)) rest ->
  exists e,
    Kg.parse_indices (map (fun j => String " " (Text.str_of_nat j)) rest) acc w
    = (Raise e, w).
Proof.
  induction rest as [|j rest IH]; intros acc w Hlong.
  - inversion Hlong.
  - cbn [map Kg.parse_indices]. cbv zeta.
    rewrite strip_space_plain by (now apply str_of_nat_chars).
    rewrite isdigit_str.
    destruct (Nat.le_gt_cases (String.length (Text.str_of_nat j))
                Text.int_max_str_digits) as [Hj | Hj].
    + rewrite int_of_str by exact Hj. apply IH.
      inversion Hlong as [? ? Hbad | ? ? Hrest]; subst; [lia | exact Hrest].
    + rewrite int_of_long_str by exact Hj. now eexists.
Qed.

Lemma index_reply_chars (f : ascii -> bool) indices :
  f "0"%char = true -> f "1"%char = true -> f "2"%char = true ->
  f "3"%char = true -> f "4"%char = true -> f "5"%char = true ->
  f "6"%char = true -> f "7"%char = true -> f "8"%char = true ->
  f "9"%char = true -> f ","%char = true -> f " "%char = true ->
  Text.all_chars f (index_reply indices) = true.
Proof.
  intros H0 H1 H2 H3 H4 H5 H6 H7 H8 H9 Hc Hs. unfold index_reply.
  induction indices as [|a l IH]; [reflexivity|].
  destruct l as [|b l].
  - cbn [map Text.join]. now apply str_of_nat_chars.
  - change (Text.join ", " (map Text.str_of_nat (a :: b :: l)))
      with (Text.str_of_nat a
            ++ String "," (String " "
                 (Text.join ", " (map Text.str_of_nat (b :: l))))).
    rewrite all_chars_app, str_of_nat_chars by assumption.
    cbn [Text.all_chars andb]. now rewrite Hc, Hs, IH.
Qed.

(** X4.  The numbers the filter prompt puts before the candidates come
    back as selections: when the capability answers with a list of numbers
    separated by commas (white space around the answer aside), none of
    them longer than the 4300 digits [int] converts, the filter returns
    the candidates with those numbers, in the order and as often as
    listed, leaving out numbers beyond the last candidate; when a listed
    number is longer than that, [int] raises and the filter returns every
    candidate. *)
Theorem filter_selects_listed
  (env : Env) (query : string) (t : triple) (ts : list triple) (w : World)
  (content : string) (i : nat) (rest : list nat) :
  llm_reply env (calls w) = Ok content ->
  Text.strip content = index_reply (i :: rest) ->
  (Forall (fun j => String.length (Text.str_of_nat j)
                    <= Text.int_max_str_digits) (i :: rest) ->
   run (Kg.filter_relevant_triples env query (t :: ts)) w
   = Ret (Kg.select_indices (t :: ts) (i :: rest)))
  /\ (Exists (fun j => Text.int_max_str_digits
                       < String.length (Text.str_of_nat j)) (i :: rest) ->
      run (Kg.filter_relevant_triples env query (t :: ts)) w
      = Ret (t :: ts))
  /\ (Forall (fun j => j < List.length (t :: ts)) (i :: rest) ->
      map Some (Kg.select_indices (t :: ts) (i :: rest))
      = map (nth_error (t :: ts)) (i :: rest)).
Proof.
  intros Hreply Hcontent.
  assert (Hnone : Text.contains "NONE" (index_reply (i :: rest)) = false).
  { apply contains_absent_char. now apply index_reply_chars. }
  split; [|split].
  - intros Hlen. inversion Hlen as [|? ? Hi Hrest]; subst.
    eapply run_of_eq. unfold Kg.filter_relevant_triples.
    erewrite try_ret_step; [reflexivity|].
    erewrite bind_ret_step by (apply invoke_ok; exact Hreply).
    cbv zeta. rewrite Hcontent, Hnone.
    change (index_reply (i :: rest)) with (EmptyString ++ index_reply (i :: rest)).
    rewrite (split_index_reply rest EmptyString i eq_refl).
    cbn [Kg.parse_indices String.append]. cbv zeta.
    rewrite (strip_plain (Text.str_of_nat i)) by now apply str_of_nat_chars.
    rewrite isdigit_str, int_of_str by exact Hi.
    erewrite bind_ret_step by (apply parse_index_parts; exact Hrest).
    reflexivity.
  - intros Hlong.
    assert (Hparse : exists e,
               Kg.parse_indices
                 (Text.split "," (index_reply (i :: rest))) []
                 (extend w [EvInvoke LlmDeterministic
                              (ReqRelevance query
                                 (Kg.format_triples 0 (t :: ts)))] 1)
               = (Raise e,
                  extend w [EvInvoke LlmDeterministic
                              (ReqRelevance query
                                 (Kg.format_triples 0 (t :: ts)))] 1)).
    { change (index_reply (i :: rest))
        with (EmptyString ++ index_reply (i :: rest)).
      rewrite (split_index_reply rest EmptyString i eq_refl).
      cbn [Kg.parse_indices String.append]. cbv zeta.
      rewrite (strip_plain (Text.str_of_nat i)) by now apply str_of_nat_chars.
      rewrite isdigit_str.
      destruct (Nat.le_gt_cases (String.length (Text.str_of_nat i))
                  Text.int_max_str_digits) as [Hi | Hi].
      - rewrite int_of_str by exact Hi. apply parse_index_parts_long.
        inversion Hlong as [? ? Hbad | ? ? Hrest]; subst; [lia | exact Hrest].
      - rewrite int_of_long_str by exact Hi. now eexists. }
    destruct Hparse as [e Hparse].
    eapply run_of_eq. unfold Kg.filter_relevant_triples.
    erewrite try_raise_step.
    2:{ erewrite bind_ret_step by (apply invoke_ok; exact Hreply).
        cbv zeta. rewrite Hcontent, Hnone.
        erewrite bind_raise_step by exact Hparse. reflexivity. }
    erewrite bind_ret_step by apply print_run. reflexivity.
  - generalize (i :: rest). intros l Hl. induction Hl as [|j l Hj Hl IH].
    + reflexivity.
    + cbn [Kg.select_indices map].
      destruct (nth_error (t :: ts) j) as [x|] eqn:E.
      * cbn [map]. now rewrite IH.
      * apply nth_error_None in E. lia.
Qed.

Lemma filter_selects_listed_witness :
  llm_reply (answering "  2, 0, 7, 2 ") (calls fresh) = Ok "  2, 0, 7, 2 "
  /\ Text.strip "  2, 0, 7, 2 " = index_reply [2; 0; 7; 2]
  /\ Forall (fun j => String.length (Text.str_of_nat j)
                      <= Text.int_max_str_digits) [2; 0; 7; 2]
  /\ run (Kg.filter_relevant_triples (answering "  2, 0, 7, 2 ") "dogs"
            [mkTriple "a" "b" "c"; mkTriple "d" "e" "f"; mkTriple "g" "h" "i"])
         fresh
     = Ret [mkTriple "g" "h" "i"; mkTriple "a" "b" "c"; mkTriple "g" "h" "i"].
Proof.
  assert (H : Forall (fun j => String.length (Text.str_of_nat j)
                               <= Text.int_max_str_digits) [2; 0; 7; 2])
    by (repeat constructor; vm_compute; lia).
  split; [reflexivity|]. split; [reflexivity|]. split; [exact H|].
  exact (proj1 (filter_selects_listed (answering "  2, 0, 7, 2 ") "dogs"
                  (mkTriple "a" "b" "c")
                  [mkTriple "d" "e" "f"; mkTriple "g" "h" "i"] fresh
                  "  2, 0, 7, 2 " 2 [0; 7; 2] eq_refl eq_refl) H).
Defined.

(** ** The graph driver *)

(** X5.  [get_driver] never raises.  A driver once obtained is handed out
    again without any external call; a connection that succeeds is kept
    for the next call; a connection that fails leaves no driver behind, so
    the next call tries again. *)
Theorem driver_kept_or_retried (env : Env) (w : World) :
  (exists r, run (Kg.get_driver env) w = Ret r)
  /\ (forall d, kg_driver w = Some d ->
                Kg.get_driver env w = (Ret (Some d), w))
  /\ (kg_driver w = None ->
      fault env (calls w) = None -> fault env (S (calls w)) = None ->
      run (Kg.get_driver env) w = Ret (Some Neo4jDriver)
      /\ Kg.get_driver env (after (Kg.get_driver env) w)
         = (Ret (Some Neo4jDriver), after (Kg.get_driver env) w))
  /\ (unreachable env w ->
      run (Kg.get_driver env) w = Ret None
      /\ kg_driver (after (Kg.get_driver env) w) = None
      /\ exists evs, emitted (Kg.get_driver env) w = EvDriver :: evs).
Proof.
  assert (Hok : kg_driver w = None ->
                fault env (calls w) = None -> fault env (S (calls w)) = None ->
                Kg.get_driver env w
                = (Ret (Some Neo4jDriver),
                   mkWorld (trace w ++ [EvDriver; EvRun CyReturn1;
                                        EvPrint MsgConnected])
                           (S (S (calls w))) (Some Neo4jDriver) (graph w)
                           (open_handles w))).
  { intros Hd H0 H1. unfold Kg.get_driver.
    cbv [bind try_catch get_kg_driver set_kg_driver external log tick
         print ret raise].
    cbn [calls kg_driver trace graph open_handles]. rewrite Hd.
    cbn [calls kg_driver trace graph open_handles]. rewrite H0.
    cbn [calls kg_driver trace graph open_handles]. rewrite H1.
    cbn [calls kg_driver trace graph open_handles].
    now rewrite <- !app_assoc. }
  assert (Hbad : unreachable env w ->
                 run (Kg.get_driver env) w = Ret None
                 /\ kg_driver (after (Kg.get_driver env) w) = None
                 /\ exists evs, emitted (Kg.get_driver env) w = EvDriver :: evs).
  { intros Hun. pose proof Hun as [Hnone _].
    destruct (get_driver_unreachable env w Hun) as [evs [k [e [Hg Hevs]]]].
    split; [exact (run_of_eq _ _ _ _ Hg)|]. split.
    - rewrite (after_of_eq _ _ _ _ Hg). exact Hnone.
    - rewrite (emitted_extend _ _ _ _ _ Hg).
      destruct Hevs as [-> | ->]; eexists; reflexivity. }
  split; [|split; [|split]].
  - destruct (kg_driver w) as [d|] eqn:Hd.
    + exists (Some d). exact (run_of_eq _ _ _ _ (get_driver_connected env w d Hd)).
    + destruct (fault env (calls w)) as [e|] eqn:H0.
      * exists None. apply Hbad. split; [exact Hd|]. left. now exists e.
      * destruct (fault env (S (calls w))) as [e|] eqn:H1.
        -- exists None. apply Hbad. split; [exact Hd|]. right.
           split; [exact H0|]. now exists e.
        -- exists (Some Neo4jDriver).
           exact (run_of_eq _ _ _ _ (Hok eq_refl eq_refl eq_refl)).
  - intros d Hd. now apply get_driver_connected.
  - intros Hd H0 H1. split; [exact (run_of_eq _ _ _ _ (Hok Hd H0 H1))|].
    rewrite (after_of_eq _ _ _ _ (Hok Hd H0 H1)).
    now apply get_driver_connected.
  - exact Hbad.
Qed.

Lemma driver_kept_or_retried_witness :
  unreachable graph_down fresh
  /\ run (Kg.get_driver graph_down) fresh = Ret None
  /\ kg_driver (after (Kg.get_driver graph_down) fresh) = None
  /\ Kg.get_driver graph_down (connected []) = (Ret (Some Neo4jDriver), connected []).
Proof.
  assert (H : unreachable graph_down fresh).
  { split; [reflexivity|]. left. now eexists. }
  destruct (driver_kept_or_retried graph_down fresh) as [_ [_ [_ Hbad]]].
  destruct (Hbad H) as [Hr [Hk _]].
  destruct (driver_kept_or_retried graph_down (connected [])) as [_ [Hc _]].
  split; [exact H|]. split; [exact Hr|]. split; [exact Hk|].
  exact (Hc Neo4jDriver eq_refl).
Defined.

(** ** The graph query: where its rows come from *)

Lemma firstn_incl {A} n (l : list A) : incl (firstn n l) l.
Proof.
  intros x Hx. rewrite <- (firstn_skipn n l). apply in_or_app. now left.
Qed.

Lemma match_rows_sound g scope entities t :
  In t (Kg.match_rows g scope entities) ->
  exists e,
    In e g /\ t = row_of e
    /\ (forall d, scope = Some d -> e_doc_id e = d)
    /\ (Kg.name_matches entities (e_s e) = true
        \/ Kg.name_matches entities (e_o e) = true).
Proof.
  unfold Kg.match_rows. intros H. apply firstn_incl in H.
  apply in_map_iff in H as [e [<- He]].
  apply filter_In in He as [Hin Hc].
  apply andb_true_iff in Hc as [Hd Hm].
  exists e. split; [exact Hin|]. split; [reflexivity|]. split.
  - intros d ->. now apply String.eqb_eq in Hd.
  - now apply orb_true_iff in Hm.
Qed.

Lemma keeps_graph_get_driver env : keeps graph (Kg.get_driver env).
Proof.
  intros w. destruct (kg_driver w) as [d|] eqn:Hd.
  - now rewrite (after_of_eq _ _ _ _ (get_driver_connected env w d Hd)).
  - unfold after, Kg.get_driver.
    cbv [bind try_catch get_kg_driver set_kg_driver external log tick
         print ret raise].
    cbn [calls kg_driver trace graph open_handles]. rewrite Hd.
    cbn [calls kg_driver trace graph open_handles].
    destruct (fault env (calls w)); [reflexivity|].
    cbn [calls kg_driver trace graph open_handles].
    destruct (fault env (S (calls w))); reflexivity.
Qed.

Lemma keeps_graph_entities env query :
  keeps graph (Kg.extract_entities_from_query env query).
Proof.
  unfold Kg.extract_entities_from_query.
  destruct (negb (Text.truthy (Text.strip query))); [apply keeps_ret|].
  apply keeps_try.
  - apply keeps_bind; [apply keeps_graph_invoke|]. intros r. cbv zeta.
    destruct (negb (Text.truthy (Text.strip r))); apply keeps_ret.
  - intros e. apply keeps_bind; [apply keeps_graph_log|]. intros _.
    apply keeps_ret.
Qed.

Lemma filter_incl env query triples w kept w' :
  Kg.filter_relevant_triples env query triples w = (Ret kept, w') ->
  incl kept triples.
Proof.
  intros H. destruct triples as [|t ts].
  - injection H as <- _. intros x [].
  - destruct (llm_reply env (calls w)) as [content|e] eqn:E.
    + revert H. unfold Kg.filter_relevant_triples. cbv zeta.
      unfold try_catch. erewrite bind_ret_step by (apply invoke_ok; exact E).
      destruct (Text.contains "NONE" (Text.strip content)).
      * intros H. injection H as <- _. intros x [].
      * unfold bind.
        destruct (Kg.parse_indices _ _ _) as [[indices|e] w2].
        -- intros H. injection H as <- _. apply select_indices_incl.
        -- rewrite print_run. intros H. injection H as <- _. apply incl_refl.
    + rewrite (filter_error env query t ts w e E) in H.
      injection H as <- _. apply incl_refl.
Qed.

(** X6.  Whatever [query_kg_for_query] returns was read from the graph:
    every row returned is a relationship the store holds and, when a
    non-empty document id is given, a relationship of that document,
    whatever the capability answered to the entity and relevance
    requests. *)
Theorem query_rows_from_graph
  (env : Env) (query : string) (scope : option string) (w : World)
  (rows : list triple) :
  run (Kg.query_kg_for_query env query scope) w = Ret rows ->
  forall t, In t rows ->
    exists e,
      In e (graph w) /\ t = row_of e
      /\ (forall d, Kg.doc_filter scope = Some d -> e_doc_id e = d).
Proof.
  intros Hrun t Ht. unfold Kg.query_kg_for_query in Hrun.
  pose proof (keeps_graph_get_driver env w) as Hg1.
  destruct (Kg.get_driver env w) as [[[d|]|e] w1] eqn:Ed;
    rewrite (after_of_eq _ _ _ _ Ed) in Hg1.
  2:{ erewrite run_bind_ret in Hrun by exact Ed. cbv beta iota in Hrun.
      erewrite run_bind_ret in Hrun by apply print_run.
      injection Hrun as <-. contradiction. }
  2:{ erewrite run_bind_raise in Hrun by exact Ed. discriminate. }
  erewrite run_bind_ret in Hrun by exact Ed. cbv beta iota in Hrun.
  pose proof (keeps_graph_entities env query w1) as Hg2.
  destruct (Kg.extract_entities_from_query env query w1)
    as [[entities|e] w2] eqn:Ee; rewrite (after_of_eq _ _ _ _ Ee) in Hg2.
  2:{ erewrite run_bind_raise in Hrun by exact Ee. discriminate. }
  erewrite run_bind_ret in Hrun by exact Ee.
  erewrite run_bind_ret in Hrun by apply print_run.
  destruct entities as [|en ens].
  { erewrite run_bind_ret in Hrun by apply print_run.
    injection Hrun as <-. contradiction. }
  set (w2' := extend w2 [EvPrint (MsgEntities (en :: ens))] 0) in *.
  destruct (Kg.run_match env (Kg.doc_filter scope) (en :: ens) w2')
    as [[candidates|e] w3] eqn:Em.
  2:{ erewrite run_bind_raise in Hrun by exact Em. discriminate. }
  destruct (run_match_rows env _ _ _ _ _ Em) as [Hcand _].
  erewrite run_bind_ret in Hrun by exact Em.
  assert (Hsound : forall x, In x candidates ->
             exists e, In e (graph w) /\ x = row_of e
               /\ (forall d, Kg.doc_filter scope = Some d -> e_doc_id e = d)).
  { intros x Hx. rewrite Hcand in Hx.
    destruct (match_rows_sound _ _ _ _ Hx) as [e [Hin [Hrow [Hd _]]]].
    exists e. split; [|now split].
    unfold w2' in Hin. cbn [extend graph] in Hin. congruence. }
  destruct candidates as [|c cs].
  { erewrite run_bind_ret in Hrun by apply print_run.
    injection Hrun as <-. contradiction. }
  erewrite run_bind_ret in Hrun by apply print_run.
  destruct (Kg.filter_relevant_triples env query (c :: cs)
              (extend w3 [EvPrint (MsgFoundCandidates
                                     (List.length (c :: cs)))] 0))
    as [[kept|e] w4] eqn:Ef.
  2:{ erewrite run_bind_raise in Hrun by exact Ef. discriminate. }
  erewrite run_bind_ret in Hrun by exact Ef.
  pose proof (filter_incl _ _ _ _ _ _ Ef) as Hincl.
  destruct kept as [|k ks].
  - erewrite run_bind_ret in Hrun by apply print_run.
    injection Hrun as <-. apply Hsound. now apply (firstn_incl 10).
  - erewrite run_bind_ret in Hrun by apply print_run.
    injection Hrun as <-. apply Hsound. now apply Hincl.
Qed.

Lemma query_rows_from_graph_witness :
  run (Kg.query_kg_for_query (query_env (Ok "3, 1"))
         "what does the dog like?" (Some "doc-1"))
      (connected dog_graph)
  = Ret [mkTriple "Dog" "likes" "toy 3"; mkTriple "Dog" "likes" "toy 1"]
  /\ exists e,
       In e (graph (connected dog_graph))
       /\ mkTriple "Dog" "likes" "toy 3" = row_of e
       /\ (forall d, Kg.doc_filter (Some "doc-1") = Some d -> e_doc_id e = d).
Proof.
  assert (H : run (Kg.query_kg_for_query (query_env (Ok "3, 1"))
                     "what does the dog like?" (Some "doc-1"))
                  (connected dog_graph)
              = Ret [mkTriple "Dog" "likes" "toy 3";
                     mkTriple "Dog" "likes" "toy 1"])
    by (vm_compute; reflexivity).
  split; [exact H|].
  exact (query_rows_from_graph _ _ _ _ _ H _ (or_introl eq_refl)).
Defined.

(** X7.  With a driver at hand, a query that yields no entity is answered
    with the empty list and the graph is not read: a blank query does not
    even call the capability, and a failing capability or a blank reply
    end the query the same way. *)
Theorem query_without_entities
  (env : Env) (query : string) (scope : option string) (w : World)
  (d : driver) :
  kg_driver w = Some d ->
  let ask := Kg.query_kg_for_query env query scope in
  (Text.strip query = EmptyString ->
   ask w = (Ret [], extend w [EvPrint (MsgEntities []);
                              EvPrint MsgNoEntities] 0))
  /\ (forall e, Text.strip query <> EmptyString ->
                llm_reply env (calls w) = Err e ->
                run ask w = Ret [] /\ graph_reads (emitted ask w) = [])
  /\ (forall content, Text.strip query <> EmptyString ->
                      llm_reply env (calls w) = Ok content ->
                      Text.strip content = EmptyString ->
                      run ask w = Ret [] /\ graph_reads (emitted ask w) = []).
Proof.
  intros Hd ask.
  assert (Hstep : forall w2,
             Kg.extract_entities_from_query env query w = (Ret [], w2) ->
             ask w = (Ret [], extend w2 [EvPrint (MsgEntities []);
                                         EvPrint MsgNoEntities] 0)).
  { intros w2 He. unfold ask, Kg.query_kg_for_query.
    erewrite bind_ret_step by (apply get_driver_connected; exact Hd).
    cbv beta iota. erewrite bind_ret_step by exact He.
    erewrite bind_ret_step by apply print_run.
    erewrite bind_ret_step by apply print_run.
    unfold ret. now rewrite extend_extend. }
  split; [|split].
  - intros Hq. apply Hstep. unfold Kg.extract_entities_from_query.
    now rewrite Hq.
  - intros e Hq He.
    assert (Hent : Kg.extract_entities_from_query env query w
                   = (Ret [], extend w [EvInvoke LlmDeterministic
                                          (ReqEntities query);
                                        EvPrint (MsgErrorEntities e)] 1)).
    { unfold Kg.extract_entities_from_query.
      destruct (Text.strip query); [congruence|].
      cbn [Text.truthy Text.is_empty negb].
      erewrite try_raise_step
        by (erewrite bind_raise_step by (apply invoke_err; exact He);
            reflexivity).
      erewrite bind_ret_step by apply print_run.
      unfold ret. now rewrite extend_extend. }
    pose proof (Hstep _ Hent) as H. rewrite extend_extend in H.
    split; [exact (run_of_eq _ _ _ _ H)|].
    now rewrite (emitted_extend _ _ _ _ _ H).
  - intros content Hq Hc Hblank.
    assert (Hent : Kg.extract_entities_from_query env query w
                   = (Ret [], extend w [EvInvoke LlmDeterministic
                                          (ReqEntities query)] 1)).
    { unfold Kg.extract_entities_from_query.
      destruct (Text.strip query); [congruence|].
      cbn [Text.truthy Text.is_empty negb].
      erewrite try_ret_step; [reflexivity|].
      erewrite bind_ret_step by (apply invoke_ok; exact Hc).
      cbv zeta. now rewrite Hblank. }
    pose proof (Hstep _ Hent) as H. rewrite extend_extend in H.
    split; [exact (run_of_eq _ _ _ _ H)|].
    now rewrite (emitted_extend _ _ _ _ _ H).
Qed.

Lemma query_without_entities_witness :
  kg_driver (connected dog_graph) = Some Neo4jDriver
  /\ Text.strip "hello" <> EmptyString
  /\ run (Kg.query_kg_for_query (always_failing "timeout") "hello" None)
         (connected dog_graph) = Ret [].
Proof.
  split; [reflexivity|]. split; [discriminate|].
  destruct (query_without_entities (always_failing "timeout") "hello" None
              (connected dog_graph) Neo4jDriver eq_refl) as [_ [H _]].
  exact (proj1 (H "timeout" ltac:(discriminate) eq_refl)).
Defined.

(** X8.  A failure of the graph read is not caught: with a driver held
    from an earlier call and entities found, an error raised by
    [session.run] leaves [query_kg_for_query] as that error. *)
Theorem query_read_failure_propagates
  (env : Env) (query : string) (scope : option string) (w w2 : World)
  (d : driver) (entity : string) (entities : list string) (e : string) :
  kg_driver w = Some d ->
  Kg.extract_entities_from_query env query w = (Ret (entity :: entities), w2) ->
  fault env (calls w2) = Some e ->
  run (Kg.query_kg_for_query env query scope) w = Raise e.
Proof.
  intros Hd He Hf. unfold Kg.query_kg_for_query.
  erewrite run_bind_ret by (apply get_driver_connected; exact Hd).
  cbv beta iota. erewrite run_bind_ret by exact He.
  erewrite run_bind_ret by apply print_run.
  erewrite run_bind_raise; [reflexivity|].
  unfold Kg.run_match. erewrite bind_raise_step; [reflexivity|].
  apply external_err. exact Hf.
Qed.

Lemma query_read_failure_propagates_witness :
  kg_driver (connected dog_graph) = Some Neo4jDriver
  /\ run (Kg.query_kg_for_query graph_read_fails "what does the dog like?" None)
         (connected dog_graph)
     = Raise "ServiceUnavailable".
Proof.
  split; [reflexivity|].
  exact (query_read_failure_propagates graph_read_fails
           "what does the dog like?" None (connected dog_graph)
           (extend (connected dog_graph)
              [EvInvoke LlmDeterministic
                 (ReqEntities "what does the dog like?")] 1)
           Neo4jDriver "dog" [] "ServiceUnavailable" eq_refl eq_refl eq_refl).
Defined.

(** ** The graph store: merging and finding *)

Lemma edge_eqb_eq a b : Kg.edge_eqb a b = true <-> a = b.
Proof.
  unfold Kg.edge_eqb. destruct a, b; cbn [e_s e_p e_o e_doc_id]. split.
  - intros H. repeat (apply andb_true_iff in H as [H ?]).
    repeat match goal with
           | E : String.eqb _ _ = true |- _ => apply String.eqb_eq in E
           end.
    congruence.
  - intros H. injection H as -> -> -> ->. now rewrite !String.eqb_refl.
Qed.

Lemma existsb_edge e g : existsb (Kg.edge_eqb e) g = true <-> In e g.
Proof.
  rewrite existsb_exists. split.
  - intros [x [Hin Heq]]. apply edge_eqb_eq in Heq. now subst.
  - intros Hin. exists e. split; [exact Hin|]. now apply edge_eqb_eq.
Qed.

Lemma merge_edge_in g t doc_id e :
  In e (Kg.merge_edge g t doc_id) <-> In e g \/ e = edge_of t doc_id.
Proof.
  unfold Kg.merge_edge. fold (edge_of t doc_id).
  destruct (existsb (Kg.edge_eqb (edge_of t doc_id)) g) eqn:E.
  - apply existsb_edge in E. split; [now left|]. intros [H | ->]; auto.
  - rewrite in_app_iff. simpl. split.
    + intros [H | [<- | []]]; auto.
    + intros [H | ->]; auto.
Qed.

Lemma merge_batch_in batch doc_id e : forall g,
  In e (Kg.merge_batch g batch doc_id)
  <-> In e g \/ exists t, In t batch /\ e = edge_of t doc_id.
Proof.
  unfold Kg.merge_batch.
  induction batch as [|t rest IH]; intros g; cbn [fold_left].
  - split; [now left|]. intros [H | [t [[] _]]]. exact H.
  - rewrite IH, merge_edge_in. split.
    + intros [[H | ->] | [t' [Ht' ->]]]; auto.
      * right. exists t. split; [now left | reflexivity].
      * right. exists t'. split; [now right | reflexivity].
    + intros [H | [t' [[<- | Ht'] ->]]]; auto.
      right. now exists t'.
Qed.

Lemma merge_batch_present batch doc_id : forall g,
  (forall t, In t batch -> In (edge_of t doc_id) g) ->
  Kg.merge_batch g batch doc_id = g.
Proof.
  unfold Kg.merge_batch.
  induction batch as [|t rest IH]; intros g H; cbn [fold_left]; [reflexivity|].
  assert (Hm : Kg.merge_edge g t doc_id = g).
  { unfold Kg.merge_edge. fold (edge_of t doc_id).
    assert (E : existsb (Kg.edge_eqb (edge_of t doc_id)) g = true)
      by (apply existsb_edge, H; now left).
    now rewrite E. }
  rewrite Hm. apply IH. intros t' Ht'. apply H. now right.
Qed.

Lemma merge_batch_nodup batch doc_id : forall g,
  NoDup g -> NoDup (Kg.merge_batch g batch doc_id).
Proof.
  unfold Kg.merge_batch.
  induction batch as [|t rest IH]; intros g H; cbn [fold_left]; [exact H|].
  apply IH. unfold Kg.merge_edge. fold (edge_of t doc_id).
  destruct (existsb (Kg.edge_eqb (edge_of t doc_id)) g) eqn:E; [exact H|].
  apply NoDup_app; [exact H | repeat constructor; intros [] |].
  intros x Hx [<- | []].
  apply existsb_edge in Hx. congruence.
Qed.

(** X9.  The write statement merges: after a batch is written every one of
    its triples is a relationship of the document, nothing that was there
    is lost, a store without repeated relationships stays without, and
    writing the same batch again changes nothing. *)
Theorem merge_is_idempotent
  (g : list edge) (batch : list triple) (doc_id : string) :
  (forall t, In t batch -> In (edge_of t doc_id) (Kg.merge_batch g batch doc_id))
  /\ incl g (Kg.merge_batch g batch doc_id)
  /\ (NoDup g -> NoDup (Kg.merge_batch g batch doc_id))
  /\ Kg.merge_batch (Kg.merge_batch g batch doc_id) batch doc_id
     = Kg.merge_batch g batch doc_id.
Proof.
  split; [|split; [|split]].
  - intros t Ht. apply merge_batch_in. right. now exists t.
  - intros e He. apply merge_batch_in. now left.
  - apply merge_batch_nodup.
  - apply merge_batch_present. intros t Ht. apply merge_batch_in.
    right. now exists t.
Qed.

Lemma merge_is_idempotent_witness :
  NoDup dog_graph
  /\ NoDup (Kg.merge_batch dog_graph
              [mkTriple "Dog" "likes" "toy 3"; mkTriple "Cat" "likes" "milk";
               mkTriple "Cat" "likes" "milk"] "doc-1")
  /\ List.length (Kg.merge_batch dog_graph
                    [mkTriple "Dog" "likes" "toy 3";
                     mkTriple "Cat" "likes" "milk";
                     mkTriple "Cat" "likes" "milk"] "doc-1") = 13.
Proof.
  assert (H : NoDup dog_graph).
  { unfold dog_graph. apply Injective_map_NoDup_in; [|apply seq_NoDup].
    intros x y _ _ Heq. injection Heq as Heq.
    apply (f_equal (Text.int_go 0)) in Heq.
    now rewrite !int_go_str in Heq. }
  split; [exact H|]. split; [|reflexivity].
  destruct (merge_is_idempotent dog_graph
              [mkTriple "Dog" "likes" "toy 3"; mkTriple "Cat" "likes" "milk";
               mkTriple "Cat" "likes" "milk"] "doc-1") as [_ [_ [Hn _]]].
  exact (Hn H).
Defined.

(** X10.  What is written can be found: after a batch is merged for a
    document, a read scoped to that document (or to none) with an entity
    that matches the subject or the object of one of its triples returns
    that triple, unless the read hits its cap of 50 rows. *)
Theorem stored_triple_found
  (g : list edge) (batch : list triple) (doc_id : string)
  (scope : option string) (entities : list string) (t : triple) :
  In t batch ->
  (forall d, scope = Some d -> d = doc_id) ->
  Kg.name_matches entities (t_s t) || Kg.name_matches entities (t_o t) = true ->
  In t (Kg.match_rows (Kg.merge_batch g batch doc_id) scope entities)
  \/ List.length (Kg.match_rows (Kg.merge_batch g batch doc_id) scope entities)
     = 50.
Proof.
  intros Hin Hscope Hmatch. unfold Kg.match_rows.
  set (found := map (fun e => mkTriple (e_s e) (e_p e) (e_o e))
                    (filter _ (Kg.merge_batch g batch doc_id))).
  assert (Hfound : In t found).
  { unfold found. apply in_map_iff. exists (edge_of t doc_id).
    split; [now destruct t|]. apply filter_In. split.
    - apply merge_batch_in. right. now exists t.
    - cbn [edge_of e_s e_o e_doc_id]. rewrite Hmatch, andb_true_r.
      destruct scope as [d|]; [|reflexivity].
      rewrite (Hscope d eq_refl). apply String.eqb_refl. }
  destruct (Nat.le_gt_cases (List.length found) 50) as [Hle | Hgt].
  - left. now rewrite firstn_all2.
  - right. rewrite length_firstn. lia.
Qed.

Lemma stored_triple_found_witness :
  In (mkTriple "Cat" "likes" "milk") [mkTriple "Cat" "likes" "milk"]
  /\ Kg.name_matches ["CAT"] "Cat" || Kg.name_matches ["CAT"] "milk" = true
  /\ In (mkTriple "Cat" "likes" "milk")
        (Kg.match_rows
           (Kg.merge_batch dog_graph [mkTriple "Cat" "likes" "milk"] "doc-2")
           (Some "doc-2") ["CAT"]).
Proof.
  split; [now left|]. split; [reflexivity|].
  destruct (stored_triple_found dog_graph [mkTriple "Cat" "likes" "milk"]
              "doc-2" (Some "doc-2") ["CAT"] (mkTriple "Cat" "likes" "milk")
              (or_introl eq_refl)
              (fun d H => eq_sym (f_equal (fun o => match o with
                                                    | Some x => x
                                                    | None => d
                                                    end) H))
              eq_refl) as [H | H].
  - exact H.
  - vm_compute in H. discriminate.
Defined.

(** ** Throttling: what counts as a rate limit *)

(** X11.  Both retry loops recognise throttling by the same test: an error
    whose text contains [429] anywhere, or [rate_limit] in any mix of
    upper and lower case, is a rate-limit error. *)
Theorem rate_limit_markers (e : string) :
  Ingest.is_rate_limit e = Kg.is_rate_limit e
  /\ (Text.contains "429" e = true -> Kg.is_rate_limit e = true)
  /\ (forall marker,
         Text.lower marker = "rate_limit" ->
         Text.contains marker e = true -> Kg.is_rate_limit e = true).
Proof.
  split; [reflexivity|]. unfold Kg.is_rate_limit. split.
  - intros H. apply (contains_lower "429") in H. simpl Text.lower in H at 1.
    apply orb_true_iff. left. exact H.
  - intros marker Hm H. apply contains_lower in H. rewrite Hm in H.
    apply orb_true_iff. now right.
Qed.

Lemma rate_limit_markers_witness :
  Text.lower "Rate_Limit" = "rate_limit"
  /\ Text.contains "Rate_Limit" "OpenAI: Rate_Limit exceeded" = true
  /\ Kg.is_rate_limit "OpenAI: Rate_Limit exceeded" = true.
Proof.
  split; [reflexivity|]. split; [reflexivity|].
  destruct (rate_limit_markers "OpenAI: Rate_Limit exceeded") as [_ [_ H]].
  exact (H "Rate_Limit" eq_refl eq_refl).
Defined.

(** ** The answer: failures and image paths *)

(** X12.  The synthesizer does not catch a failure of the answer
    capability: once there is enough context or there are graph facts, an
    error raised by the call leaves [generate_answer_with_validation] as
    that error. *)
Theorem answer_failure_propagates
  (env : Env) (w : World) (question history : string)
  (docs : list Document) (kg : kg_input) (answer_lang : string) (e : string) :
  50 <= String.length (Text.strip (RagChain.format_docs docs))
  \/ Text.strip (RagChain.format_kg kg) <> EmptyString ->
  llm_reply env (calls w) = Err e ->
  run (RagChain.generate_answer_with_validation env question history docs kg
         answer_lang) w
  = Raise e.
Proof.
  intros Hctx He. unfold RagChain.generate_answer_with_validation. cbv zeta.
  assert (H1 : negb (Text.truthy (Text.strip (RagChain.format_docs docs)))
               && negb (Text.truthy (Text.strip (RagChain.format_kg kg)))
               = false).
  { destruct Hctx as [Hlen | Hkg].
    - destruct (Text.strip (RagChain.format_docs docs));
        [simpl in Hlen; lia | reflexivity].
    - destruct (Text.strip (RagChain.format_kg kg)); [congruence|].
      apply andb_false_r. }
  assert (H2 : (String.length (Text.strip (RagChain.format_docs docs)) <? 50)
               && negb (Text.truthy (Text.strip (RagChain.format_kg kg)))
               = false).
  { destruct Hctx as [Hlen | Hkg].
    - apply Nat.ltb_ge in Hlen. now rewrite Hlen.
    - destruct (Text.strip (RagChain.format_kg kg)); [congruence|].
      apply andb_false_r. }
  rewrite H1, H2.
  erewrite run_bind_raise; [reflexivity|]. apply invoke_err. exact He.
Qed.

Lemma answer_failure_propagates_witness :
  (50 <= String.length (Text.strip (RagChain.format_docs [text_chunk long_text]))
   \/ Text.strip (RagChain.format_kg (KgList [])) <> EmptyString)
  /\ run (RagChain.generate_answer_with_validation
            (always_failing "Connection error.") "What is a dog?" EmptyString
            [text_chunk long_text] (KgList []) "English") fresh
     = Raise "Connection error.".
Proof.
  assert (H : 50 <= String.length
                      (Text.strip (RagChain.format_docs [text_chunk long_text]))
              \/ Text.strip (RagChain.format_kg (KgList [])) <> EmptyString).
  { left. vm_compute. repeat constructor. }
  split; [exact H|].
  exact (answer_failure_propagates (always_failing "Connection error.") fresh
           "What is a dog?" EmptyString [text_chunk long_text] (KgList [])
           "English" "Connection error." H eq_refl).
Defined.

Lemma set_add_in path paths p :
  In p (RagChain.set_add path paths) <-> p = path \/ In p paths.
Proof.
  unfold RagChain.set_add.
  destruct (existsb (String.eqb path) paths) eqn:E.
  - apply existsb_exists in E as [x [Hx Heq]]. apply String.eqb_eq in Heq.
    subst x. split; [now right|]. intros [-> | H]; auto.
  - rewrite in_app_iff. simpl. split.
    + intros [H | [<- | []]]; auto.
    + intros [-> | H]; auto.
Qed.

Lemma set_add_nodup path paths :
  NoDup paths -> NoDup (RagChain.set_add path paths).
Proof.
  intros H. unfold RagChain.set_add.
  destruct (existsb (String.eqb path) paths) eqn:E; [exact H|].
  apply NoDup_app; [exact H | repeat constructor; intros [] |].
  intros x Hx [<- | []].
  assert (existsb (String.eqb path) paths = true); [|congruence].
  apply existsb_exists. exists path. split; [exact Hx | apply String.eqb_refl].
Qed.

Lemma collect_image_paths_spec docs : forall acc,
  (NoDup acc -> NoDup (RagChain.collect_image_paths docs acc))
  /\ (forall p,
         In p (RagChain.collect_image_paths docs acc)
         <-> In p acc
             \/ exists d, In d docs /\ meta_type d = Some "image"
                          /\ meta_image_path d = Some p /\ p <> EmptyString).
Proof.
  induction docs as [|d rest IH]; intros acc.
  - split; [auto|]. intros p. split; [now left|].
    intros [H | [d [[] _]]]. exact H.
  - cbn [RagChain.collect_image_paths].
    assert (Hskip :
      (meta_type d <> Some "image" \/ meta_image_path d = None
       \/ meta_image_path d = Some EmptyString) ->
      (NoDup acc -> NoDup (RagChain.collect_image_paths rest acc))
      /\ (forall p,
             In p (RagChain.collect_image_paths rest acc)
             <-> In p acc
                 \/ exists d', In d' (d :: rest) /\ meta_type d' = Some "image"
                               /\ meta_image_path d' = Some p
                               /\ p <> EmptyString)).
    { intros Hno. destruct (IH acc) as [Hn Hi]. split; [exact Hn|].
      intros p. rewrite Hi. split.
      - intros [H | [d' [Hd' Hrest]]]; [now left|].
        right. exists d'. split; [now right | exact Hrest].
      - intros [H | [d' [[<- | Hd'] [Ht [Hp Hne]]]]]; [now left | |].
        + exfalso. destruct Hno as [Hno | [Hno | Hno]]; congruence.
        + right. now exists d'. }
    destruct (meta_type d) as [ty|] eqn:Ety;
      [|apply Hskip; left; discriminate].
    destruct (String.eqb ty "image") eqn:Eimg.
    2:{ apply Hskip. left. intros H. injection H as ->. discriminate. }
    apply String.eqb_eq in Eimg. subst ty.
    destruct (meta_image_path d) as [path|] eqn:Epath;
      [|apply Hskip; right; now left].
    destruct path as [|c path'] eqn:Ep; cbn [Text.truthy Text.is_empty negb].
    { apply Hskip. right. now right. }
    assert (Hpath : path <> EmptyString) by (rewrite Ep; discriminate).
    rewrite <- Ep in *. clear Ep.
    destruct (IH (RagChain.set_add path acc)) as [Hn Hi]. split.
    + intros Hacc. apply Hn. now apply set_add_nodup.
    + intros p. rewrite Hi, set_add_in. split.
      * intros [[-> | H] | [d' [Hd' Hrest]]].
        -- right. exists d. split; [now left|]. repeat split; auto.
        -- now left.
        -- right. exists d'. split; [now right | exact Hrest].
      * intros [H | [d' [[<- | Hd'] [Ht [Hp Hne]]]]].
        -- left. now right.
        -- left. left. congruence.
        -- right. now exists d'.
Qed.

(** X13.  The image paths returned with an answer hold no path twice and
    only the non-empty [image_path] of retrieved documents of type
    [image]; when the capability was called they hold every such path. *)
Theorem answer_image_paths
  (env : Env) (w : World) (question history : string)
  (docs : list Document) (kg : kg_input) (answer_lang : string)
  (text : string) (confidence : Float.float) (image_paths : list string) :
  let answer :=
    RagChain.generate_answer_with_validation env question history docs kg
                                             answer_lang in
  run answer w = Ret (text, confidence, image_paths) ->
  NoDup image_paths
  /\ (forall p, In p image_paths ->
        exists d, In d docs /\ meta_type d = Some "image"
                  /\ meta_image_path d = Some p /\ p <> EmptyString)
  /\ (invocations (emitted answer w) <> [] ->
      forall d p, In d docs -> meta_type d = Some "image" ->
                  meta_image_path d = Some p -> p <> EmptyString ->
                  In p image_paths).
Proof.
  intros answer Hrun.
  destruct (collect_image_paths_spec docs []) as [Hn Hi].
  destruct (answer_invokes env question history docs kg answer_lang w)
    as [H | [H | H]]; fold answer in H.
  - rewrite (run_of_eq _ _ _ _ H) in Hrun. injection Hrun as _ _ <-.
    split; [constructor|]. split; [intros p []|].
    intros Hinv. now rewrite (emitted_unchanged _ _ _ H) in Hinv.
  - rewrite (run_of_eq _ _ _ _ H) in Hrun. injection Hrun as _ _ <-.
    split; [constructor|]. split; [intros p []|].
    intros Hinv. now rewrite (emitted_unchanged _ _ _ H) in Hinv.
  - unfold run in Hrun. rewrite H in Hrun.
    destruct (llm_reply env (calls w)) as [content|e] eqn:E.
    + erewrite bind_ret_step in Hrun by (apply invoke_ok; exact E).
      cbv beta zeta in Hrun. unfold ret in Hrun. simpl fst in Hrun.
      injection Hrun as _ _ <-.
      split; [apply Hn; constructor|]. split.
      * intros p Hp. apply Hi in Hp as [[] | Hp]. exact Hp.
      * intros _ d p Hd Ht Hp Hne. apply Hi. right. now exists d.
    + erewrite bind_raise_step in Hrun by (apply invoke_err; exact E).
      discriminate.
Qed.

Lemma answer_image_paths_witness :
  run (RagChain.generate_answer_with_validation (answering "A dog.")
         "What is shown?" EmptyString
         [image_chunk "static/images/a.png"; text_chunk long_text;
          image_chunk "static/images/a.png"; image_chunk "static/images/b.png"]
         (KgList []) "English") fresh
  = Ret ("A dog.",
         S754_finite false 7672332325188377 (-53),
         ["static/images/a.png"; "static/images/b.png"])
  /\ NoDup ["static/images/a.png"; "static/images/b.png"].
Proof.
  assert (H : run (RagChain.generate_answer_with_validation (answering "A dog.")
                     "What is shown?" EmptyString
                     [image_chunk "static/images/a.png"; text_chunk long_text;
                      image_chunk "static/images/a.png";
                      image_chunk "static/images/b.png"]
                     (KgList []) "English") fresh
              = Ret ("A dog.",
                     S754_finite false 7672332325188377 (-53),
                     ["static/images/a.png"; "static/images/b.png"]))
    by reflexivity.
  split; [exact H|].
  exact (proj1 (answer_image_paths _ _ _ _ _ _ _ _ _ _ H)).
Defined.

(** ** The vector store: batches of chunks *)

Lemma add_batches_run env chunks :
  no_faults env ->
  forall starts w,
  exists evs k,
    VectorStore.add_batches env chunks starts w = (Ret tt, extend w evs k)
    /\ added_batches evs
       = map (fun i => slice chunks i VectorStore.batch_size) starts.
Proof.
  intros Hnf. induction starts as [|i rest IH]; intros w.
  - exists [], 0. now rewrite extend_nil.
  - cbn [VectorStore.add_batches]. cbv zeta.
    erewrite bind_ret_step by (apply external_ok; apply Hnf).
    erewrite bind_ret_step by apply print_run.
    match goal with
    | |- context [VectorStore.add_batches env chunks rest ?w1] =>
        destruct (IH w1) as [evs [k [Hrun Hadded]]]
    end.
    rewrite Hrun, !extend_extend. eexists _, _. split; [reflexivity|].
    unfold added_batches in *. cbn [app flat_map map]. now rewrite Hadded.
Qed.

(** X14.  When the vector store works, [add_chunks] returns after handing
    the chunks to [add_documents] in consecutive batches: the batches put
    together are the chunks, in order, and each holds between 1 and 100
    chunks. *)
Theorem add_chunks_in_batches
  (env : Env) (w : World) (chunks : list Document) :
  no_faults env ->
  let added := added_batches (emitted (VectorStore.add_chunks env chunks) w) in
  run (VectorStore.add_chunks env chunks) w = Ret tt
  /\ added = batches 100 chunks
  /\ List.concat added = chunks
  /\ Forall (fun batch => 1 <= List.length batch <= 100) added.
Proof.
  intros Hnf added.
  destruct (add_batches_run env chunks Hnf
              (range_step 0 (List.length chunks) VectorStore.batch_size)
              (extend w [EvPGVector] 1)) as [evs [k [Hrun Hadded]]].
  assert (Hall : VectorStore.add_chunks env chunks w
                 = (Ret tt, extend w ([EvPGVector] ++ evs) (k + 1))).
  { unfold VectorStore.add_chunks.
    erewrite bind_ret_step by (apply external_ok; apply Hnf).
    rewrite Hrun. now rewrite extend_extend. }
  assert (Hbatches : added = batches 100 chunks).
  { unfold added. rewrite (emitted_extend _ _ _ _ _ Hall).
    unfold added_batches in *. rewrite flat_map_app, Hadded. reflexivity. }
  split; [exact (run_of_eq _ _ _ _ Hall)|]. split; [exact Hbatches|].
  rewrite Hbatches. split.
  - apply concat_batches. lia.
  - apply batches_bounds. lia.
Qed.

Lemma add_chunks_in_batches_witness :
  no_faults (answering "ok")
  /\ added_batches
       (emitted (VectorStore.add_chunks (answering "ok")
                   (repeat (text_chunk long_text) 250)) fresh)
     = batches 100 (repeat (text_chunk long_text) 250).
Proof.
  assert (H : no_faults (answering "ok")) by (intros k; reflexivity).
  split; [exact H|].
  exact (proj1 (proj2 (add_chunks_in_batches (answering "ok") fresh
                         (repeat (text_chunk long_text) 250) H))).
Defined.

(** ** Ingestion: what a run may do *)

Section IngestEvents.

Variable f : event -> bool.
Hypothesis logging : allows_logging f.
Variable env : Env.
Variables (doc_id file_name : string) (deep_ocr : bool)
          (progress_callback : option Ingest.callback).

Hypothesis pages_behave : forall doc_pdf i,
  behaves f true
    (Ingest._process_pdf_page env doc_pdf i doc_id file_name deep_ocr).
Hypothesis progress_allowed : forall current total,
  f (EvProgress current total) = true.

Lemma behaves_ingest_page doc_pdf total i batch_docs :
  behaves f true
    (Ingest.ingest_page env doc_pdf total doc_id file_name deep_ocr
       progress_callback i batch_docs).
Proof.
  unfold Ingest.ingest_page. apply behaves_try.
  - apply behaves_bind; [apply pages_behave|]. intros page_docs. cbv zeta.
    apply behaves_try.
    + apply behaves_bind.
      * destruct progress_callback;
          [apply behaves_external; [apply progress_allowed | discriminate]
          | apply behaves_ret].
      * intros _. apply behaves_bind; [|intros _; apply behaves_ret].
        destruct deep_ocr; [now apply behaves_sleep | apply behaves_ret].
    + intros e. apply behaves_bind; [now apply behaves_print|].
      intros _. apply behaves_ret.
  - intros e. apply behaves_bind; [now apply behaves_print|].
    intros _. apply behaves_ret.
Qed.

Lemma behaves_ingest_pages doc_pdf total pages : forall batch_docs,
  behaves f true
    (Ingest.ingest_pages env doc_pdf total doc_id file_name deep_ocr
       progress_callback pages batch_docs).
Proof.
  induction pages as [|i rest IH]; intros batch_docs; simpl.
  - apply behaves_ret.
  - apply behaves_bind; [apply behaves_ingest_page | exact IH].
Qed.

Hypothesis stores_allowed :
  f EvPGVector = true /\ f EvDriver = true /\ f (EvRun CyReturn1) = true
  /\ (forall docs, f (EvSplit docs) = true)
  /\ (forall batch, f (EvAddDocuments batch) = true)
  /\ (forall text, f (EvInvoke Llm (ReqTriples text)) = true)
  /\ (forall batch, f (EvRun (CyMerge batch doc_id)) = true).

Lemma behaves_ingest_batches doc_pdf total starts :
  behaves f true
    (Ingest.ingest_batches env doc_pdf total doc_id file_name deep_ocr
       progress_callback starts).
Proof.
  destruct stores_allowed as [Hpg [Hd [Hr [Hs [Ha [Hi Hm]]]]]].
  induction starts as [|b rest IH]; simpl.
  - apply behaves_ret.
  - apply behaves_bind; [|intros _; exact IH].
    unfold Ingest.ingest_batch. cbv zeta.
    apply behaves_bind; [now apply behaves_print|]. intros _.
    apply behaves_bind; [apply behaves_ingest_pages|]. intros [|d ds].
    + apply behaves_ret.
    + apply behaves_bind; [apply behaves_external; [apply Hs | discriminate]|].
      intros _. cbv zeta.
      apply behaves_bind;
        [apply behaves_add_chunks; auto; discriminate|]. intros _.
      apply behaves_bind;
        [apply behaves_upsert; auto; discriminate|]. intros _.
      now apply behaves_print.
Qed.

Hypothesis handle_allowed : f EvOpen = true /\ f EvClose = true.

Lemma ingest_pdf_events file_bytes w :
  forallb f (emitted (Ingest.ingest_pdf env file_bytes file_name doc_id
                        deep_ocr progress_callback) w) = true.
Proof.
  destruct handle_allowed as [Hopen Hclose].
  destruct logging as [Hprint _].
  destruct file_bytes as [doc_pdf|e];
    [|now rewrite (emitted_unchanged
                     (Ingest.ingest_pdf env (Broken e) file_name doc_id
                        deep_ocr progress_callback) w (Raise e) eq_refl)].
  set (m := Ingest.ingest_pdf env (Fetched doc_pdf) file_name doc_id deep_ocr
              progress_callback).
  set (total := List.length doc_pdf).
  set (w0 := mkWorld (trace w ++ [EvOpen]) (calls w) (kg_driver w) (graph w)
                     (S (open_handles w))).
  set (w0' := extend w0 [EvPrint (MsgProcessing file_name total deep_ocr)] 0).
  set (batches := Ingest.ingest_batches env doc_pdf total doc_id file_name
                    deep_ocr progress_callback
                    (range_step 0 total Ingest.BATCH_SIZE)).
  assert (Hm : m w = bind batches (fun _ => Ingest.close ;; ret doc_id) w0')
    by reflexivity.
  destruct (behaves_ingest_batches doc_pdf total
              (range_step 0 total Ingest.BATCH_SIZE) w0')
    as [[evs [Ht Hf]] _].
  fold batches in Ht.
  destruct (batches w0') as [[[]|e] w1] eqn:Eb;
    rewrite (after_of_eq _ _ _ _ Eb) in Ht.
  - assert (Hfinal : m w
                     = (Ret doc_id,
                        mkWorld (trace w1 ++ [EvClose]) (calls w1)
                                (kg_driver w1) (graph w1)
                                (pred (open_handles w1)))).
    { rewrite Hm. erewrite bind_ret_step by exact Eb. reflexivity. }
    rewrite (emitted_of_trace m w
               ([EvOpen; EvPrint (MsgProcessing file_name total deep_ocr)]
                ++ evs ++ [EvClose])).
    + rewrite !forallb_app, Hf. simpl. now rewrite Hopen, Hprint, Hclose.
    + rewrite (after_of_eq _ _ _ _ Hfinal). cbn [trace]. rewrite Ht.
      unfold w0', w0. cbn [extend trace]. now rewrite <- !app_assoc.
  - assert (Hfinal : m w = (Raise e, w1)).
    { rewrite Hm. erewrite bind_raise_step by exact Eb. reflexivity. }
    rewrite (emitted_of_trace m w
               ([EvOpen; EvPrint (MsgProcessing file_name total deep_ocr)]
                ++ evs)).
    + rewrite !forallb_app, Hf. simpl. now rewrite Hopen, Hprint.
    + rewrite (after_of_eq _ _ _ _ Hfinal). rewrite Ht.
      unfold w0', w0. cbn [extend trace]. now rewrite <- !app_assoc.
Qed.

End IngestEvents.

Lemma behaves_shallow_page f env doc_pdf i doc_id file_name :
  allows_logging f ->
  behaves f true
    (Ingest._process_pdf_page env doc_pdf i doc_id file_name false).
Proof.
  intros Hlog. unfold Ingest._process_pdf_page.
  apply behaves_bind.
  { unfold Ingest.load_page. destruct (nth_error doc_pdf i);
      [apply behaves_fetch | apply behaves_raise]. }
  intros page. rewrite andb_false_r.
  apply behaves_bind; [apply behaves_ret|]. intros text. apply behaves_ret.
Qed.

Lemma shallow_events evs :
  forallb shallow_step evs = true ->
  written_files evs = []
  /\ forall client req,
       In (client, req) (invocations evs) ->
       client = Llm /\ exists text, req = ReqTriples text.
Proof.
  induction evs as [|ev evs IH]; intros H; [split; [reflexivity | intros ? ? []]|].
  simpl in H. apply andb_true_iff in H as [Hev Hrest].
  destruct (IH Hrest) as [Hw Hi].
  destruct ev; try discriminate; try (split; [exact Hw | exact Hi]).
  destruct client; try discriminate. destruct req; try discriminate.
  split; [exact Hw|]. intros c r [Heq | Hin]; [|now apply Hi].
  injection Heq as <- <-. split; [reflexivity | now eexists].
Qed.

(** X15.  Without deep extraction an ingestion writes no image file and
    calls no capability except for triple extraction: the vision
    capability is never used, whatever the document holds and whatever
    fails on the way. *)
Theorem shallow_ingestion_uses_no_vision
  (env : Env) (w : World) (file_bytes : fetched pdf_document)
  (file_name doc_id : string) (progress_callback : option Ingest.callback) :
  let done :=
    emitted (Ingest.ingest_pdf env file_bytes file_name doc_id false
               progress_callback) w in
  written_files done = []
  /\ forall client req,
       In (client, req) (invocations done) ->
       client = Llm /\ exists text, req = ReqTriples text.
Proof.
  apply shallow_events. apply ingest_pdf_events.
  - split; reflexivity.
  - intros doc_pdf i. apply behaves_shallow_page. split; reflexivity.
  - reflexivity.
  - repeat split; reflexivity.
  - split; reflexivity.
Qed.

Lemma shallow_ingestion_uses_no_vision_witness :
  In (Llm, ReqTriples long_text)
     (invocations
        (emitted (Ingest.ingest_pdf (answering "dog | is-a | animal")
                    (Fetched [plain_page long_text]) "book.pdf" "doc-1" false
                    None) fresh))
  /\ Llm = Llm
  /\ exists text, ReqTriples long_text = ReqTriples text.
Proof.
  assert (H : In (Llm, ReqTriples long_text)
                 (invocations
                    (emitted (Ingest.ingest_pdf
                                (answering "dog | is-a | animal")
                                (Fetched [plain_page long_text]) "book.pdf"
                                "doc-1" false None) fresh)))
    by (vm_compute; left; reflexivity).
  split; [exact H|].
  exact (proj2 (shallow_ingestion_uses_no_vision
                  (answering "dog | is-a | animal") fresh
                  (Fetched [plain_page long_text]) "book.pdf" "doc-1" None)
               Llm (ReqTriples long_text) H).
Defined.

(** ** Ingestion: documents without content *)

Section NothingToStore.

Variable env : Env.
Variables (doc_pdf : pdf_document) (total_pages : nat)
          (doc_id file_name : string)
          (progress_callback : option Ingest.callback).

Let inside (ev : event) : bool := negb (is_outside_call ev).

Hypothesis no_content : forall i p,
  nth_error doc_pdf i = Some p -> yields_nothing p = true.

Lemma callback_contained i (batch_docs : list Document) w1 :
  exists evs k,
    try_catch
      (match progress_callback with
       | Some _ => external env (EvProgress (i + 1) total_pages)
       | None => ret tt
       end ;;
       ret tt ;;
       ret batch_docs)
      (fun e => print (MsgSkippingPage (i + 1) e) ;; ret batch_docs) w1
    = (Ret batch_docs, extend w1 evs k)
    /\ forallb inside evs = true.
Proof.
  destruct progress_callback as [cb|].
  - destruct (fault env (calls w1)) as [e|] eqn:E.
    + exists [EvProgress (i + 1) total_pages;
              EvPrint (MsgSkippingPage (i + 1) e)], 1.
      split; [|reflexivity].
      erewrite try_raise_step
        by (erewrite bind_raise_step by (apply external_err; exact E);
            reflexivity).
      erewrite bind_ret_step by apply print_run.
      unfold ret. now rewrite extend_extend.
    + exists [EvProgress (i + 1) total_pages], 1.
      split; [|reflexivity].
      erewrite try_ret_step; [reflexivity|].
      erewrite bind_ret_step by (apply external_ok; exact E).
      reflexivity.
  - exists [], 0. split; [|reflexivity]. now rewrite extend_nil.
Qed.

Lemma ingest_page_nothing i batch_docs w :
  exists evs k,
    Ingest.ingest_page env doc_pdf total_pages doc_id file_name false
      progress_callback i batch_docs w
    = (Ret batch_docs, extend w evs k)
    /\ forallb inside evs = true.
Proof.
  pose proof (no_content i) as Hpage.
  unfold Ingest.ingest_page.
  assert (Hskip : forall e,
    Ingest._process_pdf_page env doc_pdf i doc_id file_name false w
    = (Raise e, w) ->
    exists evs k,
      try_catch
        (page_docs <- Ingest._process_pdf_page env doc_pdf i doc_id file_name
                        false ;;
         let batch_docs0 := (batch_docs ++ page_docs)%list in
         try_catch
           (match progress_callback with
            | Some _ => external env (EvProgress (i + 1) total_pages)
            | None => ret tt
            end ;;
            ret tt ;;
            ret batch_docs0)
           (fun e => print (MsgSkippingPage (i + 1) e) ;; ret batch_docs0))
        (fun e => print (MsgSkippingPage (i + 1) e) ;; ret batch_docs) w
      = (Ret batch_docs, extend w evs k)
      /\ forallb inside evs = true).
  { intros e He. exists [EvPrint (MsgSkippingPage (i + 1) e)], 0.
    split; [|reflexivity].
    erewrite try_raise_step
      by (erewrite bind_raise_step by exact He; reflexivity).
    erewrite bind_ret_step by apply print_run. reflexivity. }
  destruct (nth_error doc_pdf i) as [[page|e]|] eqn:E.
  - specialize (Hpage _ eq_refl). cbn [yields_nothing] in Hpage.
    apply negb_true_iff in Hpage.
    assert (Hp : Ingest._process_pdf_page env doc_pdf i doc_id file_name
                   false w = (Ret [], w)).
    { unfold Ingest._process_pdf_page, Ingest.load_page. rewrite E.
      cbn [Ingest.fetch]. erewrite bind_ret_step by reflexivity.
      cbv zeta. rewrite andb_false_r.
      erewrite bind_ret_step by reflexivity. now rewrite Hpage. }
    destruct (callback_contained i (batch_docs ++ [])%list w)
      as [evs [k [Hstep Hin]]].
    exists evs, k. split; [|exact Hin].
    erewrite try_ret_step
      by (erewrite bind_ret_step by exact Hp; exact Hstep).
    now rewrite app_nil_r.
  - apply (Hskip e). unfold Ingest._process_pdf_page, Ingest.load_page.
    now rewrite E.
  - apply (Hskip "page not in document").
    unfold Ingest._process_pdf_page, Ingest.load_page. now rewrite E.
Qed.

Lemma ingest_pages_nothing pages : forall batch_docs w,
  exists evs k,
    Ingest.ingest_pages env doc_pdf total_pages doc_id file_name false
      progress_callback pages batch_docs w
    = (Ret batch_docs, extend w evs k)
    /\ forallb inside evs = true.
Proof.
  induction pages as [|i rest IH]; intros batch_docs w.
  - exists [], 0. split; [|reflexivity]. now rewrite extend_nil.
  - cbn [Ingest.ingest_pages].
    destruct (ingest_page_nothing i batch_docs w) as [evs [k [Hstep Hin]]].
    destruct (IH batch_docs (extend w evs k)) as [evs' [k' [Hrest Hin']]].
    exists (evs ++ evs')%list, (k' + k). split.
    + erewrite bind_ret_step by exact Hstep. rewrite Hrest.
      now rewrite extend_extend.
    + now rewrite forallb_app, Hin, Hin'.
Qed.

Lemma ingest_batches_nothing starts : forall w,
  exists evs k,
    Ingest.ingest_batches env doc_pdf total_pages doc_id file_name false
      progress_callback starts w
    = (Ret tt, extend w evs k)
    /\ forallb inside evs = true.
Proof.
  induction starts as [|b rest IH]; intros w.
  - exists [], 0. split; [|reflexivity]. now rewrite extend_nil.
  - cbn [Ingest.ingest_batches]. unfold Ingest.ingest_batch. cbv zeta.
    set (w0 := extend w [EvPrint (MsgProcessingPages (b + 1)
                           (Nat.min (b + Ingest.BATCH_SIZE) total_pages))] 0).
    destruct (ingest_pages_nothing
                (seq b (Nat.min (b + Ingest.BATCH_SIZE) total_pages - b))
                [] w0) as [evs [k [Hpages Hin]]].
    destruct (IH (extend w0 evs k)) as [evs' [k' [Hrest Hin']]].
    eexists _, _. split.
    + erewrite bind_ret_step.
      2:{ erewrite bind_ret_step by apply print_run. fold w0.
          erewrite bind_ret_step by exact Hpages. reflexivity. }
      rewrite Hrest. unfold w0. rewrite !extend_extend. reflexivity.
    + rewrite !forallb_app, Hin, Hin'. reflexivity.
Qed.

End NothingToStore.

(** X16.  A readable document none of whose pages yields content (each
    page fails to load or has only blank text), ingested without deep
    extraction, leaves nothing to store: [ingest_pdf] returns the document
    id without calling a capability, the splitter, the vector store or
    the graph store, and the graph is as before, whatever the outside
    world would have done. *)
Theorem blank_document_stores_nothing
  (env : Env) (w : World) (doc_pdf : pdf_document)
  (file_name doc_id : string) (progress_callback : option Ingest.callback) :
  Forall (fun p => yields_nothing p = true) doc_pdf ->
  let ingest :=
    Ingest.ingest_pdf env (Fetched doc_pdf) file_name doc_id false
                      progress_callback in
  run ingest w = Ret doc_id
  /\ forallb (fun ev => negb (is_outside_call ev)) (emitted ingest w) = true
  /\ graph (after ingest w) = graph w
  /\ open_handles (after ingest w) = open_handles w.
Proof.
  intros Hblank ingest.
  assert (Hno : forall i p, nth_error doc_pdf i = Some p ->
                            yields_nothing p = true).
  { intros i p Hp. apply nth_error_In in Hp.
    exact (proj1 (Forall_forall _ _) Hblank p Hp). }
  set (total := List.length doc_pdf).
  set (w0 := mkWorld (trace w ++ [EvOpen]) (calls w) (kg_driver w) (graph w)
                     (S (open_handles w))).
  set (w0' := extend w0 [EvPrint (MsgProcessing file_name total false)] 0).
  destruct (ingest_batches_nothing env doc_pdf total doc_id file_name
              progress_callback Hno (range_step 0 total Ingest.BATCH_SIZE) w0')
    as [evs [k [Hrun Hin]]].
  assert (Hfinal : ingest w
                   = (Ret doc_id,
                      mkWorld (trace (extend w0' evs k) ++ [EvClose])
                              (calls (extend w0' evs k)) (kg_driver w)
                              (graph w) (open_handles w))).
  { change (ingest w)
      with (bind (Ingest.ingest_batches env doc_pdf total doc_id file_name
                    false progress_callback
                    (range_step 0 total Ingest.BATCH_SIZE))
                 (fun _ => Ingest.close ;; ret doc_id) w0').
    erewrite bind_ret_step by exact Hrun. reflexivity. }
  split; [exact (run_of_eq _ _ _ _ Hfinal)|].
  split; [|split; now rewrite (after_of_eq _ _ _ _ Hfinal)].
  rewrite (emitted_of_trace ingest w
             ([EvOpen; EvPrint (MsgProcessing file_name total false)]
              ++ evs ++ [EvClose])).
  - rewrite !forallb_app, Hin. reflexivity.
  - rewrite (after_of_eq _ _ _ _ Hfinal). cbn [trace extend w0' w0].
    unfold w0', w0. cbn [extend trace]. now rewrite <- !app_assoc.
Qed.

Lemma blank_document_stores_nothing_witness :
  Forall (fun p => yields_nothing p = true)
         [plain_page "   "; Broken "cannot load page"]
  /\ run (Ingest.ingest_pdf graph_down
            (Fetched [plain_page "   "; Broken "cannot load page"])
            "scan.pdf" "doc-9" false (Some Ingest.ProgressFn)) fresh
     = Ret "doc-9".
Proof.
  assert (H : Forall (fun p => yields_nothing p = true)
                     [plain_page "   "; Broken "cannot load page"])
    by (repeat constructor).
  split; [exact H|].
  exact (proj1 (blank_document_stores_nothing graph_down fresh _ "scan.pdf"
                  "doc-9" (Some Ingest.ProgressFn) H)).
Defined.

(** ** Page extraction: images below the size floor *)

Lemma extract_images_small env images :
  forallb small_image images = true ->
  forall idx page_num doc_id file_name docs w,
    Ingest.extract_images env images idx page_num doc_id file_name docs w
    = (Ret docs, w).
Proof.
  induction images as [|img rest IH]; intros Hsmall idx page_num doc_id
    file_name docs w; [reflexivity|].
  cbn [forallb] in Hsmall. apply andb_true_iff in Hsmall as [Himg Hrest].
  destruct img as [base|e]; [|discriminate].
  cbn [small_image] in Himg. cbn [Ingest.extract_images Ingest.fetch].
  erewrite bind_ret_step by reflexivity. cbv zeta. rewrite Himg.
  now apply IH.
Qed.

(** X17.  Images under 10000 bytes are passed over: for a page with at
    least 50 characters of text whose embedded images, as listed under
    deep extraction, are all that small, page extraction gives the one
    text unit of the page, with or without deep extraction, and calls
    nothing and writes nothing. *)
Theorem small_images_are_skipped
  (env : Env) (w : World) (doc_pdf : pdf_document) (page_num : nat)
  (page : Page) (images : list (fetched base_image))
  (doc_id file_name : string) (deep_ocr : bool) :
  nth_error doc_pdf page_num = Some (Fetched page) ->
  50 <= String.length (Text.strip (get_text page)) ->
  (deep_ocr = true -> get_images page = Fetched images) ->
  forallb small_image images = true ->
  Ingest._process_pdf_page env doc_pdf page_num doc_id file_name deep_ocr w
  = (Ret [mkDocument (get_text page) (Some file_name) (Some (page_num + 1))
                     (Some doc_id) None (Some "text")],
     w).
Proof.
  intros Hpage Hlen Himages Hsmall.
  unfold Ingest._process_pdf_page, Ingest.load_page. rewrite Hpage.
  cbn [Ingest.fetch]. erewrite bind_ret_step by reflexivity. cbv zeta.
  apply Nat.ltb_ge in Hlen. rewrite Hlen. cbn [andb].
  erewrite bind_ret_step by reflexivity.
  assert (Htext : Text.truthy (Text.strip (get_text page)) = true).
  { apply Nat.ltb_ge in Hlen.
    destruct (Text.strip (get_text page)); [simpl in Hlen; lia | reflexivity]. }
  rewrite Htext. cbn [app].
  destruct deep_ocr; [|reflexivity].
  rewrite (Himages eq_refl). cbn [Ingest.fetch].
  erewrite bind_ret_step by reflexivity.
  now apply extract_images_small.
Qed.

Lemma small_images_are_skipped_witness :
  50 <= String.length (Text.strip long_text)
  /\ Ingest._process_pdf_page (always_failing "Connection error.")
       [Fetched (mkPage long_text (Fetched [])
                        (Fetched [Fetched (mkBaseImage [] "png")]))]
       0 "doc-1" "book.pdf" true fresh
     = (Ret [mkDocument long_text (Some "book.pdf") (Some 1) (Some "doc-1")
                        None (Some "text")],
        fresh).
Proof.
  assert (H : 50 <= String.length (Text.strip long_text))
    by (vm_compute; repeat constructor).
  split; [exact H|].
  exact (small_images_are_skipped (always_failing "Connection error.") fresh
           [Fetched (mkPage long_text (Fetched [])
                            (Fetched [Fetched (mkBaseImage [] "png")]))]
           0 (mkPage long_text (Fetched [])
                     (Fetched [Fetched (mkBaseImage [] "png")]))
           [Fetched (mkBaseImage [] "png")]
           "doc-1" "book.pdf" true eq_refl H (fun _ => eq_refl) eq_refl).
Defined.

(** ** Page extraction: how the content units are labelled *)

Lemma unit_of_page_more file_name doc_id page_num files files' d :
  incl files files' ->
  unit_of_page file_name doc_id page_num files d ->
  unit_of_page file_name doc_id page_num files' d.
Proof.
  intros Hincl [Hs [Hp [Hd [Hc Ht]]]]. repeat split; auto.
  destruct Ht as [Ht | [Ht [path [Hpath Hin]]]]; [now left|].
  right. split; [exact Ht|]. exists path. auto.
Qed.

Lemma written_files_app a b :
  written_files (a ++ b) = (written_files a ++ written_files b)%list.
Proof. unfold written_files. apply flat_map_app. Qed.

Lemma analyze_trace env img prompt w :
  exists d evs,
    Ingest._analyze_image_with_gpt env img prompt w
    = (Ret d, after (Ingest._analyze_image_with_gpt env img prompt) w)
    /\ trace (after (Ingest._analyze_image_with_gpt env img prompt) w)
       = (trace w ++ evs)%list.
Proof.
  destruct (analyze_returns env img prompt w) as [d Hd].
  exists d, (emitted (Ingest._analyze_image_with_gpt env img prompt) w).
  split; [exact Hd|].
  apply (behaves_trace (fun _ => true) false).
  apply behaves_analyze; [split|]; reflexivity.
Qed.

Lemma extract_images_units env page_num doc_id file_name images :
  forall idx docs w docs' w',
    Ingest.extract_images env images idx page_num doc_id file_name docs w
    = (Ret docs', w') ->
    exists new evs,
      docs' = (docs ++ new)%list
      /\ trace w' = (trace w ++ evs)%list
      /\ Forall (unit_of_page file_name doc_id page_num (written_files evs))
                new.
Proof.
  induction images as [|img rest IH]; intros idx docs w docs' w' H.
  - injection H as <- <-. exists [], []. now rewrite !app_nil_r.
  - cbn [Ingest.extract_images] in H. destruct img as [base|e].
    2:{ erewrite bind_raise_step in H by reflexivity. discriminate. }
    erewrite bind_ret_step in H by reflexivity. cbv zeta in H.
    match type of H with
    | (if ?b then _ else _) _ = _ => destruct b
    end; [now apply IH in H|].
    destruct (fault env (calls w)) as [e|] eqn:Ef.
    { erewrite bind_raise_step in H by (apply external_err; exact Ef).
      discriminate. }
    erewrite bind_ret_step in H by (apply external_ok; exact Ef).
    match type of H with
    | context [extend w [EvWriteFile ?p ?data] 1] =>
        set (path := p) in *;
        destruct (analyze_trace env data DescribeImage
                    (extend w [EvWriteFile path data] 1))
          as [d [evs_a [Hd Ha]]]
    end.
    erewrite bind_ret_step in H by exact Hd. cbv zeta in H.
    apply IH in H as [new [evs [Hdocs [Ht Hunits]]]].
    rewrite Ha in Ht. cbn [extend trace] in Ht.
    exists ((if Text.truthy d
             then [mkDocument ("Image Description: " ++ d) (Some file_name)
                              (Some (page_num + 1)) (Some doc_id) (Some path)
                              (Some "image")]
             else []) ++ new)%list,
           ([EvWriteFile path (image base)] ++ evs_a ++ evs)%list.
    split; [|split].
    + rewrite Hdocs. destruct (Text.truthy d).
      * now rewrite <- app_assoc.
      * reflexivity.
    + rewrite Ht. now rewrite <- !app_assoc.
    + apply Forall_app. split.
      * destruct (Text.truthy d); [|constructor].
        constructor; [|constructor].
        repeat split; try reflexivity; [discriminate|].
        right. split; [reflexivity|]. exists path. split; [reflexivity|].
        now left.
      * eapply Forall_impl; [|exact Hunits]. intros u.
        apply unit_of_page_more. intros x Hx.
        rewrite !written_files_app, !in_app_iff. auto.
Qed.

(** X18.  Every content unit that page extraction returns is labelled
    with the file name, the page number counted from 1 and the document
    id, and has content; a unit is either a text unit without an image
    path, or an image unit whose image path is a file written during that
    extraction. *)
Theorem page_units_are_labelled
  (env : Env) (w : World) (doc_pdf : pdf_document) (page_num : nat)
  (doc_id file_name : string) (deep_ocr : bool) (docs : list Document) :
  let extraction :=
    Ingest._process_pdf_page env doc_pdf page_num doc_id file_name deep_ocr in
  run extraction w = Ret docs ->
  Forall (unit_of_page file_name doc_id page_num
                       (written_files (emitted extraction w)))
         docs.
Proof.
  intros extraction Hrun.
  destruct (extraction w) as [r w'] eqn:E.
  unfold run in Hrun. rewrite E in Hrun. cbn [fst] in Hrun. subst r.
  unfold emitted, after. rewrite E. cbn [snd].
  unfold extraction, Ingest._process_pdf_page, Ingest.load_page in E.
  destruct (nth_error doc_pdf page_num) as [[page|e]|];
    [|discriminate|discriminate].
  cbn [Ingest.fetch] in E. erewrite bind_ret_step in E by reflexivity.
  cbv zeta in E.
  set (reading :=
         if (String.length (Text.strip (get_text page)) <? 50) && deep_ocr
         then
           print (MsgScanned (page_num + 1)) ;;
           img_bytes <- Ingest.fetch (get_pixmap page) ;;
           ocr_text <- Ingest._analyze_image_with_gpt env img_bytes
                                                      TranscribePage ;;
           ret (if Text.truthy ocr_text then ocr_text else get_text page)
         else ret (get_text page)) in E.
  assert (Hreading : behaves (fun _ => true) true reading).
  { unfold reading.
    destruct ((String.length (Text.strip (get_text page)) <? 50) && deep_ocr);
      [|apply behaves_ret].
    apply behaves_bind; [apply behaves_print; split; reflexivity|]. intros _.
    apply behaves_bind; [apply behaves_fetch|]. intros img_bytes.
    apply behaves_bind;
      [apply behaves_analyze; [split|]; reflexivity|]. intros t.
    apply behaves_ret. }
  pose proof (behaves_trace _ _ reading w Hreading) as Ht.
  destruct (reading w) as [[text|e] w1] eqn:Htext;
    [|erewrite bind_raise_step in E by exact Htext; discriminate].
  rewrite (after_of_eq _ _ _ _ Htext) in Ht.
  erewrite bind_ret_step in E by exact Htext. cbv beta zeta in E.
  set (unit := mkDocument text (Some file_name) (Some (page_num + 1))
                          (Some doc_id) None (Some "text")) in *.
  assert (Hunit : forall files,
             Text.truthy (Text.strip text) = true ->
             unit_of_page file_name doc_id page_num files unit).
  { intros files Hnb. repeat split; try reflexivity; [|now left].
    cbn [page_content unit]. intros ->. discriminate Hnb. }
  assert (Hfirst : forall files,
             Forall (unit_of_page file_name doc_id page_num files)
                    (if Text.truthy (Text.strip text)
                     then ([] ++ [unit])%list else [])).
  { intros files. destruct (Text.truthy (Text.strip text)) eqn:Et;
      [|constructor]. constructor; [now apply Hunit | constructor]. }
  destruct deep_ocr.
  - destruct (get_images page) as [image_list|e]; [|discriminate].
    cbn [Ingest.fetch] in E. erewrite bind_ret_step in E by reflexivity.
    apply extract_images_units in E as [new [evs [Hdocs [Ht' Hunits]]]].
    rewrite Hdocs, Ht', Ht, <- app_assoc, skipn_length_app.
    apply Forall_app. split; [apply Hfirst|].
    eapply Forall_impl; [|exact Hunits]. intros u.
    apply unit_of_page_more. intros x Hx.
    rewrite written_files_app, in_app_iff. now right.
  - injection E as <- <-. apply Hfirst.
Qed.

Lemma page_units_are_labelled_witness :
  run (Ingest._process_pdf_page (answering "A dog on a lawn.")
         [Fetched (mkPage long_text (Fetched [])
                          (Fetched [Fetched (mkBaseImage
                                               (repeat Byte.x00 10000)
                                               "png")]))]
         0 "doc-1" "book.pdf" true) fresh
  = Ret [mkDocument long_text (Some "book.pdf") (Some 1) (Some "doc-1") None
                    (Some "text");
         mkDocument "Image Description: A dog on a lawn." (Some "book.pdf")
                    (Some 1) (Some "doc-1")
                    (Some "static/images/doc-1_p1_i0.png") (Some "image")]
  /\ Forall (unit_of_page "book.pdf" "doc-1" 0
               (written_files
                  (emitted (Ingest._process_pdf_page
                              (answering "A dog on a lawn.")
                              [Fetched (mkPage long_text (Fetched [])
                                 (Fetched [Fetched (mkBaseImage
                                                      (repeat Byte.x00 10000)
                                                      "png")]))]
                              0 "doc-1" "book.pdf" true) fresh)))
       [mkDocument long_text (Some "book.pdf") (Some 1) (Some "doc-1") None
                   (Some "text");
        mkDocument "Image Description: A dog on a lawn." (Some "book.pdf")
                   (Some 1) (Some "doc-1")
                   (Some "static/images/doc-1_p1_i0.png") (Some "image")].
Proof.
  assert (H : run (Ingest._process_pdf_page (answering "A dog on a lawn.")
                     [Fetched (mkPage long_text (Fetched [])
                        (Fetched [Fetched (mkBaseImage
                                             (repeat Byte.x00 10000)
                                             "png")]))]
                     0 "doc-1" "book.pdf" true) fresh
              = Ret [mkDocument long_text (Some "book.pdf") (Some 1)
                                (Some "doc-1") None (Some "text");
                     mkDocument "Image Description: A dog on a lawn."
                                (Some "book.pdf") (Some 1) (Some "doc-1")
                                (Some "static/images/doc-1_p1_i0.png")
                                (Some "image")])
    by (vm_compute; reflexivity).
  split; [exact H|].
  exact (page_units_are_labelled _ _ _ _ _ _ _ _ H).
Defined.
